(** * A Rocq model of the Notion-to-local-folder mirroring engine

    The development follows the Python sources of [notion2gdrive]:
    [notion_client.py] (rate limiter and retrying requests),
    [notion_markdown.py] (rich text), and [mirror.py] (naming, path
    resolution, the incremental write phase, reconciliation and the
    directory swap of a full rebuild).

    Conventions of the embedding.
    - Python values that arrive as JSON are values of [json]; a [dict] is
      an association list in insertion order.  JSON numbers are integers.
    - A Python exception is a value of [exn]; a computation that may raise
      returns a [result].  Stateful code threads its state explicitly, and
      the state survives an exception, as in Python.
    - [str] values are Rocq strings, one character per code point of the
      ASCII range.
    - The readings of the monotonic clock that the rate limiter compares
      are binary64 floats, with the rounding of their subtraction.  The
      delays of the retry loop, which are only doubled, compared and
      capped, are rationals (seconds).
    - The recursion limit of the interpreter is modelled where the code
      catches its exception, in the resolution of page paths
      ([resolve_limited]); the run as a whole is described for calls that
      stay within the limit.  Memory is unbounded. *)

From Stdlib Require Import QArith Qminmax Lqa Ascii String SpecFloat.
From stdpp Require Import gmap strings list fin_maps pretty sorting.

Set Warnings "-register-all".
Local Open Scope string_scope.
Local Open Scope list_scope.

(** ** Exceptions and results *)

Inductive exn :=
| AttributeError
| TypeError
| ValueError
| IndexError
| OSError (what : string)
| HTTPError (what : string)
| NotionError (msg : string)
| RecursionError.

Inductive result (A : Type) :=
| Ok (a : A)
| Raise (e : exn).
Arguments Ok {A} a.
Arguments Raise {A} e.

Definition is_ok {A} (r : result A) : bool :=
  match r with Ok _ => true | Raise _ => false end.

(** [isinstance(e, OSError)], for [except OSError]. *)
Definition is_OSError (e : exn) : bool :=
  match e with OSError _ => true | _ => false end.

(** ** JSON values as Python sees them *)

Inductive json :=
| JNull
| JBool (b : bool)
| JNum (n : Z)
| JStr (s : string)
| JArr (items : list json)
| JObj (fields : list (string * json)).

Abbreviation jobj := (list (string * json)).

(** Truth value of a Python object ([if x], [x or y]). *)
Definition truthy (v : json) : bool :=
  match v with
  | JNull => false
  | JBool b => b
  | JNum n => negb (n =? 0)%Z
  | JStr s => negb (String.eqb s "")
  | JArr l => match l with [] => false | _ => true end
  | JObj kv => match kv with [] => false | _ => true end
  end.

(** [x or y] *)
Definition py_or (x y : json) : json := if truthy x then x else y.

(** [d.get(k)] on a dict: the bound value, [None] when [k] is not a key. *)
Fixpoint dict_get (d : jobj) (k : string) : json :=
  match d with
  | [] => JNull
  | (k', v) :: d' => if String.eqb k' k then v else dict_get d' k
  end.

(** [k in d] *)
Fixpoint dict_mem (d : jobj) (k : string) : bool :=
  match d with
  | [] => false
  | (k', _) :: d' => String.eqb k' k || dict_mem d' k
  end.

(** [d[k] = v]: an existing key keeps its place, a new key goes last. *)
Fixpoint dict_set (d : jobj) (k : string) (v : json) : jobj :=
  match d with
  | [] => [(k, v)]
  | (k', v') :: d' =>
      if String.eqb k' k then (k, v) :: d' else (k', v') :: dict_set d' k v
  end.

(** Attribute access [x.get] / [x.items]: only a dict has them. *)
Definition as_dict (v : json) : result jobj :=
  match v with
  | JObj kv => Ok kv
  | _ => Raise AttributeError
  end.

(** [(x or {})], then used as a dict. *)
Definition or_empty_dict (v : json) : result jobj :=
  if truthy v then as_dict v else Ok [].

(** [x == "literal"] for a JSON value [x]. *)
Definition is_str (v : json) (s : string) : bool :=
  match v with JStr s' => String.eqb s' s | _ => false end.

(** Equality of two Python values of the kinds compared in the index
    ([None] or a string on either side; [True == 1] as in Python). *)
Fixpoint py_eq (a b : json) {struct a} : bool :=
  let num v := match v with
               | JBool b => Some (if b then 1 else 0)%Z
               | JNum n => Some n
               | _ => None
               end in
  match a, b with
  | JNull, JNull => true
  | JStr s, JStr s' => String.eqb s s'
  | (JBool _ | JNum _), (JBool _ | JNum _) =>
      match num a, num b with
      | Some x, Some y => (x =? y)%Z
      | _, _ => false
      end
  | JArr l, JArr l' =>
      (fix go (l l' : list json) : bool :=
         match l, l' with
         | [], [] => true
         | x :: l, y :: l' => py_eq x y && go l l'
         | _, _ => false
         end) l l'
  | JObj kv, JObj kv' =>
      Nat.eqb (length kv) (length kv')
      && (fix go (kv : jobj) : bool :=
            match kv with
            | [] => true
            | (k, v) :: kv => dict_mem kv' k && py_eq v (dict_get kv' k) && go kv
            end) kv
  | _, _ => false
  end.

(** ** Python [str] operations used by the sources *)

Definition chars (s : string) : list ascii := list_ascii_of_string s.
Definition str_of (l : list ascii) : string := string_of_list_ascii l.

Definition ascii_in (c : ascii) (cs : list ascii) : bool :=
  existsb (Ascii.eqb c) cs.

(** [c.isspace()] on the ASCII range: tab, newline, vertical tab, form
    feed, carriage return, the four separators 28 to 31, and space. *)
Definition is_space (c : ascii) : bool :=
  let n := nat_of_ascii c in
  ((9 <=? n) && (n <=? 13) || (28 <=? n) && (n <=? 32))%nat.

Fixpoint lstrip_by (p : ascii → bool) (s : list ascii) : list ascii :=
  match s with
  | [] => []
  | c :: s' => if p c then lstrip_by p s' else s
  end.

Definition rstrip_by (p : ascii → bool) (s : list ascii) : list ascii :=
  rev (lstrip_by p (rev s)).

(** [s.strip()] *)
Definition strip (s : list ascii) : list ascii :=
  rstrip_by is_space (lstrip_by is_space s).

(** [re.sub(r"\s+", " ", s)]: every maximal run of white space becomes one
    space.  [in_run] tells that the previous character was white space. *)
Fixpoint collapse_ws (in_run : bool) (s : list ascii) : list ascii :=
  match s with
  | [] => []
  | c :: s' =>
      if is_space c
      then (if in_run then collapse_ws true s' else " "%char :: collapse_ws true s')
      else c :: collapse_ws false s'
  end.

(** [s.replace("\r\n", "\n")] *)
Fixpoint crlf_to_lf (s : list ascii) : list ascii :=
  match s with
  | [] => []
  | c :: s' =>
      match s' with
      | c' :: s'' =>
          if Ascii.eqb c "013"%char && Ascii.eqb c' "010"%char
          then "010"%char :: crlf_to_lf s''
          else c :: crlf_to_lf s'
      | [] => [c]
      end
  end.

(** [s.replace("-", "")] *)
Definition remove_dashes (s : list ascii) : list ascii :=
  List.filter (fun c => negb (Ascii.eqb c "-"%char)) s.

(** [needle in s] for two strings. *)
Fixpoint contains (needle s : string) : bool :=
  String.prefix needle s
  || match s with
     | EmptyString => false
     | String _ s' => contains needle s'
     end.

(** [s.split(sep)] for a one-character separator; [cur] is the piece being
    read, reversed. *)
Fixpoint split_on (sep : ascii) (cur : list ascii) (s : list ascii) : list string :=
  match s with
  | [] => [str_of (rev cur)]
  | c :: s' =>
      if Ascii.eqb c sep
      then str_of (rev cur) :: split_on sep [] s'
      else split_on sep (c :: cur) s'
  end.

(** [str(x)] and [repr(x)] of a JSON value, as an f-string interpolates
    it.  Escapes inside a quoted string are not modelled. *)
Fixpoint py_repr (v : json) : string :=
  match v with
  | JNull => "None"
  | JBool true => "True"
  | JBool false => "False"
  | JNum n => pretty n
  | JStr s => "'" +:+ s +:+ "'"
  | JArr l => "[" +:+ String.concat ", " (List.map py_repr l) +:+ "]"
  | JObj kv =>
      "{" +:+ String.concat ", "
               (List.map (fun kv => "'" +:+ fst kv +:+ "': " +:+ py_repr (snd kv)) kv)
          +:+ "}"
  end.

Definition py_str (v : json) : string :=
  match v with
  | JStr s => s
  | _ => py_repr v
  end.

(** ** notion_markdown.py *)

(** The body of the loop of [rich_text_to_md], for one element [rt]. *)
Definition rich_text_item (rt : json) : result string :=
  match as_dict rt with
  | Raise e => Raise e
  | Ok rt =>
      let plain := py_or (dict_get rt "plain_text") (JStr "") in
      match plain with
      | JStr plain =>
          let text := str_of (crlf_to_lf (chars plain)) in
          let href := dict_get rt "href" in
          match or_empty_dict (dict_get rt "annotations") with
          | Raise e => Raise e
          | Ok annotations =>
              let on (k : string) := truthy (dict_get annotations k) in
              let text := if on "code" then "`" +:+ text +:+ "`" else text in
              let text := if on "bold" then "**" +:+ text +:+ "**" else text in
              let text := if on "italic" then "*" +:+ text +:+ "*" else text in
              let text := if on "strikethrough" then "~~" +:+ text +:+ "~~" else text in
              let text := if on "underline" then "<u>" +:+ text +:+ "</u>" else text in
              let text := if truthy href
                          then "[" +:+ text +:+ "](" +:+ py_str href +:+ ")"
                          else text in
              Ok text
          end
      | _ => Raise AttributeError
      end
  end.

(** [parts.append] over the elements, in order; the first failure raises. *)
Fixpoint rich_text_parts (items : list json) : result (list string) :=
  match items with
  | [] => Ok []
  | rt :: items' =>
      match rich_text_item rt with
      | Raise e => Raise e
      | Ok text =>
          match rich_text_parts items' with
          | Raise e => Raise e
          | Ok parts => Ok (text :: parts)
          end
      end
  end.

Definition rich_text_to_md (rich_text : json) : result string :=
  if negb (truthy rich_text) then Ok ""
  else match rich_text with
       | JArr items =>
           match rich_text_parts items with
           | Raise e => Raise e
           | Ok parts => Ok (String.concat "" parts)
           end
       | JStr _ | JObj _ => Raise AttributeError
       | _ => Raise TypeError
       end.

(** ** mirror.py: names *)

(** The character class of [_INVALID_WIN_CHARS]. *)
Definition _INVALID_WIN_CHARS : list ascii :=
  chars "<>:" ++ ["034"%char] ++ chars "/\|?*".

Definition safe_name (name : string) (fallback : string) : string :=
  let name := strip (chars name) in
  let name := List.map (fun c => if ascii_in c _INVALID_WIN_CHARS then "_"%char else c) name in
  let name := strip (collapse_ws false name) in
  let name := rstrip_by (fun c => ascii_in c (chars ". ")) name in
  match name with
  | [] => fallback
  | _ => str_of (take 160 name)
  end.

(** [s or default] for a string result. *)
Definition str_or (s : string) (default : string) : string :=
  if String.eqb s "" then default else s.

(** The [for _, v in props.items()] loop of [page_title]: the first
    property whose type is ["title"] decides. *)
Fixpoint page_title_loop (props : jobj) : result string :=
  match props with
  | [] => Ok "untitled_page"
  | (_, v) :: props' =>
      match or_empty_dict v with
      | Raise e => Raise e
      | Ok v =>
          if is_str (dict_get v "type") "title"
          then match rich_text_to_md (dict_get v "title") with
               | Raise e => Raise e
               | Ok t => Ok (str_or t "untitled_page")
               end
          else page_title_loop props'
      end
  end.

Definition page_title (page : jobj) : result string :=
  if negb (is_str (dict_get page "object") "page") then Ok "untitled_page"
  else match or_empty_dict (dict_get page "properties") with
       | Raise e => Raise e
       | Ok props => page_title_loop props
       end.

Definition database_title (db : jobj) : result string :=
  if negb (is_str (dict_get db "object") "database") then Ok "untitled_db"
  else match rich_text_to_md (dict_get db "title") with
       | Raise e => Raise e
       | Ok t => Ok (str_or t "untitled_db")
       end.

Definition _id8 (notion_id : json) : result string :=
  match py_or notion_id (JStr "") with
  | JStr s => Ok (str_or (str_of (take 8 (remove_dashes (chars s)))) "unknown")
  | _ => Raise AttributeError
  end.

(** ** notion_client.py: the rate limiter *)

Module AsyncRateLimiter.

(** A Python [float] is an IEEE 754 binary64 number; [-], [<] and
    [max] on floats are the operations of that format, rounding to the
    nearest representable number, ties to even. *)
Definition float_sub (x y : spec_float) : spec_float := SFsub 53 1024 x y.

(** [x < y] *)
Definition float_lt (x y : spec_float) : bool := SFltb x y.

(** [max(x, y)]: [y] when [y > x], and [x] otherwise. *)
Definition float_max (x y : spec_float) : spec_float :=
  if float_lt x y then y else x.

(** The literals [1.0] and [0.01]. *)
Definition float_1 : spec_float := S754_finite false 4503599627370496 (-52).
Definition float_0_01 : spec_float := S754_finite false 5764607523034235 (-59).

Record t := {
  _rate : Z;
  _burst : Z;
  (** readings of [time.monotonic()] *)
  _timestamps : list spec_float
}.

Definition __init__ (rate_per_sec burst : Z) : t :=
  {| _rate := Z.max rate_per_sec 1;
     _burst := Z.max burst 1;
     _timestamps := [] |}.

(** [now - t < 1.0] *)
Definition in_window (now t : spec_float) : bool :=
  float_lt (float_sub now t) float_1.

(** What one pass through the body of [while True] decides. *)
Inductive verdict :=
| Acquired
| Sleep (seconds : spec_float).

(** One pass of [acquire] under the lock, with [now] the reading of
    [time.monotonic()]: stale timestamps are dropped (the list is stored
    back), and either [now] is recorded and the call returns, or the
    caller is told how long to sleep before the next pass. *)
Definition acquire_pass (now : spec_float) (l : t) : result verdict * t :=
  let ts := List.filter (in_window now) (_timestamps l) in
  if (Z.of_nat (length ts) <? _burst l)%Z
  then (Ok Acquired,
        {| _rate := _rate l; _burst := _burst l; _timestamps := ts ++ [now] |})
  else
    let l' := {| _rate := _rate l; _burst := _burst l; _timestamps := ts |} in
    match ts with
    | t0 :: _ =>
        (Ok (Sleep (float_max (float_sub float_1 (float_sub now t0)) float_0_01)), l')
    | [] => (Raise IndexError, l')
    end.

(** [acquire] run by one task with nobody else using the limiter.
    [wake now d] is the clock reading when [asyncio.sleep(d)], started at
    [now], has returned.  [fuel] bounds the passes; the result is the time
    at which the call returned. *)
Fixpoint acquire (fuel : nat) (wake : spec_float → spec_float → spec_float)
  (now : spec_float) (l : t) : option (result spec_float * t) :=
  match fuel with
  | O => None
  | S fuel' =>
      match acquire_pass now l with
      | (Ok Acquired, l') => Some (Ok now, l')
      | (Ok (Sleep d), l') => acquire fuel' wake (wake now d) l'
      | (Raise e, l') => Some (Raise e, l')
      end
  end.

(** Any number of tasks calling [acquire]: the lock makes the passes
    atomic, so a run is a sequence of passes, each with its clock reading.
    The result lists the readings at which some call returned. *)
Fixpoint passes (nows : list spec_float) (l : t) : list spec_float * t :=
  match nows with
  | [] => ([], l)
  | now :: nows' =>
      match acquire_pass now l with
      | (Ok Acquired, l') => let (gs, l'') := passes nows' l' in (now :: gs, l'')
      | (_, l') => passes nows' l'
      end
  end.

End AsyncRateLimiter.

(** ** notion_client.py: one request with retries *)

Module AsyncNotionClient.

Record response := {
  status_code : Z;
  text : string;
  (** [resp.headers.get("retry-after")] *)
  retry_after : option string;
  (** [resp.json()]; [None] when the body is not JSON *)
  json_body : option json
}.

Record t := {
  notion_version : string;
  rate_limit_per_sec : Z
}.

Inductive event :=
| Sent (attempt : nat) (version : string) (resp : response)
| Slept (seconds : Q).

Definition retry_statuses : list Z := [429; 500; 502; 503; 504]%Z.

Definition is_retry_status (resp : response) : bool :=
  existsb (Z.eqb (status_code resp)) retry_statuses.

Definition is_version_complaint (c : t) (resp : response) : bool :=
  (status_code resp =? 400)%Z
  && contains "Notion-Version" (text resp)
  && negb (String.eqb (notion_version c) "2022-06-28").

Section request.

(** [float(s)]: the number read, [None] for [ValueError]. *)
Variable float : string → option Q.

(** The server: what it answers to the attempt numbered [n] when the
    request carries the given [Notion-Version] header. *)
Variable server : nat → string → response.

Variables (method url : string).

(** The value of [backoff_s] after the [retry-after] header was looked at. *)
Definition with_hint (backoff_s : Q) (resp : response) : Q :=
  match retry_after resp with
  | Some s =>
      if String.eqb s "" then backoff_s
      else match float s with
           | Some h => Qmax backoff_s h
           | None => backoff_s
           end
  | None => backoff_s
  end.

(** What follows the two retry tests for a response that is final. *)
Definition conclude (resp : response) : result jobj :=
  if negb ((200 <=? status_code resp) && (status_code resp <=? 299))%Z
  then Raise (NotionError ("Notion API error " +:+ pretty (status_code resp)
                             +:+ ": " +:+ text resp))
  else match json_body resp with
       | None => Raise ValueError
       | Some (JObj data) => Ok data
       | Some _ => Raise (NotionError "Unexpected Notion API response (not a JSON object).")
       end.

(** The loop [for attempt in range(8)], run over the attempts left. *)
Fixpoint attempts (todo : list nat) (c : t) (backoff_s : Q)
  : result jobj * t * list event :=
  match todo with
  | [] => (Raise (NotionError ("Notion API request failed after retries: "
                                +:+ method +:+ " " +:+ url)), c, [])
  | attempt :: todo' =>
      let resp := server attempt (notion_version c) in
      let sent := Sent attempt (notion_version c) resp in
      if is_version_complaint c resp then
        let c' := {| notion_version := "2022-06-28";
                     rate_limit_per_sec := rate_limit_per_sec c |} in
        let '(r, c'', evs) := attempts todo' c' backoff_s in
        (r, c'', sent :: evs)
      else if is_retry_status resp then
        let backoff_s := with_hint backoff_s resp in
        let '(r, c'', evs) := attempts todo' c (Qmin (backoff_s * 2) 30) in
        (r, c'', sent :: Slept backoff_s :: evs)
      else (conclude resp, c, [sent])
  end.

Definition _request (c : t) : result jobj * t * list event :=
  attempts (seq 0 8) c 1.

End request.

(** The sleeps of a run, in order. *)
Definition sleeps (evs : list event) : list Q :=
  omap (fun e => match e with Slept d => Some d | _ => None end) evs.

(** The responses received, in order. *)
Definition responses (evs : list event) : list response :=
  omap (fun e => match e with Sent _ _ r => Some r | _ => None end) evs.

End AsyncNotionClient.

(** ** pathlib: pure paths *)

(** An absolute POSIX path: its components below [/], outermost first.
    A [..] component is kept as it is, as [pathlib] does. *)
Abbreviation path := (list string).

(** The components of a path written as a string: empty pieces and [.]
    are dropped. *)
Definition components (s : string) : list string :=
  List.filter (fun seg => negb (String.eqb seg "" || String.eqb seg "."))
              (split_on "/" [] (chars s)).

Definition is_absolute (s : string) : bool := String.prefix "/" s.

(** [p / s] *)
Definition joinpath (p : path) (s : string) : path :=
  if is_absolute s then components s else p ++ components s.

(** [p.parent] *)
Definition parent (p : path) : path := removelast p.

(** [p.name] *)
Definition name (p : path) : string := List.last p "".

(** [str(p)] *)
Definition path_str (p : path) : string := "/" +:+ String.concat "/" p.

(** The index of the last [.] of a name, as [rfind] counts it. *)
Fixpoint rfind_dot (s : list ascii) (i : nat) (found : option nat) : option nat :=
  match s with
  | [] => found
  | c :: s' => rfind_dot s' (S i) (if Ascii.eqb c "."%char then Some i else found)
  end.

(** [PurePath.suffix] removed from a name: the part from the last dot on,
    unless that dot is the first or the last character. *)
Definition strip_suffix (n : string) : string :=
  let cs := chars n in
  match rfind_dot cs 0 None with
  | Some i => if ((0 <? i) && (i <? length cs - 1))%nat then str_of (take i cs) else n
  | None => n
  end.

(** [p.with_suffix("")] *)
Definition with_suffix_empty (p : path) : result path :=
  match p with
  | [] => Raise ValueError
  | _ => Ok (removelast p ++ [strip_suffix (name p)])
  end.

(** [p.with_name(n)] for a name [n] that is a single component. *)
Definition with_name (p : path) (n : string) : result path :=
  match p with
  | [] => Raise ValueError
  | _ => Ok (removelast p ++ [n])
  end.

(** [p.relative_to(root)]: the components of [p] below [root]. *)
Definition relative_to (p root : path) : result (list string) :=
  if bool_decide (root `prefix_of` p) then Ok (drop (length root) p)
  else Raise ValueError.

(** [rel.as_posix()] of a relative path. *)
Definition as_posix (rel : list string) : string :=
  match rel with
  | [] => "."
  | _ => String.concat "/" rel
  end.

(** ** The file system *)

Inductive content :=
| Text (s : string)
(** a document written by [json.dumps], read back by [json.loads] *)
| Json (v : json).

Inductive node :=
| File (c : content)
| Dir.

(** A disk is the map of the nodes below [/], by path; [/] itself is
    always a directory and is no key of the map. *)

Inductive fs_event :=
| Mkdir (p : path)
| Write (p : path) (c : content)
| Unlink (p : path)
| Rmdir (p : path)
| Rmtree (p : path)
| Rename (src dst : path).

Definition fs_exists (f : gmap path node) (p : path) : bool :=
  match p with
  | [] => true
  | _ => match f !! p with Some _ => true | None => false end
  end.

Definition fs_is_dir (f : gmap path node) (p : path) : bool :=
  match p with
  | [] => true
  | _ => match f !! p with Some Dir => true | _ => false end
  end.

Definition fs_is_file (f : gmap path node) (p : path) : bool :=
  match f !! p with
  | Some (File _) => true
  | _ => false
  end.

(** The entries of directory [p]. *)
Definition children (f : gmap path node) (p : path) : gmap path node :=
  filter (fun kv => parent (fst kv) = p ∧ fst kv ≠ []) f.

(** The nodes at and below [p], by their path relative to [p]. *)
Definition subtree (f : gmap path node) (p : path) : gmap path node :=
  list_to_map
    (omap (fun kv => if bool_decide (p `prefix_of` fst kv)
                     then Some (drop (length p) (fst kv), snd kv)
                     else None)
          (map_to_list f)).

(** [f] without the nodes at and below [p]. *)
Definition without (f : gmap path node) (p : path) : gmap path node :=
  filter (fun kv => ¬ p `prefix_of` fst kv) f.

(** The relative map [t] put at [p]. *)
Definition graft (p : path) (t : gmap path node) : gmap path node :=
  kmap (app p) t.

(** The directories [mkdir(parents=True, exist_ok=True)] has to create
    for [pre ++ rest], walking down from [pre]; a file on the way is an
    error. *)
Fixpoint mkdir_walk (f : gmap path node) (pre : path) (rest : list string)
  : result (list path) :=
  match rest with
  | [] => Ok []
  | s :: rest' =>
      let q := pre ++ [s] in
      match f !! q with
      | Some (File _) => Raise (OSError "exists and is not a directory")
      | Some Dir => mkdir_walk f q rest'
      | None =>
          match mkdir_walk f q rest' with
          | Ok qs => Ok (q :: qs)
          | Raise e => Raise e
          end
      end
  end.

Definition add_dirs (f : gmap path node) (qs : list path) : gmap path node :=
  foldr (fun q f => <[q := Dir]> f) f qs.

(** A file-system call: the tree it leaves and the changes it made, or
    the [OSError] it raises (the tree is then as it was). *)
Definition fs_call : Type :=
  gmap path node → result (gmap path node * list fs_event).

(** [p.mkdir(parents=True, exist_ok=True)] *)
Definition mkdir_p (p : path) : fs_call := fun f =>
  match mkdir_walk f [] p with
  | Ok qs => Ok (add_dirs f qs, List.map Mkdir qs)
  | Raise e => Raise e
  end.

(** [p.write_text(c)]: the directory of [p] must exist, and [p] must not
    be a directory. *)
Definition write_text (p : path) (c : content) : fs_call := fun f =>
  match p with
  | [] => Raise (OSError "is a directory")
  | _ =>
      if negb (fs_is_dir f (parent p)) then Raise (OSError "no such directory")
      else match f !! p with
           | Some Dir => Raise (OSError "is a directory")
           | _ => Ok (<[p := File c]> f, [Write p c])
           end
  end.

(** [p.unlink()] *)
Definition unlink (p : path) : fs_call := fun f =>
  match f !! p with
  | Some (File _) => Ok (delete p f, [Unlink p])
  | Some Dir => Raise (OSError "is a directory")
  | None => Raise (OSError "no such file")
  end.

(** [p.rmdir()]: only an empty directory goes. *)
Definition rmdir (p : path) : fs_call := fun f =>
  match p with
  | [] => Raise (OSError "busy")
  | _ =>
      match f !! p with
      | Some Dir =>
          if Nat.eqb (size (children f p)) 0 then Ok (delete p f, [Rmdir p])
          else Raise (OSError "directory not empty")
      | Some (File _) => Raise (OSError "not a directory")
      | None => Raise (OSError "no such directory")
      end
  end.

(** [shutil.rmtree(p, ignore_errors=True)]: a directory goes with all
    below it; on anything else the error is swallowed and nothing
    changes. *)
Definition rmtree_ignore_errors (p : path) : fs_call := fun f =>
  match f !! p with
  | Some Dir => Ok (without f p, [Rmtree p])
  | _ => Ok (f, [])
  end.

(** [src.replace(dst)], POSIX [rename]: a directory replaces only an
    empty directory, a file only a file, and nothing moves below itself. *)
Definition replace (src dst : path) : fs_call := fun f =>
  match src, dst with
  | [], _ | _, [] => Raise (OSError "busy")
  | _, _ =>
      match f !! src with
      | None => Raise (OSError "no such file or directory")
      | Some n =>
          if negb (fs_is_dir f (parent dst)) then Raise (OSError "no such directory")
          else if bool_decide (src = dst) then Ok (f, [])
          else if bool_decide (src `prefix_of` dst) then Raise (OSError "invalid argument")
          else
            let moved := graft dst (subtree f src) ∪ without (without f src) dst in
            match n, f !! dst with
            | File _, Some Dir => Raise (OSError "is a directory")
            | Dir, Some (File _) => Raise (OSError "not a directory")
            | Dir, Some Dir =>
                if Nat.eqb (size (children f dst)) 0 then Ok (moved, [Rename src dst])
                else Raise (OSError "directory not empty")
            | _, _ => Ok (moved, [Rename src dst])
            end
      end
  end.

(** ** The result monad *)

#[global] Instance result_ret : MRet result := fun A a => Ok a.
#[global] Instance result_bind : MBind result :=
  fun A B f r => match r with Ok a => f a | Raise e => Raise e end.

(** [try: r except Exception: handler] *)
Definition try_except {A} (r : result A) (handler : exn → result A) : result A :=
  match r with
  | Ok a => Ok a
  | Raise e => handler e
  end.

(** [str(e)] of an exception. *)
Definition exn_str (e : exn) : string :=
  match e with
  | AttributeError => "AttributeError"
  | TypeError => "TypeError"
  | ValueError => "ValueError"
  | IndexError => "IndexError"
  | OSError what => what
  | HTTPError what => what
  | NotionError msg => msg
  | RecursionError => "maximum recursion depth exceeded"
  end.

(** ** mirror.py: the mirror object *)

Module NotionMirror.

(** The hashable values that occur as ids: [None], a number (a boolean
    hashes as its number), a string. *)
Inductive key :=
| KNone
| KNum (n : Z)
| KStr (s : string).

#[global] Instance key_eq_dec : EqDecision key.
Proof. solve_decision. Defined.

#[global] Instance key_countable : Countable key.
Proof.
  refine (inj_countable'
            (fun k => match k with
                      | KNone => inl ()
                      | KNum n => inr (inl n)
                      | KStr s => inr (inr s)
                      end)
            (fun x => match x with
                      | inl _ => KNone
                      | inr (inl n) => KNum n
                      | inr (inr s) => KStr s
                      end) _).
  intros []; reflexivity.
Defined.

(** Using a value as a dict key or set member: a list or a dict is
    unhashable. *)
Definition hash_key (v : json) : result key :=
  match v with
  | JNull => Ok KNone
  | JBool b => Ok (KNum (if b then 1 else 0))
  | JNum n => Ok (KNum n)
  | JStr s => Ok (KStr s)
  | JArr _ | JObj _ => Raise TypeError
  end.

Record t := {
  output_dir : path;
  _page_cache : gmap string jobj;
  _db_cache : gmap string jobj;
  _page_path_cache : gmap key path;
  _inaccessible_blocks : list (json * json * string)
}.

Definition __init__ (output_dir : path) : t :=
  {| output_dir := output_dir;
     _page_cache := ∅;
     _db_cache := ∅;
     _page_path_cache := ∅;
     _inaccessible_blocks := [] |}.

Definition set_page_cache (c : gmap string jobj) (m : t) : t :=
  {| output_dir := output_dir m; _page_cache := c; _db_cache := _db_cache m;
     _page_path_cache := _page_path_cache m;
     _inaccessible_blocks := _inaccessible_blocks m |}.

Definition set_db_cache (c : gmap string jobj) (m : t) : t :=
  {| output_dir := output_dir m; _page_cache := _page_cache m; _db_cache := c;
     _page_path_cache := _page_path_cache m;
     _inaccessible_blocks := _inaccessible_blocks m |}.

Definition set_page_path_cache (c : gmap key path) (m : t) : t :=
  {| output_dir := output_dir m; _page_cache := _page_cache m;
     _db_cache := _db_cache m; _page_path_cache := c;
     _inaccessible_blocks := _inaccessible_blocks m |}.

Definition set_inaccessible_blocks (l : list (json * json * string)) (m : t) : t :=
  {| output_dir := output_dir m; _page_cache := _page_cache m;
     _db_cache := _db_cache m; _page_path_cache := _page_path_cache m;
     _inaccessible_blocks := l |}.

(** [cache.get(id)] for a cache whose keys are strings. *)
Definition cache_get (c : gmap string jobj) (id : json) : result (option jobj) :=
  k ← hash_key id;
  Ok (match k with KStr s => c !! s | _ => None end).

(** [found or placeholder]: an empty dict counts as missing. *)
Definition or_placeholder (found : option jobj) (placeholder : jobj) : jobj :=
  match found with
  | Some ((_ :: _) as o) => o
  | _ => placeholder
  end.

Definition _ensure_page (m : t) (page_id : json) : result jobj :=
  found ← cache_get (_page_cache m) page_id;
  Ok (or_placeholder found
        [("id", page_id); ("object", JStr "page"); ("properties", JObj [])]).

Definition _ensure_database (m : t) (database_id : json) : result jobj :=
  found ← cache_get (_db_cache m) database_id;
  Ok (or_placeholder found
        [("id", database_id); ("object", JStr "database"); ("title", JArr [])]).

Definition _database_folder_path (m : t) (database_id : json) (root : path)
  : result path :=
  db ← _ensure_database m database_id;
  raw ← database_title db;
  let title := safe_name raw "database" in
  id8 ← _id8 database_id;
  Ok (joinpath root ("DB_" +:+ title +:+ "_" +:+ id8)).

Definition _page_folder_name (page : jobj) : result string :=
  raw ← page_title page;
  let title := safe_name raw "page" in
  id8 ← _id8 (py_or (dict_get page "id") (JStr ""));
  Ok (title +:+ "_" +:+ id8).

Definition _page_file_name (page : jobj) : result string :=
  raw ← page_title page;
  let title := safe_name raw "page" in
  id8 ← _id8 (py_or (dict_get page "id") (JStr ""));
  Ok (title +:+ "_" +:+ id8 +:+ ".md").

(** The memo lookup that opens [_page_output_path]: a remembered path
    counts only when its text starts with the text of [root]. *)
Definition cached (m : t) (root : path) (k : key) : option path :=
  match _page_path_cache m !! k with
  | Some p => if String.prefix (path_str root) (path_str p) then Some p else None
  | None => None
  end.

(** [self._page_path_cache[page_id] = p; return p], or the exception. *)
Definition remember (k : key) (r : result path) (m : t) : result path * t :=
  match r with
  | Ok p => (Ok p, set_page_path_cache (<[k := p]> (_page_path_cache m)) m)
  | Raise e => (Raise e, m)
  end.

(** [_page_output_path] for a call that stays within the recursion limit
    of the interpreter: [fuel] bounds the depth of the recursion through
    page parents, and [None] means that this depth does not suffice.
    What the method does when the limit is reached is [resolve_limited]
    below. *)
Fixpoint resolve (fuel : nat) (root : path) (page_id : json) (_stack : gset key)
  (m : t) : option (result path * t) :=
  match fuel with
  | O => None
  | S fuel' =>
      match hash_key page_id with
      | Raise e => Some (Raise e, m)
      | Ok k =>
          match cached m root k with
          | Some p => Some (Ok p, m)
          | None =>
              if decide (k ∈ _stack) then
                Some (remember k
                        (page ← _ensure_page m page_id;
                         file ← _page_file_name page;
                         Ok (joinpath (joinpath root "_cycles") file)) m)
              else
                let _stack := {[k]} ∪ _stack in
                match (page ← _ensure_page m page_id;
                       parent ← or_empty_dict (dict_get page "parent");
                       Ok (page, parent)) with
                | Raise e => Some (Raise e, m)
                | Ok (page, parent) =>
                    let parent_type := dict_get parent "type" in
                    if is_str parent_type "workspace" then
                      Some (remember k
                              (file ← _page_file_name page;
                               Ok (joinpath (joinpath root "_workspace") file)) m)
                    else if is_str parent_type "database_id" then
                      Some (remember k
                              (folder ← _database_folder_path m
                                          (dict_get parent "database_id") root;
                               file ← _page_file_name page;
                               Ok (joinpath folder file)) m)
                    else if is_str parent_type "page_id" then
                      match resolve fuel' root (dict_get parent "page_id") _stack m with
                      | None => None
                      | Some (r, m') =>
                          Some (remember k
                                  (try_except
                                     (parent_path ← r;
                                      parent_dir ← with_suffix_empty parent_path;
                                      file ← _page_file_name page;
                                      Ok (joinpath parent_dir file))
                                     (fun _ =>
                                        file ← _page_file_name page;
                                        Ok (joinpath (joinpath root "_orphans") file)))
                                  m')
                      end
                    else
                      Some (remember k
                              (file ← _page_file_name page;
                               Ok (joinpath (joinpath root "_other") file)) m)
                end
          end
      end
  end.

(** [_page_output_path] in an interpreter that has room for [frames]
    nested calls of it, each with the helpers it calls.  A call for
    which there is no room raises [RecursionError], as CPython does at
    its recursion limit; raised by the call for the parent, it is caught
    by [except Exception] like any other failure of that call. *)
Fixpoint resolve_limited (frames : nat) (root : path) (page_id : json)
  (_stack : gset key) (m : t) : result path * t :=
  match frames with
  | O => (Raise RecursionError, m)
  | S frames' =>
      match hash_key page_id with
      | Raise e => (Raise e, m)
      | Ok k =>
          match cached m root k with
          | Some p => (Ok p, m)
          | None =>
              if decide (k ∈ _stack) then
                remember k
                  (page ← _ensure_page m page_id;
                   file ← _page_file_name page;
                   Ok (joinpath (joinpath root "_cycles") file)) m
              else
                let _stack := {[k]} ∪ _stack in
                match (page ← _ensure_page m page_id;
                       parent ← or_empty_dict (dict_get page "parent");
                       Ok (page, parent)) with
                | Raise e => (Raise e, m)
                | Ok (page, parent) =>
                    let parent_type := dict_get parent "type" in
                    if is_str parent_type "workspace" then
                      remember k
                        (file ← _page_file_name page;
                         Ok (joinpath (joinpath root "_workspace") file)) m
                    else if is_str parent_type "database_id" then
                      remember k
                        (folder ← _database_folder_path m
                                    (dict_get parent "database_id") root;
                         file ← _page_file_name page;
                         Ok (joinpath folder file)) m
                    else if is_str parent_type "page_id" then
                      let (r, m') :=
                        resolve_limited frames' root (dict_get parent "page_id")
                          _stack m in
                      remember k
                        (try_except
                           (parent_path ← r;
                            parent_dir ← with_suffix_empty parent_path;
                            file ← _page_file_name page;
                            Ok (joinpath parent_dir file))
                           (fun _ =>
                              file ← _page_file_name page;
                              Ok (joinpath (joinpath root "_orphans") file)))
                        m'
                    else
                      remember k
                        (file ← _page_file_name page;
                         Ok (joinpath (joinpath root "_other") file)) m
                end
          end
      end
  end.

(** The recursion only continues through pages of the cache, each at
    most once, so one more than their number is depth enough. *)
Definition resolve_fuel (m : t) : nat := S (size (_page_cache m)).

Definition _page_output_path (m : t) (page_id : json) (root : path)
  : option (result path * t) :=
  resolve (resolve_fuel m) root page_id ∅ m.

(** [_page_output_path(page_id, root=root)] with room for [frames]
    nested calls. *)
Definition _page_output_path_limited (frames : nat) (m : t) (page_id : json)
  (root : path) : result path * t :=
  resolve_limited frames root page_id ∅ m.

(** *** The remote workspace, as the client serves it

    Each field is the outcome of one client call ([_request] with its
    retries included).  The block renderer and the property lines of a
    page are collaborators of the mirror and are taken as given: the
    renderer returns its lines, or raises, together with the entries it
    added to [_inaccessible_blocks]. *)

Record remote := {
  search : string → result (list json);
  get_page : string → result jobj;
  get_database : string → result jobj;
  query_database : string → result (list json);
  list_block_children : json → result (list json);
  _render_blocks_async :
    list json → json → result (list string) * list (json * json * string);
  _page_properties_md : jobj → result (list string);
  (** [_now_utc_iso()], one reading for the run *)
  _now_utc_iso : string
}.

(** *** The state of a run: the mirror object and the disk *)

Record world := {
  self : t;
  files : gmap path node;
  (** every change made to the disk, oldest first *)
  trace : list fs_event
}.

Definition M (A : Type) : Type := world → result A * world.

#[global] Instance M_ret : MRet M := fun A a w => (Ok a, w).
#[global] Instance M_bind : MBind M :=
  fun A B f c w =>
    match c w with
    | (Ok a, w') => f a w'
    | (Raise e, w') => (Raise e, w')
    end.

(** A pure computation that may raise. *)
Definition lift {A} (r : result A) : M A := fun w => (r, w).

(** A computation on the mirror object alone. *)
Definition on_self {A} (c : t → result A * t) : M A := fun w =>
  let (r, m) := c (self w) in
  (r, {| self := m; files := files w; trace := trace w |}).

Definition get_self : M t := fun w => (Ok (self w), w).

Definition get_files : M (gmap path node) := fun w => (Ok (files w), w).

(** A file-system call. *)
Definition fs (call : fs_call) : M unit := fun w =>
  match call (files w) with
  | Ok (f, evs) => (Ok (), {| self := self w; files := f; trace := trace w ++ evs |})
  | Raise e => (Raise e, w)
  end.

(** [try: c except Exception as e: handler e] *)
Definition try_M {A} (c : M A) (handler : exn → M A) : M A := fun w =>
  match c w with
  | (Ok a, w') => (Ok a, w')
  | (Raise e, w') => handler e w'
  end.

(** [for x in l: body x] *)
Fixpoint for_each {A} (l : list A) (body : A → M unit) : M unit :=
  match l with
  | [] => mret ()
  | x :: l' => _ ← body x; for_each l' body
  end.

(** [_page_output_path] as a step of the run, for a run whose chains of
    page parents stay within the recursion limit of the interpreter.
    The depth [resolve_fuel] always suffices (see the theorem on the
    depth of [resolve]), so the second branch is not taken. *)
Definition page_output_path (page_id : json) (root : path) : M path :=
  on_self (fun m =>
    match _page_output_path m page_id root with
    | Some rm => rm
    | None => (Raise RecursionError, m)
    end).

(** [_cleanup_empty_dirs]: [rcur] is [cur] with its last component
    first.  At [/] the loop always stops: [rmdir] fails there. *)
Fixpoint cleanup_loop (rcur : list string) (root : path) : M unit :=
  match rcur with
  | [] => mret ()
  | _ :: rparent =>
      let cur := rev rcur in
      f ← get_files;
      if bool_decide (cur ≠ root) && fs_exists f cur then
        removed ← try_M (_ ← fs (rmdir cur); mret true)
                        (fun e => if is_OSError e then mret false else lift (Raise e));
        if removed : bool then cleanup_loop rparent root else mret ()
      else mret ()
  end.

Definition _cleanup_empty_dirs (start_dir : path) (root : path) : M unit :=
  cleanup_loop (rev start_dir) root.

(** [root / Path(s)] for a value [s] read from the index. *)
Definition under (root : path) (s : json) : result path :=
  match s with
  | JStr s => Ok (joinpath root s)
  | _ => Raise TypeError
  end.

(** [d.get(k, default)] *)
Definition dict_get_default (d : jobj) (k : string) (default : json) : json :=
  if dict_mem d k then dict_get d k else default.

(** The part of [handle] under [if incremental and prev is not None]
    (the text is the same for pages and databases): [true] when the
    object is up to date and nothing is to be written; otherwise the
    file at the old path, when the path changed and the file is there,
    is removed and its directories pruned. *)
Definition check_previous (root : path) (prev_all : json) (id : string)
  (last_edited : json) (rel_path : string) (dest : path) : M bool :=
  prev_all ← lift (as_dict prev_all);
  prev ← lift (as_dict (dict_get_default prev_all id (JObj [])));
  f ← get_files;
  if py_eq (dict_get prev "last_edited_time") last_edited
     && py_eq (dict_get prev "path") (JStr rel_path)
     && fs_exists f dest
  then mret true
  else
    let old_path := dict_get prev "path" in
    _ ← (if truthy old_path && negb (py_eq old_path (JStr rel_path)) then
           old_abs ← lift (under root old_path);
           f ← get_files;
           if fs_exists f old_abs then
             _ ← fs (unlink old_abs);
             _cleanup_empty_dirs (parent old_abs) root
           else mret ()
         else mret ());
    mret false.

Definition is_none (v : json) : bool :=
  match v with JNull => true | _ => false end.

(** ["\n".join(lines)] *)
Definition join_lines (lines : list string) : string :=
  String.concat (String "010"%char "") lines.

(** What a task adds to [results]: the id, its index entry, and 1 when
    the file was written. *)
Abbreviation outcome := (string * jobj * nat)%type.

Section run.

Variable client : remote.

Definition _populate_caches (pages dbs : list json) : M unit :=
  _ ← for_each pages (fun p =>
        p ← lift (as_dict p);
        let pid := dict_get p "id" in
        if truthy pid then
          match pid with
          | JStr pid =>
              on_self (fun m => (Ok (), set_page_cache (<[pid := p]> (_page_cache m)) m))
          | _ => lift (Raise TypeError)
          end
        else mret ());
  for_each dbs (fun d =>
    d ← lift (as_dict d);
    let did := dict_get d "id" in
    if truthy did then
      match did with
      | JStr did =>
          on_self (fun m => (Ok (), set_db_cache (<[did := d]> (_db_cache m)) m))
      | _ => lift (Raise TypeError)
      end
    else mret ()).

(** [list(cache.keys())]: the ids of a cache. *)
Definition keys_of (c : gmap string jobj) : list string :=
  List.map fst (map_to_list c).

(** [fetch(pid)] of [_prefetch_pages]: the page is fetched and stored
    under its id; an exception of the fetch is passed over. *)
Definition fetch_page (pid : string) : M unit :=
  try_M (page ← lift (get_page client pid);
         on_self (fun m =>
           (Ok (), set_page_cache (<[pid := page]> (_page_cache m)) m)))
        (fun _ => mret ()).

(** [asyncio.gather] over the ids that the cache holds when it is
    called, the tasks taken one after the other: each task changes the
    entry of its own id only. *)
Definition _prefetch_pages : M unit :=
  m ← get_self;
  for_each (keys_of (_page_cache m)) fetch_page.

(** [fetch(did)] of [_prefetch_databases]. *)
Definition fetch_database (did : string) : M unit :=
  try_M (db ← lift (get_database client did);
         on_self (fun m =>
           (Ok (), set_db_cache (<[did := db]> (_db_cache m)) m)))
        (fun _ => mret ()).

Definition _prefetch_databases : M unit :=
  m ← get_self;
  for_each (keys_of (_db_cache m)) fetch_database.

Definition _write_page_markdown_async (dest : path) (page : jobj) : M unit :=
  let page_id := py_or (dict_get page "id") (JStr "") in
  title ← lift (page_title page);
  let url := py_or (dict_get page "url") (JStr "") in
  let last_edited_time := py_or (dict_get page "last_edited_time") (JStr "") in
  let lines :=
    ["---";
     "id: " +:+ py_str page_id;
     "url: " +:+ py_str url;
     "last_edited_time: " +:+ py_str last_edited_time;
     "mirror_generated_at: " +:+ _now_utc_iso client;
     "---";
     "";
     "# " +:+ title;
     ""] in
  props_lines ← lift (_page_properties_md client page);
  let lines :=
    match props_lines with
    | [] => lines
    | _ => lines ++ ["## Properties"] ++ props_lines ++ [""]
    end in
  let lines := lines ++ ["## Content"; ""] in
  content ← try_M
    (blocks ← lift (list_block_children client page_id);
     let (rendered, inaccessible) := _render_blocks_async client blocks page_id in
     _ ← on_self (fun m =>
           (Ok (), set_inaccessible_blocks (_inaccessible_blocks m ++ inaccessible) m));
     lift rendered)
    (fun e =>
       _ ← on_self (fun m =>
             (Ok (), set_inaccessible_blocks
                       (_inaccessible_blocks m ++ [(page_id, page_id, exn_str e)]) m));
       mret ["- (content not accessible; check access report)"]);
  let lines := lines ++ content ++ [""] in
  fs (write_text dest (Text (join_lines lines))).

(** The loop over the entries of a database in
    [_write_database_index_async]; it returns the lines it adds. *)
Fixpoint entry_lines (dest : path) (pages : list json) : M (list string) :=
  match pages with
  | [] => mret []
  | p :: pages' =>
      p ← lift (as_dict p);
      let pid := dict_get p "id" in
      if negb (truthy pid) then entry_lines dest pages'
      else
        _ ← (match pid with
             | JStr s =>
                 on_self (fun m =>
                   (Ok (), match _page_cache m !! s with
                           | Some _ => m
                           | None => set_page_cache (<[s := p]> (_page_cache m)) m
                           end))
             | _ => lift (Raise TypeError)
             end);
        p_title ← lift (page_title p);
        out_path ← page_output_path pid (parent (parent dest));
        rel ← lift (relative_to out_path (parent dest));
        rest ← entry_lines dest pages';
        mret (("- [" +:+ p_title +:+ "](" +:+ as_posix rel +:+ ")") :: rest)
  end.

Definition _write_database_index_async (dest : path) (db : jobj) (database_id : string)
  : M unit :=
  title ← lift (database_title db);
  let url := py_or (dict_get db "url") (JStr "") in
  let lines :=
    ["---";
     "id: " +:+ database_id;
     "url: " +:+ py_str url;
     "mirror_generated_at: " +:+ _now_utc_iso client;
     "---";
     "";
     "# " +:+ title;
     ""] in
  let pages := match query_database client database_id with
               | Ok pages => pages
               | Raise _ => []
               end in
  entries ← match pages with
            | [] => mret ["## Entries"; ""; "- (no access or empty)"]
            | _ => ls ← entry_lines dest pages; mret (["## Entries"; ""] ++ ls)
            end;
  let lines := lines ++ entries ++ [""] in
  fs (write_text dest (Text (join_lines lines))).


Definition index_entry (last_edited : json) (rel_path : string) : jobj :=
  [("last_edited_time", last_edited); ("path", JStr rel_path)].

(** [handle(pid)] of [_write_pages_async]; [None] when nothing is added
    to [results] (an archived page).  The progress counter, which is only
    printed, is left out. *)
Definition handle_page (root : path) (incremental : bool) (prev_pages : json)
  (pid : string) : M (option outcome) :=
  page ← (m ← get_self; lift (_ensure_page m (JStr pid)));
  if truthy (dict_get page "archived") then mret None
  else
    dest ← page_output_path (JStr pid) root;
    _ ← fs (mkdir_p (parent dest));
    let last_edited := py_or (dict_get page "last_edited_time") (JStr "") in
    rel ← lift (relative_to dest root);
    let rel_path := as_posix rel in
    up_to_date ← (if incremental && negb (is_none prev_pages)
                  then check_previous root prev_pages pid last_edited rel_path dest
                  else mret false);
    if up_to_date : bool then mret (Some (pid, index_entry last_edited rel_path, 0%nat))
    else
      _ ← _write_page_markdown_async dest page;
      mret (Some (pid, index_entry last_edited rel_path, 1%nat)).

(** [handle(did)] of [_write_databases_async]. *)
Definition handle_database (root : path) (incremental : bool) (prev_dbs : json)
  (did : string) : M (option outcome) :=
  db ← (m ← get_self; lift (_ensure_database m (JStr did)));
  if truthy (dict_get db "archived") then mret None
  else
    folder ← (m ← get_self; lift (_database_folder_path m (JStr did) root));
    _ ← fs (mkdir_p folder);
    let dest := joinpath folder "__database.md" in
    let last_edited := py_or (dict_get db "last_edited_time") (JStr "") in
    rel ← lift (relative_to dest root);
    let rel_path := as_posix rel in
    up_to_date ← (if incremental && negb (is_none prev_dbs)
                  then check_previous root prev_dbs did last_edited rel_path dest
                  else mret false);
    if up_to_date : bool then mret (Some (did, index_entry last_edited rel_path, 0%nat))
    else
      _ ← _write_database_index_async dest db did;
      mret (Some (did, index_entry last_edited rel_path, 1%nat)).

(** [asyncio.gather] over the tasks, one after the other in the order of
    their creation (the schedule of [NOTION_PAGE_CONCURRENCY=1]): the
    outcomes in order; the first exception ends the phase. *)
Fixpoint gather (handle : string → M (option outcome)) (ids : list string)
  : M (list outcome) :=
  match ids with
  | [] => mret []
  | id :: ids' =>
      o ← handle id;
      rest ← gather handle ids';
      mret (match o with Some o => o :: rest | None => rest end)
  end.

(** [sorted(cache.keys())] *)
Definition sorted_keys (c : gmap string jobj) : list string :=
  merge_sort String.leb (List.map fst (map_to_list c)).

(** [{id: meta for id, meta, _ in results}] *)
Definition index_of (results : list outcome) : jobj :=
  foldl (fun d o => dict_set d (fst (fst o)) (JObj (snd (fst o)))) [] results.

(** [sum(count for _, _, count in results)] *)
Definition written_of (results : list outcome) : nat :=
  foldr (fun o n => (snd o + n)%nat) 0%nat results.

Definition _write_pages_async (root : path) (incremental : bool) (prev_pages : json)
  : M (nat * jobj) :=
  m ← get_self;
  let page_ids := sorted_keys (_page_cache m) in
  results ← gather (handle_page root incremental prev_pages) page_ids;
  mret (written_of results, index_of results).

Definition _write_databases_async (root : path) (incremental : bool) (prev_dbs : json)
  : M (nat * jobj) :=
  m ← get_self;
  let db_ids := sorted_keys (_db_cache m) in
  results ← gather (handle_database root incremental prev_dbs) db_ids;
  mret (written_of results, index_of results).

Definition _cleanup_removed (prev_index : json) (new_index : jobj) : M unit :=
  m ← get_self;
  items ← lift (as_dict prev_index);
  for_each items (fun item =>
    let (item_id, meta) := item : string * json in
    if negb (dict_mem new_index item_id) then
      meta ← lift (as_dict meta);
      let old_path := dict_get meta "path" in
      if truthy old_path then
        old_abs ← lift (under (output_dir m) old_path);
        f ← get_files;
        if fs_exists f old_abs then
          _ ← fs (unlink old_abs);
          _cleanup_empty_dirs (parent old_abs) (output_dir m)
        else mret ()
      else mret ()
    else mret ()).

Definition _atomic_replace (tmp_dir final_dir : path) : M unit :=
  f ← get_files;
  _ ← (if fs_exists f final_dir then fs (rmtree_ignore_errors final_dir) else mret ());
  fs (replace tmp_dir final_dir).

Definition _write_root_index_async (root : path) (pages dbs : list json) : M unit :=
  let lines :=
    ["# Notion Mirror";
     "";
     "- Generated: " +:+ _now_utc_iso client;
     "- Pages: " +:+ pretty (length pages);
     "- Databases: " +:+ pretty (length dbs);
     "";
     "## Top-level folders";
     "";
     "- `_workspace/` workspace pages";
     "- `DB_*` databases";
     "- `_orphans/` missing parents";
     "- `_other/` unknown parent types";
     ""] in
  fs (write_text (joinpath root "index.md") (Text (join_lines lines))).

(** The three lines of the report for one entry of
    [_inaccessible_blocks]. *)
Definition report_lines (m : t) (entry : json * json * string) : result (list string) :=
  let '(page_id, block_id, err) := entry in
  found ← cache_get (_page_cache m) page_id;
  let page := or_placeholder found [] in
  raw ← page_title page;
  let title := safe_name raw "page" in
  Ok ["- page: " +:+ title +:+ " (" +:+ py_str page_id +:+ ")";
      "  block: " +:+ py_str block_id;
      "  error: " +:+ err].

Fixpoint report_body (m : t) (entries : list (json * json * string))
  : result (list string) :=
  match entries with
  | [] => Ok []
  | e :: entries' =>
      ls ← report_lines m e;
      rest ← report_body m entries';
      Ok (ls ++ rest)
  end.

Definition _write_access_report_async (root : path) : M unit :=
  m ← get_self;
  match _inaccessible_blocks m with
  | [] => mret ()
  | entries =>
      body ← lift (report_body m entries);
      let lines :=
        ["Notion access report";
         "Generated: " +:+ _now_utc_iso client;
         "";
         "Blocks not accessible (likely not shared with integration):";
         ""] ++ body in
      fs (write_text (joinpath root "access_issues.txt") (Text (join_lines lines)))
  end.

Definition empty_index : json :=
  JObj [("pages", JObj []); ("databases", JObj [])].

Definition _index_path (m : t) : path :=
  joinpath (output_dir m) ".mirror_index.json".

(** A missing file, a directory, or a file that is no JSON document all
    give the empty index.  A file of the model holds the JSON value
    itself ([Json v]); the text that [json.dumps] writes and [json.loads]
    parses is not modelled. *)
Definition _load_index : M json :=
  m ← get_self;
  f ← get_files;
  mret (match f !! _index_path m with
        | Some (File (Json v)) => v
        | _ => empty_index
        end).

Definition _save_index_to_async (root : path) (pages_index dbs_index : jobj) : M unit :=
  let payload :=
    JObj [("generated_at", JStr (_now_utc_iso client));
          ("pages", JObj pages_index);
          ("databases", JObj dbs_index)] in
  fs (write_text (joinpath root ".mirror_index.json") (Json payload)).

Definition _save_index_async (pages_index dbs_index : jobj) : M unit :=
  m ← get_self;
  _save_index_to_async (output_dir m) pages_index dbs_index.

Record MirrorResult := {
  local_dir : path;
  pages_written : nat;
  databases_written : nat
}.

(** The steps of [_build_full_async] up to and including the saving of
    the index into the temporary directory. *)
Definition write_phase_full (tmp_dir : path) : M (nat * nat) :=
  f ← get_files;
  _ ← (if fs_exists f tmp_dir then fs (rmtree_ignore_errors tmp_dir) else mret ());
  _ ← fs (mkdir_p tmp_dir);
  pages ← lift (search client "page");
  dbs ← lift (search client "database");
  _ ← _populate_caches pages dbs;
  _ ← _prefetch_databases;
  _ ← _prefetch_pages;
  '(pages_written, pages_index) ← _write_pages_async tmp_dir false JNull;
  '(databases_written, dbs_index) ← _write_databases_async tmp_dir false JNull;
  _ ← _write_root_index_async tmp_dir pages dbs;
  _ ← _write_access_report_async tmp_dir;
  _ ← _save_index_to_async tmp_dir pages_index dbs_index;
  mret (pages_written, databases_written).

Definition tmp_dir_of (m : t) : result path :=
  with_name (output_dir m) (name (output_dir m) +:+ ".tmp").

Definition _build_full_async : M MirrorResult :=
  m ← get_self;
  tmp_dir ← lift (tmp_dir_of m);
  '(pages_written, databases_written) ← write_phase_full tmp_dir;
  _ ← _atomic_replace tmp_dir (output_dir m);
  mret {| local_dir := output_dir m;
          pages_written := pages_written;
          databases_written := databases_written |}.

Definition _build_incremental_async : M MirrorResult :=
  m ← get_self;
  _ ← fs (mkdir_p (output_dir m));
  pages ← lift (search client "page");
  dbs ← lift (search client "database");
  _ ← _populate_caches pages dbs;
  _ ← _prefetch_databases;
  _ ← _prefetch_pages;
  index ← _load_index;
  index ← lift (as_dict index);
  let prev_pages := dict_get_default index "pages" (JObj []) in
  let prev_dbs := dict_get_default index "databases" (JObj []) in
  '(pages_written, pages_index) ← _write_pages_async (output_dir m) true prev_pages;
  _ ← _cleanup_removed prev_pages pages_index;
  '(databases_written, dbs_index) ← _write_databases_async (output_dir m) true prev_dbs;
  _ ← _cleanup_removed prev_dbs dbs_index;
  _ ← _write_root_index_async (output_dir m) pages dbs;
  _ ← _write_access_report_async (output_dir m);
  _ ← _save_index_async pages_index dbs_index;
  mret {| local_dir := output_dir m;
          pages_written := pages_written;
          databases_written := databases_written |}.

Definition build_async (incremental : bool) : M MirrorResult :=
  if incremental then _build_incremental_async else _build_full_async.

End run.

(** A run of the program on a disk: a fresh mirror object for
    [output_dir], as [sync_notion_to_gdrive.py] makes one per run. *)
Definition start (output_dir : path) (f : gmap path node) : world :=
  {| self := __init__ output_dir; files := f; trace := [] |}.

Definition build (client : remote) (output_dir : path) (incremental : bool)
  (f : gmap path node) : result MirrorResult * world :=
  build_async client incremental (start output_dir f).

End NotionMirror.

(** * The statements of the specification

    Definitions that follow the words of the specification, against
    which the definitions above are compared. *)

(** ** The retry policy *)

(** The retry-after hint of a response, when the server gave one that
    reads as a number. *)
Definition retry_hint (float : string → option Q)
  (resp : AsyncNotionClient.response) : option Q :=
  match AsyncNotionClient.retry_after resp with
  | Some s => if String.eqb s "" then None else float s
  | None => None
  end.

(** The waits the specification asks for, given the hints of the
    responses that are retried: the first is [base] (1 time unit at the
    start), each next one is the double of the last wait, capped at 30,
    and a hint is a floor for the wait it comes with. *)
Fixpoint spec_waits (base : Q) (hints : list (option Q)) : list Q :=
  match hints with
  | [] => []
  | h :: hints' =>
      let wait := match h with Some x => Qmax base x | None => base end in
      wait :: spec_waits (Qmin (2 * wait) 30) hints'
  end.

(** The responses that were answered by a sleep. *)
Definition retried (evs : list AsyncNotionClient.event) : list AsyncNotionClient.response :=
  List.filter AsyncNotionClient.is_retry_status (AsyncNotionClient.responses evs).

(** [n] waits without hints, the first one [base]. *)
Fixpoint plain_waits (base : Q) (n : nat) : list Q :=
  match n with
  | O => []
  | S n' => base :: plain_waits (Qmin (base * 2) 30) n'
  end.

(** ** The rate limit *)

(** The instant, in seconds, that a reading of the clock stands for:
    the number [(-1)^s * m * 2^e] that the double denotes (and 0 for an
    infinity or a NaN, which the clock never returns). *)
Definition seconds (x : spec_float) : Q :=
  match x with
  | S754_finite s m e => (if s then -1 else 1) * inject_Z (Z.pos m) * 2 ^ e
  | _ => 0
  end.

(** The clock is monotonic. *)
Definition not_later (x y : spec_float) : Prop := (seconds x <= seconds y)%Q.

(** The acquisitions that completed within the 1-second window that
    starts at [a], i.e. at an instant [g] with [a <= g < a + 1]. *)
Definition in_second_from (a : Q) (g : spec_float) : bool :=
  Qle_bool a (seconds g) && negb (Qle_bool (a + 1) (seconds g)).

Definition acquisitions_from (a : Q) (grants : list spec_float) : nat :=
  length (List.filter (in_second_from a) grants).

(** At [now], the acquisition made at [g] is less than a second old. *)
Definition young (now g : spec_float) : bool :=
  negb (Qle_bool 1 (seconds now - seconds g)).

(** The limiter's test at [now] lets go of the acquisition made at [g]
    only when it is a full second old.  In exact arithmetic this is what
    [now - t < 1.0] says; in doubles the difference is rounded first. *)
Definition due_drop (now g : spec_float) : bool :=
  AsyncRateLimiter.in_window now g || Qle_bool 1 (seconds now - seconds g).

(** No reading of a run drops an acquisition of the run too early. *)
Definition drops_are_due (nows : list spec_float) : bool :=
  forallb (fun now => forallb (due_drop now) nows) nows.

(** The limiter still remembers, at each of the readings to come, the
    past acquisitions that are less than a second old then. *)
Definition remembers (l : AsyncRateLimiter.t) (past later : list spec_float) : Prop :=
  ∀ n, In n later →
    List.filter (young n) past `sublist_of` AsyncRateLimiter._timestamps l.

(** Every acquisition, counted with those before it that are less than
    a second old, stays within the burst. *)
Definition paced (burst : Z) (past grants : list spec_float) : Prop :=
  ∀ gs1 g gs2, grants = gs1 ++ g :: gs2 →
    (Z.of_nat (length (List.filter (young g) (past ++ gs1 ++ [g]))) ≤ burst)%Z.

(** The doubles [2^-60], [0.5], [1.5] and [2.5]. *)
Definition float_tiny : spec_float := S754_finite false 4503599627370496 (-112).
Definition float_0_5 : spec_float := S754_finite false 4503599627370496 (-53).
Definition float_1_5 : spec_float := S754_finite false 6755399441055744 (-52).
Definition float_2_5 : spec_float := S754_finite false 5629499534213120 (-51).

(** Ten passes: four at 0, one at 0.5, four at 1 and one at 1.5. *)
Definition sample_readings : list spec_float :=
  [S754_zero false; S754_zero false; S754_zero false; S754_zero false;
   float_0_5; AsyncRateLimiter.float_1; AsyncRateLimiter.float_1;
   AsyncRateLimiter.float_1; AsyncRateLimiter.float_1; float_1_5].

(** Four passes: three at [2^-60] and one at 1. *)
Definition close_readings : list spec_float :=
  [float_tiny; float_tiny; float_tiny; AsyncRateLimiter.float_1].

(** ** Path resolution *)

(** The pages of the cache that are not on the resolution stack. *)
Definition unvisited (m : NotionMirror.t) (stack : gset NotionMirror.key) : gset string :=
  filter (fun s => NotionMirror.KStr s ∉ stack) (dom (NotionMirror._page_cache m)).

(** Two states of the mirror object that differ at most in the memo of
    paths. *)
Definition same_caches (m m' : NotionMirror.t) : Prop :=
  NotionMirror.output_dir m' = NotionMirror.output_dir m
  ∧ NotionMirror._page_cache m' = NotionMirror._page_cache m
  ∧ NotionMirror._db_cache m' = NotionMirror._db_cache m
  ∧ NotionMirror._inaccessible_blocks m' = NotionMirror._inaccessible_blocks m.

(** The placeholders that stand for an id that is in no cache. *)
Definition placeholder_page (id : json) : jobj :=
  [("id", id); ("object", JStr "page"); ("properties", JObj [])].

Definition placeholder_database (id : json) : jobj :=
  [("id", id); ("object", JStr "database"); ("title", JArr [])].

(** The id suffix of a name: the first 8 characters of the id without
    its dashes, ["unknown"] when nothing is left. *)
Definition id_suffix (id : string) : string :=
  str_or (str_of (take 8 (remove_dashes (chars id)))) "unknown".

(** Page [id] of the cache names page [parent_id] as its parent. *)
Definition has_page_parent (m : NotionMirror.t) (id : string) (parent_id : json) : Prop :=
  ∃ page parent,
    NotionMirror._page_cache m !! id = Some page
    ∧ page ≠ []
    ∧ or_empty_dict (dict_get page "parent") = Ok parent
    ∧ dict_get parent "type" = JStr "page_id"
    ∧ dict_get parent "page_id" = parent_id
    ∧ is_ok (NotionMirror._page_file_name page) = true.

(** The pages [ids], in this order, each name the next one as parent,
    and the last one names [last_parent]. *)
Fixpoint parent_chain (m : NotionMirror.t) (ids : list string) (last_parent : string)
  : Prop :=
  match ids with
  | [] => True
  | x :: rest =>
      has_page_parent m x (JStr (hd last_parent rest)) ∧ parent_chain m rest last_parent
  end.

(** A cycle of parent references: distinct pages, the last of which
    names the first as its parent. *)
Definition parent_cycle (m : NotionMirror.t) (ids : list string) : Prop :=
  NoDup ids
  ∧ match ids with
    | [] => False
    | first :: _ => parent_chain m ids first
    end.

(** At or below the [_cycles] bucket of the mirror root. *)
Definition in_cycles_bucket (root p : path) : Prop :=
  (root ++ ["_cycles"]) `prefix_of` p.

(** A page of the cache whose own file name can be built. *)
Definition named (m : NotionMirror.t) (z : string) : Prop :=
  ∃ page, NotionMirror._ensure_page m (JStr z) = Ok page ∧ is_ok (NotionMirror._page_file_name page) = true.


(** ** The concrete scenario: one database with one page *)

(** The paths written to, the paths unlinked, and the directories
    removed, in a trace. *)
Definition written_paths (evs : list fs_event) : list path :=
  omap (fun e => match e with Write p _ => Some p | _ => None end) evs.

Definition deleted_paths (evs : list fs_event) : list path :=
  omap (fun e => match e with
                 | Unlink p | Rmdir p | Rmtree p => Some p
                 | _ => None
                 end) evs.

(** The text of the file at [p], when there is one. *)
Definition file_text (f : gmap path node) (p : path) : option string :=
  match f !! p with
  | Some (File (Text s)) => Some s
  | _ => None
  end.

(** The entry of page [id] in the index saved under [root]. *)
Definition saved_page_entry (f : gmap path node) (root : path) (id : string) : json :=
  match f !! joinpath root ".mirror_index.json" with
  | Some (File (Json (JObj index))) =>
      match dict_get index "pages" with
      | JObj pages => dict_get pages id
      | _ => JNull
      end
  | _ => JNull
  end.

Definition title_property (title : string) : json :=
  JObj [("Name", JObj [("type", JStr "title");
                       ("title", JArr [JObj [("plain_text", JStr title)]])])].

(** Page P: id [p1], title "Buy milk", in database [d1]. *)
Definition scenario_page (last_changed : string) : jobj :=
  [("object", JStr "page");
   ("id", JStr "p1");
   ("parent", JObj [("type", JStr "database_id"); ("database_id", JStr "d1")]);
   ("last_edited_time", JStr last_changed);
   ("properties", title_property "Buy milk")].

(** Database D: id [d1], title "Tasks". *)
Definition scenario_database : jobj :=
  [("object", JStr "database");
   ("id", JStr "d1");
   ("title", JArr [JObj [("plain_text", JStr "Tasks")]]);
   ("last_edited_time", JStr "t0")].

(** The workspace that holds D and P, the page without content. *)
Definition scenario (last_changed : string) : NotionMirror.remote :=
  {| NotionMirror.search := fun kind =>
       if String.eqb kind "page" then Ok [JObj (scenario_page last_changed)]
       else Ok [JObj scenario_database];
     NotionMirror.get_page := fun _ => Ok (scenario_page last_changed);
     NotionMirror.get_database := fun _ => Ok scenario_database;
     NotionMirror.query_database := fun _ => Ok [JObj (scenario_page last_changed)];
     NotionMirror.list_block_children := fun _ => Ok [];
     NotionMirror._render_blocks_async := fun _ _ => (Ok [], []);
     NotionMirror._page_properties_md := fun _ => Ok [];
     NotionMirror._now_utc_iso := "2026-01-01T00:00:00Z" |}.

Definition mirror_dir : path := ["notion_mirror"].

(** The full rebuild on an empty disk, then an incremental run with P
    unchanged, then one with P changed to [t2]. *)
Definition scenario_run1 : result NotionMirror.MirrorResult * NotionMirror.world :=
  NotionMirror.build (scenario "t1") mirror_dir false ∅.

Definition scenario_run2 : result NotionMirror.MirrorResult * NotionMirror.world :=
  NotionMirror.build (scenario "t1") mirror_dir true (NotionMirror.files scenario_run1.2).

Definition scenario_run3 : result NotionMirror.MirrorResult * NotionMirror.world :=
  NotionMirror.build (scenario "t2") mirror_dir true (NotionMirror.files scenario_run2.2).

(** ** Soft failures of the write phase *)

(** The world after the given entries were added to
    [_inaccessible_blocks]. *)
Definition add_inaccessible (entries : list (json * json * string))
  (w : NotionMirror.world) : NotionMirror.world :=
  {| NotionMirror.self :=
       NotionMirror.set_inaccessible_blocks
         (NotionMirror._inaccessible_blocks (NotionMirror.self w) ++ entries)
         (NotionMirror.self w);
     NotionMirror.files := NotionMirror.files w;
     NotionMirror.trace := NotionMirror.trace w |}.

(** Reading the blocks of a page fails with [e]: the listing raises, or
    the renderer does, after adding [recorded] to the report. *)
Definition content_fails (client : NotionMirror.remote) (page_id : json)
  (recorded : list (json * json * string)) (e : exn) : Prop :=
  NotionMirror.list_block_children client page_id = Raise e ∧ recorded = []
  ∨ ∃ blocks,
      NotionMirror.list_block_children client page_id = Ok blocks
      ∧ NotionMirror._render_blocks_async client blocks page_id = (Raise e, recorded).

(** The workspace of the scenario, with the blocks of P not shared with
    the integration. *)
Definition scenario_unreadable : NotionMirror.remote :=
  {| NotionMirror.search := NotionMirror.search (scenario "t1");
     NotionMirror.get_page := NotionMirror.get_page (scenario "t1");
     NotionMirror.get_database := NotionMirror.get_database (scenario "t1");
     NotionMirror.query_database := NotionMirror.query_database (scenario "t1");
     NotionMirror.list_block_children := fun _ =>
       Raise (NotionError "Notion API error 404: object_not_found");
     NotionMirror._render_blocks_async := fun _ _ => (Ok [], []);
     NotionMirror._page_properties_md := fun _ => Ok [];
     NotionMirror._now_utc_iso := "2026-01-01T00:00:00Z" |}.

Definition unreadable_run : result NotionMirror.MirrorResult * NotionMirror.world :=
  NotionMirror.build scenario_unreadable mirror_dir true ∅.

(** A mirror directory in which [_workspace] is a regular file, and a
    workspace with one top-level page: the page file cannot be written. *)
Definition blocked_disk : gmap path node :=
  <[mirror_dir ++ ["_workspace"] := File (Text "")]> (<[mirror_dir := Dir]> ∅).

Definition top_page (id : string) : jobj :=
  [("object", JStr "page");
   ("id", JStr id);
   ("parent", JObj [("type", JStr "workspace")]);
   ("last_edited_time", JStr "t1");
   ("properties", title_property "Notes")].

Definition two_top_pages : NotionMirror.remote :=
  {| NotionMirror.search := fun kind =>
       if String.eqb kind "page" then Ok [JObj (top_page "a1"); JObj (top_page "b2")]
       else Ok [];
     NotionMirror.get_page := fun id => Ok (top_page id);
     NotionMirror.get_database := fun _ => Raise (NotionError "not found");
     NotionMirror.query_database := fun _ => Ok [];
     NotionMirror.list_block_children := fun _ => Ok [];
     NotionMirror._render_blocks_async := fun _ _ => (Ok [], []);
     NotionMirror._page_properties_md := fun _ => Ok [];
     NotionMirror._now_utc_iso := "2026-01-01T00:00:00Z" |}.

Definition blocked_run : result NotionMirror.MirrorResult * NotionMirror.world :=
  NotionMirror.build two_top_pages mirror_dir true blocked_disk.

(** ** What a run leaves unchanged *)

(** Two states of the mirror object with the same output directory and
    the same cached objects. *)
Definition same_objects (m m' : NotionMirror.t) : Prop :=
  NotionMirror.output_dir m' = NotionMirror.output_dir m
  ∧ NotionMirror._page_cache m' = NotionMirror._page_cache m
  ∧ NotionMirror._db_cache m' = NotionMirror._db_cache m.

(** A step of the run keeps the relation [R] between the world before
    and the world after, whether it returns or raises. *)
Definition keeps {A} (R : NotionMirror.world → NotionMirror.world → Prop)
  (c : NotionMirror.M A) : Prop :=
  ∀ w, R w (c w).2.

(** The page [pid] as the write phase sees it is not archived. *)
Definition live_page (m : NotionMirror.t) (pid : string) : Prop :=
  ∃ page, NotionMirror._ensure_page m (JStr pid) = Ok page
          ∧ truthy (dict_get page "archived") = false.

(** The cached objects and the output directory are the same in both
    worlds. *)
Definition objects_kept (w w' : NotionMirror.world) : Prop :=
  same_objects (NotionMirror.self w) (NotionMirror.self w').

(** Between the two worlds only entries were added to
    [_inaccessible_blocks]: the disk, its trace and the rest of the
    mirror object are the same. *)
Definition only_adds_issues (w w' : NotionMirror.world) : Prop :=
  ∃ entries, w' = add_inaccessible entries w.

(** ** Pruning of empty directories *)

(** [p] is a directory without entries ([/] is never counted). *)
Definition is_empty_dir (f : gmap path node) (p : path) : bool :=
  match p with
  | [] => false
  | _ => match f !! p with
         | Some Dir => Nat.eqb (size (children f p)) 0
         | _ => false
         end
  end.

(** Pruning upward from the directory whose components, the last one
    first, are [rcur]: [ds] are the directories removed, the deepest
    first, each one an empty directory at its turn and not [root];
    pruning stops at [root], or at the first path that is not an empty
    directory.  [f'] is the disk that is left. *)
Inductive pruning (root : path)
  : gmap path node → list string → list path → gmap path node → Prop :=
| pruning_stop f rcur :
    rev rcur = root ∨ is_empty_dir f (rev rcur) = false →
    pruning root f rcur [] f
| pruning_step f c rparent ds f' :
    rev (c :: rparent) ≠ root →
    is_empty_dir f (rev (c :: rparent)) = true →
    pruning root (delete (rev (c :: rparent)) f) rparent ds f' →
    pruning root f (c :: rparent) (rev (c :: rparent) :: ds) f'.

(** [p] is below [root], and not [root] itself. *)
Definition strictly_below (root p : path) : Prop :=
  root `prefix_of` p ∧ p ≠ root.

(** A mirror object that holds page P of the scenario, over a disk with
    the mirror directory. *)
Definition scenario_world : NotionMirror.world :=
  {| NotionMirror.self :=
       NotionMirror.set_page_cache {["p1" := scenario_page "t1"]}
         (NotionMirror.__init__ mirror_dir);
     NotionMirror.files := {[mirror_dir := Dir]};
     NotionMirror.trace := [] |}.

(** ** Reconciliation *)

(** The file that reconciliation has to delete for an entry of the
    previous index: the id of the entry is not in the new index, and the
    entry records a path. *)
Definition stale_file (root : path) (new_index : jobj) (item : string * json)
  : option path :=
  if dict_mem new_index item.1 then None
  else match item.2 with
       | JObj meta =>
           match dict_get meta "path" with
           | JStr s => if String.eqb s "" then None else Some (joinpath root s)
           | _ => None
           end
       | _ => None
       end.

(** What reconciliation with the entries [items] of the previous index
    has done between the worlds [w] and [w']. *)
Definition reconciled (root : path) (new_index : jobj) (items : jobj)
  (w w' : NotionMirror.world) : Prop :=
  NotionMirror.self w' = NotionMirror.self w
  ∧ ∃ evs,
      NotionMirror.trace w' = NotionMirror.trace w ++ evs
      (** files are unlinked, directories removed, nothing else *)
      ∧ (∀ e, e ∈ evs → ∃ p, e = Unlink p ∨ e = Rmdir p)
      (** only the recorded file of a removed id is unlinked *)
      ∧ (∀ p, Unlink p ∈ evs →
           ∃ item, item ∈ items ∧ stale_file root new_index item = Some p)
      (** the recorded file of every removed id is gone *)
      ∧ (∀ item p, item ∈ items → stale_file root new_index item = Some p →
           NotionMirror.files w' !! p = None
           ∧ (fs_is_file (NotionMirror.files w) p = true → Unlink p ∈ evs))
      (** a directory that is removed is not the root; it is above a
          deleted file, and had no entry left *)
      ∧ (∀ d, Rmdir d ∈ evs →
           d ≠ root
           ∧ NotionMirror.files w !! d = Some Dir
           ∧ (∀ x, x ≠ [] → parent x = d → NotionMirror.files w' !! x = None)
           ∧ ∃ p, Unlink p ∈ evs ∧ d `prefix_of` parent p
                  ∧ (strictly_below root p → strictly_below root d))
      (** everything else is as it was *)
      ∧ (∀ p, NotionMirror.files w' !! p = NotionMirror.files w !! p
              ∨ NotionMirror.files w' !! p = None
                ∧ (Unlink p ∈ evs ∨ Rmdir p ∈ evs))
      (** the directory of whatever was deleted is the root, or is not
          an empty directory *)
      ∧ (∀ p, Unlink p ∈ evs ∨ Rmdir p ∈ evs →
           parent p = root
           ∨ is_empty_dir (NotionMirror.files w') (parent p) = false).

(** The Index that is on the disk [f] for the mirror at [root]; the
    empty Index when there is none that can be read. *)
Definition stored_index (f : gmap path node) (root : path) : json :=
  match f !! joinpath root ".mirror_index.json" with
  | Some (File (Json v)) => v
  | _ => NotionMirror.empty_index
  end.

(** The entries of one kind in an Index. *)
Definition index_entries (index : json) (kind : string) : json :=
  match index with
  | JObj fields => NotionMirror.dict_get_default fields kind (JObj [])
  | _ => JNull
  end.

(** The output directory of the mirror object is the same in both
    worlds. *)
Definition dir_kept (w w' : NotionMirror.world) : Prop :=
  NotionMirror.output_dir (NotionMirror.self w')
  = NotionMirror.output_dir (NotionMirror.self w).

(** The output directory, the disk and its trace are the same in both
    worlds: only the caches of the mirror object may differ. *)
Definition disk_kept (w w' : NotionMirror.world) : Prop :=
  dir_kept w w'
  ∧ NotionMirror.files w' = NotionMirror.files w
  ∧ NotionMirror.trace w' = NotionMirror.trace w.

(** The workspace of the scenario after page P was deleted: database D
    is all that is left. *)
Definition scenario_page_deleted : NotionMirror.remote :=
  {| NotionMirror.search := fun kind =>
       if String.eqb kind "page" then Ok [] else Ok [JObj scenario_database];
     NotionMirror.get_page := fun _ => Raise (NotionError "Notion API error 404");
     NotionMirror.get_database := fun _ => Ok scenario_database;
     NotionMirror.query_database := fun _ => Ok [];
     NotionMirror.list_block_children := fun _ => Ok [];
     NotionMirror._render_blocks_async := fun _ _ => (Ok [], []);
     NotionMirror._page_properties_md := fun _ => Ok [];
     NotionMirror._now_utc_iso := "2026-01-02T00:00:00Z" |}.

(** An incremental run on the mirror of the first run, after P was
    deleted. *)
Definition page_deleted_run : result NotionMirror.MirrorResult * NotionMirror.world :=
  NotionMirror.build scenario_page_deleted mirror_dir true
    (NotionMirror.files scenario_run1.2).

(** ** The decision table of the incremental write phase *)

(** The previous Index has an entry for [id] whose fingerprint is
    [fingerprint] and whose path is [rel_path], and the target file
    [dest] is on the disk [f]. *)
Definition up_to_date (prev_all : jobj) (id : string) (fingerprint : json)
  (rel_path : string) (f : gmap path node) (dest : path) : bool :=
  match NotionMirror.dict_get_default prev_all id (JObj []) with
  | JObj prev =>
      py_eq (dict_get prev "last_edited_time") fingerprint
      && py_eq (dict_get prev "path") (JStr rel_path)
      && fs_exists f dest
  | _ => false
  end.

(** The file that the previous Index records for [id], when its path
    is not [rel_path]. *)
Definition moved_from (root : path) (prev_all : jobj) (id : string)
  (rel_path : string) : option path :=
  match NotionMirror.dict_get_default prev_all id (JObj []) with
  | JObj prev =>
      match dict_get prev "path" with
      | JStr s =>
          if String.eqb s "" || String.eqb s rel_path then None
          else Some (joinpath root s)
      | _ => None
      end
  | _ => None
  end.

(** The table, for the object [id] with fingerprint [fingerprint] whose
    file is [dest], at [rel_path] below [root].  [w] is the world in
    which the task of the object starts, [w'] the one in which it ends,
    [o] what it adds to the results.  The directory of [dest] is made
    first.  Then either the object is up to date and nothing is written
    or deleted; or its file is written, after the file at the old path,
    when there is one, was unlinked and the directories above it were
    pruned. *)
Definition decision_table (root : path) (prev_all : jobj) (id : string)
  (fingerprint : json) (rel_path : string) (dest : path)
  (w w' : NotionMirror.world) (o : option (string * jobj * nat)) : Prop :=
  ∃ qs,
    mkdir_walk (NotionMirror.files w) [] (parent dest) = Ok qs
    ∧ let made := List.map Mkdir qs in
      let f1 := add_dirs (NotionMirror.files w) qs in
      if up_to_date prev_all id fingerprint rel_path (NotionMirror.files w) dest
      then
        o = Some (id, NotionMirror.index_entry fingerprint rel_path, 0%nat)
        ∧ NotionMirror.files w' = f1
        ∧ NotionMirror.trace w' = NotionMirror.trace w ++ made
      else
        ∃ c,
          o = Some (id, NotionMirror.index_entry fingerprint rel_path, 1%nat)
          ∧ match moved_from root prev_all id rel_path with
            | Some old_abs =>
                if fs_exists (NotionMirror.files w) old_abs then
                  ∃ ds f2,
                    fs_is_file (NotionMirror.files w) old_abs = true
                    ∧ pruning root (delete old_abs f1) (rev (parent old_abs)) ds f2
                    ∧ NotionMirror.files w' = <[dest := File c]> f2
                    ∧ NotionMirror.trace w'
                      = NotionMirror.trace w ++ made
                        ++ Unlink old_abs :: List.map Rmdir ds ++ [Write dest c]
                else
                  NotionMirror.files w' = <[dest := File c]> f1
                  ∧ NotionMirror.trace w'
                    = NotionMirror.trace w ++ made ++ [Write dest c]
            | None =>
                NotionMirror.files w' = <[dest := File c]> f1
                ∧ NotionMirror.trace w'
                  = NotionMirror.trace w ++ made ++ [Write dest c]
            end.

(** The database [did] as the write phase sees it is not archived. *)
Definition live_database (m : NotionMirror.t) (did : string) : Prop :=
  ∃ db, NotionMirror._ensure_database m (JStr did) = Ok db
        ∧ truthy (dict_get db "archived") = false.

(** A previous Index of pages in which P has another fingerprint and
    another path, and a disk that holds the file at that path. *)
Definition moved_page_index : jobj :=
  [("p1", JObj [("last_edited_time", JStr "t0");
                ("path", JStr "_workspace/Milk_p1.md")])].

Definition moved_page_world : NotionMirror.world :=
  {| NotionMirror.self := NotionMirror.self scenario_world;
     NotionMirror.files :=
       <[mirror_dir ++ ["_workspace"; "Milk_p1.md"] := File (Text "")]>
         (<[mirror_dir ++ ["_workspace"] := Dir]> {[mirror_dir := Dir]});
     NotionMirror.trace := [] |}.

(** ** Paths below a root *)

(** A character that is no path separator. *)
Definition no_slash (c : ascii) : Prop := c ≠ "/"%char.

(** A path component without a separator. *)
Definition plain (s : string) : Prop := Forall no_slash (chars s).

(** [p] is strictly below [root], by components without separators. *)
Definition below (root p : path) : Prop :=
  ∃ rel, p = root ++ rel ∧ rel ≠ [] ∧ Forall plain rel.

(** [p] is [root] or below it, by components without separators. *)
Definition at_or_below (root p : path) : Prop :=
  ∃ rel, p = root ++ rel ∧ Forall plain rel.

(** Every path the mirror object remembers is below [root]. *)
Definition tidy (root : path) (m : NotionMirror.t) : Prop :=
  ∀ k p, NotionMirror._page_path_cache m !! k = Some p → below root p.

(** ** What a full rebuild changes before it publishes *)

(** Two different directories of the same parent directory. *)
Definition siblings (a b : path) : Prop :=
  a ≠ [] ∧ b ≠ [] ∧ parent a = parent b ∧ a ≠ b.

(** The event changes nothing at or below [d]. *)
Definition outside (d : path) (e : fs_event) : Prop :=
  match e with
  | Mkdir p | Write p _ | Unlink p | Rmdir p => ¬ d `prefix_of` p
  | Rmtree p => ¬ d `prefix_of` p ∧ ¬ p `prefix_of` d
  | Rename src dst =>
      ¬ d `prefix_of` src ∧ ¬ src `prefix_of` d
      ∧ ¬ d `prefix_of` dst ∧ ¬ dst `prefix_of` d
  end.

(** The two disks hold the same at and below [d]. *)
Definition same_below (d : path) (f f' : gmap path node) : Prop :=
  ∀ p, d `prefix_of` p → f' !! p = f !! p.

(** Between the two worlds the disk at and below [d] was left alone:
    it holds the same, and no event in between changes it. *)
Definition leaves_alone (d : path) (w w' : NotionMirror.world) : Prop :=
  same_below d (NotionMirror.files w) (NotionMirror.files w')
  ∧ ∃ evs, NotionMirror.trace w' = NotionMirror.trace w ++ evs
           ∧ Forall (outside d) evs.

(** From a world in which [I] holds, the step [c] leads to a world in
    which [I] holds and which is related to the first one by [R],
    whether it returns or raises; what it returns satisfies [Q]. *)
Definition ensures {A} (I : NotionMirror.world → Prop)
  (R : NotionMirror.world → NotionMirror.world → Prop) (Q : A → Prop)
  (c : NotionMirror.M A) : Prop :=
  ∀ w, I w → I (c w).2 ∧ R w (c w).2 ∧ ∀ a, (c w).1 = Ok a → Q a.

(** The remembered paths of the mirror object are below [root]. *)
Definition tidy_world (root : path) (w : NotionMirror.world) : Prop :=
  tidy root (NotionMirror.self w).

(** ** Two incremental runs in a row *)

(** The file an entry of the Index records: the pieces of the recorded
    path, below [root]; and whether the entry has a text as fingerprint
    and its file is on the disk. *)
Definition entry_in_place (f : gmap path node) (root : path) (entry : json) : bool :=
  match entry with
  | JObj e =>
      match dict_get e "last_edited_time", dict_get e "path" with
      | JStr _, JStr s => fs_exists f (root ++ split_on "/" [] (chars s))
      | _, _ => false
      end
  | _ => false
  end.

Definition entries_in_place (f : gmap path node) (root : path) (entries : json)
  : bool :=
  match entries with
  | JObj items => forallb (fun kv => entry_in_place f root kv.2) items
  | _ => false
  end.

(** Every entry of the Index that is on the disk has its file on the
    disk. *)
Definition index_in_place (f : gmap path node) (root : path) : bool :=
  entries_in_place f root (index_entries (stored_index f root) "pages")
  && entries_in_place f root (index_entries (stored_index f root) "databases").

(** Two states of the mirror object that differ at most in the access
    issues. *)
Definition same_paths (m n : NotionMirror.t) : Prop :=
  n = NotionMirror.set_inaccessible_blocks (NotionMirror._inaccessible_blocks n) m.

(** A step that only makes directories: nothing that is on the disk
    goes or changes, and no access issue is added. *)
Definition quiet (w w' : NotionMirror.world) : Prop :=
  (∃ qs, NotionMirror.trace w' = NotionMirror.trace w ++ List.map Mkdir qs)
  ∧ (∀ p n, NotionMirror.files w !! p = Some n → NotionMirror.files w' !! p = Some n)
  ∧ NotionMirror._inaccessible_blocks (NotionMirror.self w')
    = NotionMirror._inaccessible_blocks (NotionMirror.self w).

(** The result of the step and the mirror object it leaves depend on
    the mirror object alone. *)
Definition self_determined {A} (c : NotionMirror.M A) : Prop :=
  ∀ w v, NotionMirror.self w = NotionMirror.self v →
    (c w).1 = (c v).1 ∧ NotionMirror.self (c w).2 = NotionMirror.self (c v).2.

(** A mirror whose Index has an entry for a page that is gone, recorded
    at the path that page P of the scenario resolves to. *)
Definition stale_disk : gmap path node :=
  <[mirror_dir ++ [".mirror_index.json"] :=
      File (Json (JObj [("pages",
                         JObj [("p-1", JObj [("last_edited_time", JStr "t0");
                                             ("path", JStr "DB_Tasks_d1/Buy milk_p1.md")])]);
                        ("databases", JObj [])]))]>
    {[mirror_dir := Dir]}.

Definition stale_run1 : result NotionMirror.MirrorResult * NotionMirror.world :=
  NotionMirror.build (scenario "t1") mirror_dir true stale_disk.

Definition stale_run2 : result NotionMirror.MirrorResult * NotionMirror.world :=
  NotionMirror.build (scenario "t1") mirror_dir true (NotionMirror.files stale_run1.2).

(** The mirror object differs at most in the access issues between the
    two worlds. *)
Definition paths_kept (w w' : NotionMirror.world) : Prop :=
  same_paths (NotionMirror.self w) (NotionMirror.self w').

(** The cached databases are the same in both worlds. *)
Definition dbs_kept (w w' : NotionMirror.world) : Prop :=
  NotionMirror._db_cache (NotionMirror.self w')
  = NotionMirror._db_cache (NotionMirror.self w).

(** The remembered paths and the access issues are the same in both
    worlds. *)
Definition memo_kept (w w' : NotionMirror.world) : Prop :=
  NotionMirror._page_path_cache (NotionMirror.self w')
  = NotionMirror._page_path_cache (NotionMirror.self w)
  ∧ NotionMirror._inaccessible_blocks (NotionMirror.self w')
    = NotionMirror._inaccessible_blocks (NotionMirror.self w).

(** The scenario once more: an incremental run on the disk that the
    incremental run with P unchanged left. *)
Definition scenario_run2_again
  : result NotionMirror.MirrorResult * NotionMirror.world :=
  NotionMirror.build (scenario "t1") mirror_dir true (NotionMirror.files scenario_run2.2).

(** The workspace of the scenario when the entries of D cannot be
    queried. *)
Definition scenario_query_denied : NotionMirror.remote :=
  {| NotionMirror.search := NotionMirror.search (scenario "t1");
     NotionMirror.get_page := NotionMirror.get_page (scenario "t1");
     NotionMirror.get_database := NotionMirror.get_database (scenario "t1");
     NotionMirror.query_database := fun _ => Raise (NotionError "Notion API error 403");
     NotionMirror.list_block_children := NotionMirror.list_block_children (scenario "t1");
     NotionMirror._render_blocks_async :=
       NotionMirror._render_blocks_async (scenario "t1");
     NotionMirror._page_properties_md := NotionMirror._page_properties_md (scenario "t1");
     NotionMirror._now_utc_iso := "2026-01-01T00:00:00Z" |}.

(** ** Requests *)

(** The responses of a run that made the client fall back to the
    version 2022-06-28: those that complain about the version that was
    sent. *)
Definition complaints (evs : list AsyncNotionClient.event)
  : list AsyncNotionClient.response :=
  omap (fun e =>
          match e with
          | AsyncNotionClient.Sent _ v resp =>
              if AsyncNotionClient.is_version_complaint
                   {| AsyncNotionClient.notion_version := v;
                      AsyncNotionClient.rate_limit_per_sec := 0 |} resp
              then Some resp else None
          | AsyncNotionClient.Slept _ => None
          end) evs.

(** ** Parent cycles and the recursion limit *)

(** At or below the [_orphans] bucket of the mirror root. *)
Definition in_orphans_bucket (root p : path) : Prop :=
  (root ++ ["_orphans"]) `prefix_of` p.

(** A ring of [n] pages: page [i] names page [i + 1] as its parent, and
    the last page names page 0. *)
Definition ring_id (i : nat) : string := "p" +:+ pretty i.

Definition ring_page (n i : nat) : jobj :=
  [("object", JStr "page");
   ("id", JStr (ring_id i));
   ("parent", JObj [("type", JStr "page_id");
                    ("page_id", JStr (ring_id (S i mod n)))]);
   ("properties", JObj [])].

Definition ring_ids (n : nat) : list string := List.map ring_id (seq 0 n).

Definition ring_mirror (n : nat) : NotionMirror.t :=
  NotionMirror.set_page_cache
    (list_to_map (List.map (fun i => (ring_id i, ring_page n i)) (seq 0 n)))
    (NotionMirror.__init__ mirror_dir).

(** [has_page_parent], [parent_chain] and [parent_cycle] as checks. *)
Definition has_page_parent_b (m : NotionMirror.t) (id parent_id : string) : bool :=
  match NotionMirror._page_cache m !! id with
  | Some ((_ :: _) as page) =>
      match or_empty_dict (dict_get page "parent") with
      | Ok parent =>
          is_str (dict_get parent "type") "page_id"
          && is_str (dict_get parent "page_id") parent_id
          && is_ok (NotionMirror._page_file_name page)
      | Raise _ => false
      end
  | _ => false
  end.

Fixpoint parent_chain_b (m : NotionMirror.t) (ids : list string) (last_parent : string)
  : bool :=
  match ids with
  | [] => true
  | x :: rest =>
      has_page_parent_b m x (hd last_parent rest) && parent_chain_b m rest last_parent
  end.

Definition parent_cycle_b (m : NotionMirror.t) (ids : list string) : bool :=
  bool_decide (NoDup ids)
  && match ids with
     | [] => false
     | first :: _ => parent_chain_b m ids first
     end.

(** A result that is not the [RecursionError] of the interpreter. *)
Definition quiet_failure {A} (r : result A) : Prop :=
  ∀ e, r = Raise e → e ≠ RecursionError.

(** * Proofs *)

(** ** The retry policy of [_request] *)

Section retry_policy.

Import AsyncNotionClient.

Variable float : string → option Q.
Variable server : nat → string → response.
Variables (method url : string).

Let run := attempts float server method url.

Lemma with_hint_spec b resp :
  with_hint float b resp
  = match retry_hint float resp with Some h => Qmax b h | None => b end.
Proof.
  unfold with_hint, retry_hint.
  destruct (retry_after resp) as [s|]; [|reflexivity].
  destruct (String.eqb s ""); [reflexivity|].
  destruct (float s); reflexivity.
Qed.

Lemma version_complaint_not_retry c resp :
  is_version_complaint c resp = true → is_retry_status resp = false.
Proof.
  unfold is_version_complaint, is_retry_status, retry_statuses.
  rewrite !andb_true_iff. intros [[H _] _].
  apply Z.eqb_eq in H. rewrite H. reflexivity.
Qed.

Lemma attempts_budget todo c b :
  (length (responses (run todo c b).2) ≤ length todo)%nat.
Proof.
  revert c b. induction todo as [|a todo IH]; intros c b; simpl; [lia|].
  destruct (is_version_complaint c _).
  - specialize (IH {| notion_version := "2022-06-28";
                      rate_limit_per_sec := rate_limit_per_sec c |} b).
    destruct (run todo _ b) as [[r c''] evs]. simpl in *. lia.
  - destruct (is_retry_status _).
    + specialize (IH c (Qmin (with_hint float b (server a (notion_version c)) * 2) 30)).
      destruct (run todo c _) as [[r c''] evs]. simpl in *. lia.
    + simpl. lia.
Qed.


Lemma spec_waits_ext hints : ∀ b b', (b == b')%Q →
  Forall2 Qeq (spec_waits b hints) (spec_waits b' hints).
Proof.
  induction hints as [|h hints IH]; intros b b' Hb; simpl; [constructor|].
  assert (Hw : (match h with Some x => Qmax b x | None => b end
               == match h with Some x => Qmax b' x | None => b' end)%Q).
  { destruct h; [|exact Hb]. rewrite Hb. reflexivity. }
  constructor; [exact Hw|]. apply IH. rewrite Hw. reflexivity.
Qed.

Lemma attempts_waits todo c b :
  Forall2 Qeq (sleeps (run todo c b).2)
              (spec_waits b (List.map (retry_hint float) (retried (run todo c b).2))).
Proof.
  revert c b. induction todo as [|a todo IH]; intros c b; simpl; [constructor|].
  destruct (is_version_complaint c _) eqn:Hv.
  - specialize (IH {| notion_version := "2022-06-28";
                      rate_limit_per_sec := rate_limit_per_sec c |} b).
    destruct (run todo _ b) as [[r c''] evs]. unfold retried in *. simpl in *.
    rewrite (version_complaint_not_retry _ _ Hv). exact IH.
  - destruct (is_retry_status _) eqn:Hr.
    + specialize (IH c (Qmin (with_hint float b (server a (notion_version c)) * 2) 30)).
      destruct (run todo c _) as [[r c''] evs]. unfold retried in *. simpl in *.
      rewrite Hr. simpl. rewrite <- with_hint_spec.
      constructor; [reflexivity|].
      etransitivity; [exact IH|]. apply spec_waits_ext.
      rewrite Qmult_comm. reflexivity.
    + unfold retried. simpl. rewrite Hr. constructor.
Qed.


Lemma attempts_plain todo c b :
  Forall (fun r => retry_hint float r = None) (retried (run todo c b).2) →
  sleeps (run todo c b).2 = plain_waits b (length (retried (run todo c b).2)).
Proof.
  revert c b. induction todo as [|a todo IH]; intros c b; simpl; [reflexivity|].
  destruct (is_version_complaint c _) eqn:Hv.
  - specialize (IH {| notion_version := "2022-06-28";
                      rate_limit_per_sec := rate_limit_per_sec c |} b).
    destruct (run todo _ b) as [[r c''] evs]. unfold retried in *. simpl in *.
    rewrite (version_complaint_not_retry _ _ Hv). exact IH.
  - destruct (is_retry_status _) eqn:Hr.
    + specialize (IH c (Qmin (with_hint float b (server a (notion_version c)) * 2) 30)).
      destruct (run todo c _) as [[r c''] evs]. unfold retried in *. simpl in *.
      rewrite Hr. simpl. intros Hall. inversion Hall as [|? ? Hh Hall']; subst.
      rewrite with_hint_spec, Hh in *. f_equal. apply IH, Hall'.
    + unfold retried. simpl. rewrite Hr. reflexivity.
Qed.

Lemma attempts_floor todo c b :
  Forall2 (fun s r => ∀ h, retry_hint float r = Some h → (h <= s)%Q)
          (sleeps (run todo c b).2) (retried (run todo c b).2).
Proof.
  revert c b. induction todo as [|a todo IH]; intros c b; simpl; [constructor|].
  destruct (is_version_complaint c _) eqn:Hv.
  - specialize (IH {| notion_version := "2022-06-28";
                      rate_limit_per_sec := rate_limit_per_sec c |} b).
    destruct (run todo _ b) as [[r c''] evs]. unfold retried in *. simpl in *.
    rewrite (version_complaint_not_retry _ _ Hv). exact IH.
  - destruct (is_retry_status _) eqn:Hr.
    + specialize (IH c (Qmin (with_hint float b (server a (notion_version c)) * 2) 30)).
      destruct (run todo c _) as [[r c''] evs]. unfold retried in *. simpl in *.
      rewrite Hr. constructor; [|exact IH].
      intros h Hh. rewrite with_hint_spec, Hh. apply Q.le_max_r.
    + unfold retried. simpl. rewrite Hr. constructor.
Qed.

(** Without a hint a wait lies between the running back-off value, which
    never exceeds 30 once it started at most there, and 30. *)
Lemma attempts_cap todo c b :
  (b <= 30)%Q →
  Forall2 (fun s r => retry_hint float r = None → (s <= 30)%Q)
          (sleeps (run todo c b).2) (retried (run todo c b).2).
Proof.
  revert c b. induction todo as [|a todo IH]; intros c b Hb; simpl; [constructor|].
  destruct (is_version_complaint c _) eqn:Hv.
  - specialize (IH {| notion_version := "2022-06-28";
                      rate_limit_per_sec := rate_limit_per_sec c |} b Hb).
    destruct (run todo _ b) as [[r c''] evs]. unfold retried in *. simpl in *.
    rewrite (version_complaint_not_retry _ _ Hv). exact IH.
  - destruct (is_retry_status _) eqn:Hr.
    + specialize (IH c (Qmin (with_hint float b (server a (notion_version c)) * 2) 30)
                    (Q.le_min_r _ _)).
      destruct (run todo c _) as [[r c''] evs]. unfold retried in *. simpl in *.
      rewrite Hr. constructor; [|exact IH].
      intros Hh. rewrite with_hint_spec, Hh. exact Hb.
    + unfold retried. simpl. rewrite Hr. constructor.
Qed.

Lemma attempts_give_up todo c b :
  (∀ i v, In i todo → is_retry_status (server i v) = true) →
  (run todo c b).1.1
  = Raise (NotionError ("Notion API request failed after retries: "
                          +:+ method +:+ " " +:+ url))
  ∧ length (sleeps (run todo c b).2) = length todo
  ∧ length (responses (run todo c b).2) = length todo.
Proof.
  revert c b. induction todo as [|a todo IH]; intros c b Hall; simpl; [auto|].
  assert (Hr : is_retry_status (server a (notion_version c)) = true)
    by (apply Hall; left; reflexivity).
  destruct (is_version_complaint c _) eqn:Hv.
  { apply version_complaint_not_retry in Hv. congruence. }
  rewrite Hr.
  specialize (IH c (Qmin (with_hint float b (server a (notion_version c)) * 2) 30)).
  destruct (run todo c _) as [[r c''] evs]. simpl in *.
  destruct IH as (-> & -> & ->); [|auto].
  intros i v Hi. apply Hall. right. exact Hi.
Qed.

End retry_policy.


(** ** The rate limiter *)

Section rate_limiter.

Import AsyncRateLimiter.

Lemma young_true now g : young now g = true ↔ (seconds now - seconds g < 1)%Q.
Proof.
  unfold young. rewrite negb_true_iff.
  split.
  - intros H. apply Qnot_le_lt. intros Hle.
    apply Qle_bool_iff in Hle. congruence.
  - intros H. destruct (Qle_bool 1 (seconds now - seconds g)) eqn:E; [|reflexivity].
    apply Qle_bool_iff in E. lra.
Qed.

Lemma young_self now : young now now = true.
Proof. apply young_true. lra. Qed.

Lemma young_earlier now n g :
  not_later now n → young n g = true → young now g = true.
Proof.
  unfold not_later. intros Hle H. apply young_true in H. apply young_true. lra.
Qed.

Lemma in_second_from_true a g :
  in_second_from a g = true ↔ (a <= seconds g)%Q ∧ (seconds g < a + 1)%Q.
Proof.
  unfold in_second_from. rewrite andb_true_iff, negb_true_iff, Qle_bool_iff.
  split; intros [H1 H2]; split; try assumption.
  - apply Qnot_le_lt. intros Hle. apply Qle_bool_iff in Hle. congruence.
  - destruct (Qle_bool (a + 1) (seconds g)) eqn:E; [|reflexivity].
    apply Qle_bool_iff in E. lra.
Qed.

Lemma drops_are_due_spec nows now g :
  drops_are_due nows = true → In now nows → In g nows →
  young now g = true → in_window now g = true.
Proof.
  unfold drops_are_due. intros Hall Hnow Hg Hy.
  rewrite forallb_forall in Hall. specialize (Hall now Hnow).
  rewrite forallb_forall in Hall. specialize (Hall g Hg).
  unfold due_drop in Hall. unfold young in Hy.
  destruct (Qle_bool 1 (seconds now - seconds g)); [discriminate|].
  rewrite orb_false_r in Hall. exact Hall.
Qed.

Lemma not_later_trans : Transitive not_later.
Proof. intros x y z. unfold not_later. apply Qle_trans. Qed.

Lemma filter_length_mono {A} (p q : A → bool) (l : list A) :
  (∀ x, In x l → p x = true → q x = true) →
  (length (List.filter p l) ≤ length (List.filter q l))%nat.
Proof.
  induction l as [|x l IH]; intros H; simpl; [lia|].
  assert (IH' := IH (fun y Hy => H y (or_intror Hy))).
  destruct (p x) eqn:Ep.
  - rewrite (H x (or_introl eq_refl) Ep). simpl. lia.
  - destruct (q x); simpl; lia.
Qed.

Lemma filter_keeps_sublist {A} (p : A → bool) (l1 l2 : list A) :
  l1 `sublist_of` l2 → List.filter p l1 `sublist_of` List.filter p l2.
Proof.
  induction 1 as [|x l1 l2 _ IH|x l1 l2 _ IH]; simpl.
  - constructor.
  - destruct (p x); [constructor|]; exact IH.
  - destruct (p x); [apply sublist_cons|]; exact IH.
Qed.

Lemma filter_is_sublist {A} (p : A → bool) (l : list A) :
  List.filter p l `sublist_of` l.
Proof.
  induction l as [|x l IH]; simpl; [constructor|].
  destruct (p x); [constructor|apply sublist_cons]; exact IH.
Qed.

Lemma filter_all {A} (p : A → bool) (l : list A) :
  (∀ x, In x l → p x = true) → List.filter p l = l.
Proof.
  induction l as [|x l IH]; intros H; simpl; [reflexivity|].
  rewrite (H x (or_introl eq_refl)), IH; [reflexivity|].
  intros y Hy. apply H. right. exact Hy.
Qed.

Lemma paced_window burst a (grants : list spec_float) :
  (0 ≤ burst)%Z →
  paced burst [] grants →
  (Z.of_nat (acquisitions_from a grants) ≤ burst)%Z.
Proof.
  intros Hb. unfold acquisitions_from.
  induction grants as [|g grants IH] using rev_ind; intros Hp; simpl; [lia|].
  rewrite List.filter_app, length_app. simpl.
  destruct (in_second_from a g) eqn:Eg; simpl.
  - specialize (Hp grants g [] eq_refl). simpl in Hp.
    etransitivity; [|exact Hp].
    apply in_second_from_true in Eg.
    rewrite List.filter_app, length_app. simpl.
    rewrite young_self. simpl.
    apply Nat2Z.inj_le. apply Nat.add_le_mono_r.
    apply filter_length_mono. intros x _ Hx.
    apply in_second_from_true in Hx. apply young_true. lra.
  - rewrite Nat.add_0_r. apply IH.
    intros gs1 g' gs2 Hsplit. apply (Hp gs1 g' (gs2 ++ [g])).
    rewrite Hsplit, <- app_assoc. reflexivity.
Qed.

(** One pass at [now], among readings none of which drops an
    acquisition too early: what is young at a reading to come is kept,
    and an acquisition is granted only below the burst. *)
Lemma acquire_pass_spec (run : list spec_float) now later l past :
  drops_are_due run = true →
  In now run → incl past run →
  remembers l past (now :: later) →
  Forall (not_later now) later →
  let r := acquire_pass now l in
  _burst r.2 = _burst l
  ∧ (r.1 = Ok Acquired
     ∧ (Z.of_nat (length (List.filter (young now) past)) < _burst l)%Z
     ∧ remembers r.2 (past ++ [now]) later
     ∨ r.1 ≠ Ok Acquired ∧ remembers r.2 past later).
Proof.
  intros Hdue Hnow Hpast Hrem Hlater r. subst r. unfold acquire_pass.
  set (ts := List.filter (in_window now) (_timestamps l)).
  assert (Hkept : ∀ n, In n (now :: later) →
            List.filter (young n) past `sublist_of` ts).
  { intros n Hn.
    rewrite <- (filter_all (in_window now) (List.filter (young n) past)).
    - apply filter_keeps_sublist, Hrem, Hn.
    - intros x Hx. apply List.filter_In in Hx. destruct Hx as [Hx Hy].
      apply (drops_are_due_spec run); [assumption|assumption|apply Hpast, Hx|].
      apply (young_earlier now n); [|exact Hy].
      destruct Hn as [<-|Hn]; [unfold not_later; apply Qle_refl|].
      rewrite List.Forall_forall in Hlater. apply Hlater, Hn. }
  destruct (Z.of_nat (length ts) <? _burst l)%Z eqn:Hlt.
  - apply Z.ltb_lt in Hlt. simpl. split; [reflexivity|]. left.
    split; [reflexivity|]. split.
    + pose proof (sublist_length _ _ (Hkept now (or_introl eq_refl))). lia.
    + intros n Hn. simpl. rewrite List.filter_app.
      apply sublist_app; [apply Hkept; right; exact Hn|].
      simpl. destruct (young n now); [reflexivity|apply sublist_nil_l].
  - destruct ts as [|t0 ts'] eqn:Ets; simpl; (split; [reflexivity|]); right;
      (split; [discriminate|]); intros n Hn; simpl; apply Hkept; right; exact Hn.
Qed.

Lemma passes_paced (run : list spec_float) nows : ∀ l past,
  drops_are_due run = true →
  incl nows run → incl past run →
  remembers l past nows →
  StronglySorted not_later nows →
  paced (_burst l) past (passes nows l).1.
Proof.
  induction nows as [|now nows IH]; intros l past Hdue Hnows Hpast Hrem Hsorted.
  - simpl. intros gs1 g gs2 H. destruct gs1; discriminate.
  - assert (Hnow : In now run) by (apply Hnows; left; reflexivity).
    assert (Hnows' : incl nows run) by (intros x Hx; apply Hnows; right; exact Hx).
    inversion Hsorted as [|? ? Hsorted' Hlater]; subst.
    destruct (acquire_pass_spec run now nows l past Hdue Hnow Hpast Hrem Hlater)
      as [Hb Hcase].
    cbn [passes].
    destruct (acquire_pass now l) as [r l'] eqn:Epass. simpl in Hb, Hcase.
    destruct Hcase as [(-> & Hlt & Hrem') | (Hne & Hrem')].
    + assert (Hpast' : incl (past ++ [now]) run).
      { intros x Hx. apply List.in_app_iff in Hx. destruct Hx as [Hx|[<-|[]]]; auto. }
      pose proof (IH l' (past ++ [now]) Hdue Hnows' Hpast' Hrem' Hsorted') as Hp.
      destruct (passes nows l') as [gs l''] eqn:Epass'. simpl in *.
      rewrite Hb in Hp.
      intros gs1 g gs2 Hsplit. destruct gs1 as [|g1 gs1]; simpl in Hsplit.
      * injection Hsplit as <- <-. simpl.
        rewrite List.filter_app. simpl. rewrite young_self.
        rewrite length_app. simpl. lia.
      * injection Hsplit as <- ->.
        specialize (Hp gs1 g gs2 eq_refl).
        rewrite <- app_assoc in Hp. simpl in Hp. exact Hp.
    + pose proof (IH l' past Hdue Hnows' Hpast Hrem' Hsorted') as Hp.
      rewrite Hb in Hp.
      destruct r as [[|d]|e]; [congruence| exact Hp | exact Hp].
Qed.

Lemma acquire_pass_bounded now l :
  (Z.of_nat (length (_timestamps l)) ≤ _burst l)%Z →
  (Z.of_nat (length (_timestamps (acquire_pass now l).2)) ≤ _burst (acquire_pass now l).2)%Z
  ∧ _burst (acquire_pass now l).2 = _burst l.
Proof.
  intros Hlen. unfold acquire_pass.
  pose proof (List.filter_length_le (in_window now) (_timestamps l)) as Hf.
  destruct (Z.of_nat (length (List.filter (in_window now) (_timestamps l))) <? _burst l)%Z
    eqn:Hlt.
  - apply Z.ltb_lt in Hlt. simpl. rewrite length_app. simpl. lia.
  - destruct (List.filter (in_window now) (_timestamps l)); simpl in *; lia.
Qed.

Lemma passes_bounded nows : ∀ l,
  (Z.of_nat (length (_timestamps l)) ≤ _burst l)%Z →
  (Z.of_nat (length (_timestamps (passes nows l).2)) ≤ _burst (passes nows l).2)%Z
  ∧ _burst (passes nows l).2 = _burst l.
Proof.
  induction nows as [|now nows IH]; intros l Hlen; simpl; [auto|].
  destruct (acquire_pass_bounded now l Hlen) as [Hlen' Hb].
  destruct (acquire_pass now l) as [r l'] eqn:Epass. simpl in Hlen', Hb.
  destruct (IH l' Hlen') as [Hlen'' Hb'].
  destruct r as [[|d]|e]; try (rewrite <- Hb; auto).
  destruct (passes nows l') as [gs l'']. simpl in *. auto.
Qed.

(** The limiter remembers nothing but acquisitions it has granted. *)
Lemma passes_stamps nows : ∀ l past,
  _timestamps l `sublist_of` past →
  _timestamps (passes nows l).2 `sublist_of` past ++ (passes nows l).1.
Proof.
  induction nows as [|now nows IH]; intros l past Hsub.
  - simpl. rewrite app_nil_r. exact Hsub.
  - cbn [passes]. unfold acquire_pass.
    set (ts := List.filter (in_window now) (_timestamps l)).
    assert (Hts : ts `sublist_of` past).
    { etransitivity; [apply filter_is_sublist|exact Hsub]. }
    destruct (Z.of_nat (length ts) <? _burst l)%Z.
    + match goal with |- context [passes nows ?l'] =>
        pose proof (IH l' (past ++ [now])) as IH'; destruct (passes nows l') as [gs l'']
      end.
      simpl in *. rewrite <- app_assoc in IH'. apply IH'.
      apply sublist_app; [exact Hts|reflexivity].
    + destruct ts as [|t0 ts'] eqn:Ets; apply IH; exact Hts.
Qed.

(** A pass that finds fewer than [burst] remembered acquisitions inside
    its window returns at once. *)
Lemma acquire_at_once fuel wake now l :
  (Z.of_nat (length (List.filter (in_window now) (_timestamps l))) < _burst l)%Z →
  ∃ l', acquire (S fuel) wake now l = Some (Ok now, l').
Proof.
  intros Hlt. apply Z.ltb_lt in Hlt. cbn [acquire]. unfold acquire_pass.
  rewrite Hlt. eexists. reflexivity.
Qed.

End rate_limiter.




(** ** Names and pure paths *)

Lemma lstrip_by_Forall (P : ascii → Prop) p s :
  Forall P s → Forall P (lstrip_by p s).
Proof.
  induction 1 as [|c s Hc Hs IH]; simpl; [constructor|].
  destruct (p c); [exact IH|constructor; assumption].
Qed.

Lemma rstrip_by_Forall (P : ascii → Prop) p s :
  Forall P s → Forall P (rstrip_by p s).
Proof.
  intros H. unfold rstrip_by.
  apply Forall_rev, lstrip_by_Forall, Forall_rev, H.
Qed.

Lemma strip_Forall (P : ascii → Prop) s : Forall P s → Forall P (strip s).
Proof. intros H. apply rstrip_by_Forall, lstrip_by_Forall, H. Qed.

Lemma collapse_ws_Forall (P : ascii → Prop) s : ∀ in_run,
  P " "%char → Forall P s → Forall P (collapse_ws in_run s).
Proof.
  induction s as [|c s IH]; intros in_run Hsp H; simpl; [constructor|].
  inversion H; subst.
  destruct (is_space c); [destruct in_run|]; repeat constructor; auto.
Qed.

Lemma str_of_cons c s : str_of (c :: s) = String c (str_of s).
Proof. reflexivity. Qed.

Lemma safe_name_head raw fallback :
  is_absolute fallback = false → fallback ≠ "" →
  ∃ c s, safe_name raw fallback = String c s ∧ c ≠ "/"%char.
Proof.
  intros Hfb Hne. unfold safe_name.
  set (mapped := List.map _ (strip (chars raw))).
  assert (Hmapped : Forall no_slash mapped).
  { subst mapped. apply List.Forall_forall. intros c Hc.
    apply in_map_iff in Hc as (c0 & <- & _).
    destruct (ascii_in c0 _INVALID_WIN_CHARS) eqn:E; [discriminate|].
    intros ->. vm_compute in E. discriminate. }
  set (name := rstrip_by _ _).
  assert (Hname : Forall no_slash name).
  { subst name. apply rstrip_by_Forall, strip_Forall, collapse_ws_Forall;
      [discriminate|exact Hmapped]. }
  destruct name as [|c name'] eqn:E.
  - destruct fallback as [|c s]; [congruence|].
    exists c, s. split; [reflexivity|].
    intros ->. unfold is_absolute in Hfb. cbn in Hfb. destruct s; discriminate.
  - inversion Hname; subst. exists c, (str_of (take 159 name')).
    split; [reflexivity|assumption].
Qed.

Lemma joinpath_relative p s :
  is_absolute s = false → joinpath p s = p ++ components s.
Proof. unfold joinpath. intros ->. reflexivity. Qed.

Lemma is_absolute_app c s t : c ≠ "/"%char → is_absolute (String c s +:+ t) = false.
Proof.
  intros Hc. unfold is_absolute.
  change (String.prefix "/" (String c s +:+ t))
    with (if Ascii.ascii_dec "/"%char c then String.prefix "" (s +:+ t) else false).
  destruct (Ascii.ascii_dec "/"%char c) as [<-|]; [congruence|reflexivity].
Qed.

(** A page file name is never an absolute path. *)
Lemma page_file_name_relative page n :
  NotionMirror._page_file_name page = Ok n → is_absolute n = false.
Proof.
  unfold NotionMirror._page_file_name.
  destruct (page_title page) as [raw|]; [|discriminate]. simpl.
  destruct (_id8 _) as [id8|]; [|discriminate]. simpl.
  intros [= <-].
  destruct (safe_name_head raw "page") as (c & s & -> & Hc); [reflexivity|discriminate|].
  apply is_absolute_app, Hc.
Qed.

Lemma prefix_app_string s t : String.prefix s (s +:+ t) = true.
Proof.
  induction s as [|c s IH]; [destruct t; reflexivity|].
  change (String.prefix (String c s) (String c s +:+ t))
    with (if Ascii.ascii_dec c c then String.prefix s (s +:+ t) else false).
  destruct (Ascii.ascii_dec c c); [exact IH|congruence].
Qed.

Lemma string_app_assoc (a b c : string) : (a +:+ b) +:+ c = a +:+ b +:+ c.
Proof.
  induction a as [|x a IH]; [reflexivity|].
  change (String x ((a +:+ b) +:+ c) = String x (a +:+ b +:+ c)).
  f_equal. exact IH.
Qed.

Lemma concat_app_sep sep (a b : list string) :
  a ≠ [] → b ≠ [] →
  String.concat sep (a ++ b) = String.concat sep a +:+ sep +:+ String.concat sep b.
Proof.
  intros Ha Hb. induction a as [|x a IH]; [congruence|].
  destruct a as [|y a].
  - simpl. destruct b; [congruence|reflexivity].
  - change ((x :: y :: a) ++ b) with (x :: (y :: a) ++ b).
    change (String.concat sep (x :: (y :: a) ++ b))
      with (x +:+ sep +:+ String.concat sep ((y :: a) ++ b)).
    rewrite IH by discriminate.
    change (String.concat sep (x :: y :: a))
      with (x +:+ sep +:+ String.concat sep (y :: a)).
    rewrite !string_app_assoc. reflexivity.
Qed.

(** The text of a path starts with the text of each of its ancestors:
    the memo of a path below [root] is accepted for [root]. *)
Lemma path_str_prefix (root rest : path) :
  String.prefix (path_str root) (path_str (root ++ rest)) = true.
Proof.
  unfold path_str.
  destruct root as [|r root]; [exact (prefix_app_string "/" (String.concat "/" rest))|].
  destruct rest as [|x rest].
  { rewrite app_nil_r. generalize ("/" +:+ String.concat "/" (r :: root)).
    intros s. induction s as [|c s IH]; [reflexivity|].
    change (String.prefix (String c s) (String c s))
      with (if Ascii.ascii_dec c c then String.prefix s s else false).
    destruct (Ascii.ascii_dec c c); [exact IH|congruence]. }
  rewrite concat_app_sep by discriminate.
  rewrite <- string_app_assoc. apply prefix_app_string.
Qed.

(** ** Path resolution terminates *)

Section resolution.

Import NotionMirror.

Lemma same_caches_refl m : same_caches m m.
Proof. repeat split. Qed.

Lemma same_caches_trans m1 m2 m3 :
  same_caches m1 m2 → same_caches m2 m3 → same_caches m1 m3.
Proof.
  intros (a & b & c & d) (a' & b' & c' & d').
  repeat split; congruence.
Qed.

Lemma remember_same k r m : same_caches m (remember k r m).2.
Proof. destruct r; repeat split. Qed.

Lemma remember_fst k r m : (remember k r m).1 = r.
Proof. destruct r; reflexivity. Qed.

(** Only a page of the cache has a parent to recurse into: the
    placeholder of an unknown id has none. *)
Lemma ensure_page_has_parent m page_id page parent :
  _ensure_page m page_id = Ok page →
  or_empty_dict (dict_get page "parent") = Ok parent →
  is_str (dict_get parent "type") "page_id" = true →
  ∃ s, page_id = JStr s ∧ _page_cache m !! s = Some page.
Proof.
  unfold _ensure_page, cache_get.
  destruct (hash_key page_id) as [k|] eqn:Hk; [|discriminate]. cbn.
  assert (Hplace : or_placeholder None
           [("id", page_id); ("object", JStr "page"); ("properties", JObj [])] = page →
         or_empty_dict (dict_get page "parent") = Ok parent →
         is_str (dict_get parent "type") "page_id" = true → False).
  { intros <-. cbn. intros [= <-]. discriminate. }
  destruct k as [| |s]; try (intros [= H] H1 H2; exfalso; exact (Hplace H H1 H2)).
  destruct page_id; try discriminate. injection Hk as ->.
  destruct (_page_cache m !! s) as [[|b o]|] eqn:E;
    try (intros [= H] H1 H2; exfalso; exact (Hplace H H1 H2)).
  cbn. intros [= <-] _ _. eauto.
Qed.

Lemma unvisited_shrinks m stack s :
  is_Some (_page_cache m !! s) → KStr s ∉ stack →
  (size (unvisited m ({[KStr s]} ∪ stack)) < size (unvisited m stack))%nat.
Proof.
  intros Hs Hns. apply subset_size. unfold unvisited.
  apply elem_of_dom in Hs.
  split.
  - intros x. rewrite !elem_of_filter. set_solver.
  - intros Hsub. specialize (Hsub s).
    rewrite !elem_of_filter in Hsub. set_solver.
Qed.

Lemma resolve_total fuel : ∀ root page_id stack m,
  (size (unvisited m stack) < fuel)%nat →
  ∃ r m', resolve fuel root page_id stack m = Some (r, m') ∧ same_caches m m'.
Proof.
  induction fuel as [|fuel IH]; intros root page_id stack m Hfuel; [lia|].
  cbn [resolve].
  destruct (hash_key page_id) as [k|e] eqn:Hk;
    [|eexists _, _; split; [reflexivity|apply same_caches_refl]].
  destruct (cached m root k) as [p|];
    [eexists _, _; split; [reflexivity|apply same_caches_refl]|].
  destruct (decide (k ∈ stack)) as [Hin|Hout].
  { eexists _, _. split; [f_equal; apply surjective_pairing|apply remember_same]. }
  destruct (_ensure_page m page_id) as [page|e] eqn:Hpage; cbn;
    [|eexists _, _; split; [reflexivity|apply same_caches_refl]].
  destruct (or_empty_dict (dict_get page "parent")) as [parent|e] eqn:Hparent; cbn;
    [|eexists _, _; split; [reflexivity|apply same_caches_refl]].
  destruct (is_str (dict_get parent "type") "workspace").
  { eexists _, _. split; [f_equal; apply surjective_pairing|apply remember_same]. }
  destruct (is_str (dict_get parent "type") "database_id").
  { eexists _, _. split; [f_equal; apply surjective_pairing|apply remember_same]. }
  destruct (is_str (dict_get parent "type") "page_id") eqn:Htype.
  2:{ eexists _, _. split; [f_equal; apply surjective_pairing|apply remember_same]. }
  destruct (ensure_page_has_parent _ _ _ _ Hpage Hparent Htype) as (s & -> & Hs).
  injection Hk as <-.
  destruct (IH root (dict_get parent "page_id") ({[KStr s]} ∪ stack) m)
    as (r & m' & -> & Hsame).
  { pose proof (unvisited_shrinks m stack s (mk_is_Some _ _ Hs) Hout). lia. }
  eexists _, _. split; [f_equal; apply surjective_pairing|].
  eapply same_caches_trans; [exact Hsame|apply remember_same].
Qed.

Lemma unvisited_size m stack :
  (size (unvisited m stack) ≤ size (_page_cache m))%nat.
Proof.
  unfold unvisited. rewrite <- size_dom.
  apply subseteq_size. intros x. rewrite elem_of_filter. tauto.
Qed.

(** [_page_output_path] always returns: the depth bound is never
    reached. *)
Lemma page_output_path_total m page_id root :
  ∃ r m', _page_output_path m page_id root = Some (r, m') ∧ same_caches m m'.
Proof.
  apply resolve_total. unfold resolve_fuel.
  pose proof (unvisited_size m ∅). lia.
Qed.

End resolution.

(** ** Ids that were never discovered *)

Section undiscovered.

Import NotionMirror.

Lemma cache_get_str c s : cache_get c (JStr s) = Ok (c !! s).
Proof. reflexivity. Qed.

Lemma ensure_page_str m s :
  _ensure_page m (JStr s)
  = Ok (or_placeholder (_page_cache m !! s) (placeholder_page (JStr s))).
Proof. reflexivity. Qed.

Lemma ensure_database_str m s :
  _ensure_database m (JStr s)
  = Ok (or_placeholder (_db_cache m !! s) (placeholder_database (JStr s))).
Proof. reflexivity. Qed.

Lemma ensure_page_cached m s page :
  _page_cache m !! s = Some page → page ≠ [] → _ensure_page m (JStr s) = Ok page.
Proof.
  intros H Hne. rewrite ensure_page_str, H.
  destruct page; [congruence|reflexivity].
Qed.

Lemma ensure_page_placeholder m id :
  _page_cache m !! id = None → _ensure_page m (JStr id) = Ok (placeholder_page (JStr id)).
Proof. intros H. rewrite ensure_page_str, H. reflexivity. Qed.

Lemma ensure_database_placeholder m id :
  _db_cache m !! id = None →
  _ensure_database m (JStr id) = Ok (placeholder_database (JStr id)).
Proof. intros H. rewrite ensure_database_str, H. reflexivity. Qed.

Lemma id8_str id : _id8 (JStr id) = Ok (id_suffix id).
Proof.
  unfold _id8, py_or, truthy.
  destruct (String.eqb id "") eqn:E; [|reflexivity].
  apply String.eqb_eq in E. subst id. reflexivity.
Qed.

Lemma id8_or_empty id : _id8 (py_or (JStr id) (JStr "")) = Ok (id_suffix id).
Proof.
  unfold py_or, truthy.
  destruct (String.eqb id "") eqn:E; [|apply id8_str].
  apply String.eqb_eq in E. subst id. reflexivity.
Qed.

Lemma placeholder_file_name id :
  _page_file_name (placeholder_page (JStr id))
  = Ok ("untitled_page_" +:+ id_suffix id +:+ ".md").
Proof.
  unfold _page_file_name.
  change (page_title (placeholder_page (JStr id))) with (Ok (A := string) "untitled_page").
  cbn [mbind result_bind].
  change (dict_get (placeholder_page (JStr id)) "id") with (JStr id).
  rewrite id8_or_empty. reflexivity.
Qed.

Lemma joinpath_bucket root bucket file :
  is_absolute bucket = false → is_absolute file = false →
  joinpath (joinpath root bucket) file = root ++ components bucket ++ components file.
Proof.
  intros Hb Hf. rewrite !joinpath_relative by assumption. rewrite app_assoc. reflexivity.
Qed.

(** With a page parent the result is a path whenever the page's own
    file name can be built: a failure below is caught and the page goes
    to the orphans. *)
Lemma resolve_page_parent_ok fuel root s stack m page parent :
  (size (unvisited m stack) < fuel)%nat →
  cached m root (KStr s) = None →
  KStr s ∉ stack →
  _ensure_page m (JStr s) = Ok page →
  or_empty_dict (dict_get page "parent") = Ok parent →
  dict_get parent "type" = JStr "page_id" →
  is_ok (_page_file_name page) = true →
  ∃ p m', resolve fuel root (JStr s) stack m = Some (Ok p, m').
Proof.
  intros Hfuel Hmiss Hout Hpage Hparent Htype Hname.
  destruct fuel as [|fuel]; [lia|].
  cbn [resolve hash_key]. rewrite Hmiss.
  destruct (decide (KStr s ∈ stack)); [contradiction|].
  rewrite Hpage. cbn [mbind result_bind]. rewrite Hparent.
  cbn [mbind result_bind]. rewrite Htype.
  change (is_str (JStr "page_id") "workspace") with false.
  change (is_str (JStr "page_id") "database_id") with false.
  change (is_str (JStr "page_id") "page_id") with true. cbv iota.
  destruct (ensure_page_has_parent _ _ _ _ Hpage Hparent) as (s' & [= <-] & Hs).
  { rewrite Htype. reflexivity. }
  destruct (resolve_total fuel root (dict_get parent "page_id") ({[KStr s]} ∪ stack) m)
    as (r & m' & -> & _).
  { pose proof (unvisited_shrinks m stack s (mk_is_Some _ _ Hs) Hout). lia. }
  destruct (_page_file_name page) as [file|]; [|discriminate].
  destruct r as [pp|e]; cbn.
  - destruct (with_suffix_empty pp); cbn; eauto.
  - eauto.
Qed.


Lemma page_parent_resolves m root child parent_id :
  has_page_parent m child parent_id →
  ∃ p m', _page_output_path m (JStr child) root = Some (Ok p, m').
Proof.
  intros (page & parent & Hc & Hne & Hparent & Htype & _ & Hname).
  unfold _page_output_path.
  destruct (cached m root (KStr child)) as [p|] eqn:Hmiss.
  { unfold resolve_fuel. cbn [resolve hash_key]. rewrite Hmiss. eauto. }
  apply (resolve_page_parent_ok _ root child ∅ m page parent);
    [|assumption|set_solver|apply ensure_page_cached; assumption
     |assumption|assumption|assumption].
  unfold resolve_fuel. pose proof (unvisited_size m ∅). lia.
Qed.

Lemma undiscovered_page_path m root id :
  _page_cache m !! id = None →
  cached m root (KStr id) = None →
  let p := root ++ "_other" :: components ("untitled_page_" +:+ id_suffix id +:+ ".md") in
  _page_output_path m (JStr id) root
  = Some (Ok p, set_page_path_cache (<[KStr id := p]> (_page_path_cache m)) m).
Proof.
  intros Hnone Hmiss p. unfold _page_output_path, resolve_fuel.
  cbn [resolve hash_key]. rewrite Hmiss.
  destruct (decide (KStr id ∈ ∅)) as [Hin|_]; [set_solver|].
  rewrite (ensure_page_placeholder _ _ Hnone).
  cbn [mbind result_bind].
  change (or_empty_dict (dict_get (placeholder_page (JStr id)) "parent"))
    with (Ok (A := jobj) []).
  cbn [mbind result_bind].
  change (is_str (dict_get [] "type") "workspace") with false.
  change (is_str (dict_get [] "type") "database_id") with false.
  change (is_str (dict_get [] "type") "page_id") with false. cbv iota.
  rewrite placeholder_file_name. cbn [mbind result_bind remember].
  rewrite joinpath_bucket; [reflexivity|reflexivity|].
  apply (page_file_name_relative (placeholder_page (JStr id))), placeholder_file_name.
Qed.

End undiscovered.

(** C10.  For an id that is in neither cache: the page and the database
    looked up are the placeholders, whose titles are ["untitled_page"]
    and ["untitled_db"]; the id suffix is built for every id and is
    ["unknown"] for an empty one; the file name and the database folder
    are built; resolving the path of the id returns a path (under
    [_other] unless a path is memoized), and so does resolving any page
    whose parent is this id. *)
Theorem undiscovered_id_resolves (m : NotionMirror.t) (root : path) (id : string) :
  NotionMirror._page_cache m !! id = None →
  NotionMirror._db_cache m !! id = None →
  NotionMirror._ensure_page m (JStr id) = Ok (placeholder_page (JStr id))
  ∧ page_title (placeholder_page (JStr id)) = Ok "untitled_page"
  ∧ NotionMirror._ensure_database m (JStr id) = Ok (placeholder_database (JStr id))
  ∧ database_title (placeholder_database (JStr id)) = Ok "untitled_db"
  ∧ _id8 (JStr id) = Ok (id_suffix id)
  ∧ _id8 (JStr "") = Ok "unknown"
  ∧ NotionMirror._page_file_name (placeholder_page (JStr id))
    = Ok ("untitled_page_" +:+ id_suffix id +:+ ".md")
  ∧ NotionMirror._database_folder_path m (JStr id) root
    = Ok (root ++ components ("DB_untitled_db_" +:+ id_suffix id))
  ∧ (∃ p m', NotionMirror._page_output_path m (JStr id) root = Some (Ok p, m'))
  ∧ (NotionMirror.cached m root (NotionMirror.KStr id) = None →
     ∃ m', NotionMirror._page_output_path m (JStr id) root
           = Some (Ok (root ++ "_other"
                         :: components ("untitled_page_" +:+ id_suffix id +:+ ".md")),
                   m'))
  ∧ (∀ child, has_page_parent m child (JStr id) →
       ∃ p m', NotionMirror._page_output_path m (JStr child) root = Some (Ok p, m')).
Proof.
  intros Hpage Hdb.
  split; [apply ensure_page_placeholder, Hpage|].
  split; [reflexivity|].
  split; [apply ensure_database_placeholder, Hdb|].
  split; [reflexivity|].
  split; [apply id8_str|].
  split; [reflexivity|].
  split; [apply placeholder_file_name|].
  split.
  { unfold NotionMirror._database_folder_path.
    rewrite (ensure_database_placeholder _ _ Hdb). cbn [mbind result_bind].
    change (database_title (placeholder_database (JStr id)))
      with (Ok (A := string) "untitled_db").
    cbn [mbind result_bind]. rewrite id8_str. cbn [mbind result_bind].
    rewrite joinpath_relative by reflexivity. reflexivity. }
  split.
  { destruct (NotionMirror.cached m root (NotionMirror.KStr id)) as [p|] eqn:Hmiss.
    - unfold NotionMirror._page_output_path, NotionMirror.resolve_fuel.
      cbn [NotionMirror.resolve NotionMirror.hash_key]. rewrite Hmiss. eauto.
    - rewrite (undiscovered_page_path m root id Hpage Hmiss). eauto. }
  split.
  { intros Hmiss. rewrite (undiscovered_page_path m root id Hpage Hmiss). eauto. }
  intros child Hchild. eapply page_parent_resolves, Hchild.
Qed.

Lemma undiscovered_id_resolves_witness :
  NotionMirror._page_output_path (NotionMirror.__init__ ["out"]) (JStr "") ["out"]
  = Some (Ok ["out"; "_other"; "untitled_page_unknown.md"],
          NotionMirror.set_page_path_cache
            {[NotionMirror.KStr "" := ["out"; "_other"; "untitled_page_unknown.md"]]}
            (NotionMirror.__init__ ["out"]))
  ∧ ∃ p m', NotionMirror._page_output_path (NotionMirror.__init__ ["out"]) (JStr "") ["out"]
            = Some (Ok p, m').
Proof.
  split; [reflexivity|].
  exact (proj1 (proj2 (proj2 (proj2 (proj2 (proj2 (proj2 (proj2 (proj2
           (undiscovered_id_resolves (NotionMirror.__init__ ["out"]) ["out"] ""
              eq_refl eq_refl)))))))))).
Defined.

(** ** Cycles of parent references *)

Section cycles.

Import NotionMirror.

Lemma resolve_page_step fuel root s stack m page parent :
  cached m root (KStr s) = None →
  KStr s ∉ stack →
  _ensure_page m (JStr s) = Ok page →
  or_empty_dict (dict_get page "parent") = Ok parent →
  dict_get parent "type" = JStr "page_id" →
  resolve (S fuel) root (JStr s) stack m
  = match resolve fuel root (dict_get parent "page_id") ({[KStr s]} ∪ stack) m with
    | None => None
    | Some (r, m') =>
        Some (remember (KStr s)
                (try_except
                   (parent_path ← r;
                    parent_dir ← with_suffix_empty parent_path;
                    file ← _page_file_name page;
                    Ok (joinpath parent_dir file))
                   (fun _ =>
                      file ← _page_file_name page;
                      Ok (joinpath (joinpath root "_orphans") file)))
                m')
    end.
Proof.
  intros Hmiss Hout Hpage Hparent Htype.
  cbn [resolve hash_key]. rewrite Hmiss.
  destruct (decide (KStr s ∈ stack)); [contradiction|].
  rewrite Hpage. cbn [mbind result_bind]. rewrite Hparent.
  cbn [mbind result_bind]. rewrite Htype.
  change (is_str (JStr "page_id") "workspace") with false.
  change (is_str (JStr "page_id") "database_id") with false.
  change (is_str (JStr "page_id") "page_id") with true. reflexivity.
Qed.

Lemma in_cycles_bucket_strip root p :
  in_cycles_bucket root p →
  ∃ p0, with_suffix_empty p = Ok p0 ∧ in_cycles_bucket root p0.
Proof.
  intros [rest ->]. unfold with_suffix_empty.
  destruct ((root ++ ["_cycles"]) ++ rest) as [|x l] eqn:E.
  { destruct root; discriminate. }
  rewrite <- E. clear E x l. eexists. split; [reflexivity|].
  destruct rest as [|y rest] using rev_ind.
  - rewrite app_nil_r. unfold name. rewrite removelast_last, last_last.
    exists []. rewrite app_nil_r. reflexivity.
  - rewrite app_assoc, removelast_last.
    exists (rest ++ [strip_suffix (name (((root ++ ["_cycles"]) ++ rest) ++ [y]))]).
    rewrite app_assoc. reflexivity.
Qed.

Lemma in_cycles_bucket_join root p file :
  in_cycles_bucket root p → is_absolute file = false →
  in_cycles_bucket root (joinpath p file).
Proof.
  intros [rest ->] Hf. rewrite joinpath_relative by assumption.
  exists (rest ++ components file). rewrite app_assoc. reflexivity.
Qed.

Lemma cached_bucket m root k p :
  _page_path_cache m !! k = Some p → in_cycles_bucket root p →
  cached m root k = Some p.
Proof.
  intros H [rest ->]. unfold cached. rewrite H.
  rewrite <- app_assoc, path_str_prefix. reflexivity.
Qed.

Lemma has_page_parent_named m x parent_id : has_page_parent m x parent_id → named m x.
Proof.
  intros (page & parent & Hc & Hne & _ & _ & _ & Hname).
  exists page. split; [apply ensure_page_cached; assumption|assumption].
Qed.

(** Walking down a chain of page parents that ends at a page already on
    the stack: that page goes to [_cycles], and every page of the chain
    is placed below it on the way back. *)
Lemma chain_resolves root m z : ∀ ids stack fuel,
  (length ids < fuel)%nat →
  NoDup ids →
  (∀ x, x ∈ ids → (KStr x ∉ stack) ∧ cached m root (KStr x) = None) →
  parent_chain m ids z →
  KStr z ∈ stack → cached m root (KStr z) = None → named m z →
  ∃ p m',
    resolve fuel root (JStr (hd z ids)) stack m = Some (Ok p, m')
    ∧ in_cycles_bucket root p
    ∧ same_caches m m'
    ∧ (∀ x, x ∈ z :: ids →
         ∃ q, _page_path_cache m' !! KStr x = Some q ∧ in_cycles_bucket root q).
Proof.
  induction ids as [|x ids IH]; intros stack fuel Hfuel Hnodup Hfresh Hchain Hz Hzmiss Hznamed.
  - destruct fuel as [|fuel]; [simpl in Hfuel; lia|].
    destruct Hznamed as (page & Hpage & Hname).
    cbn [hd resolve hash_key]. rewrite Hzmiss.
    destruct (decide (KStr z ∈ stack)); [|contradiction].
    rewrite Hpage. cbn [mbind result_bind].
    destruct (_page_file_name page) as [file|] eqn:Hfile; [|discriminate].
    cbn [mbind result_bind remember].
    assert (Hb : in_cycles_bucket root (joinpath (joinpath root "_cycles") file)).
    { apply in_cycles_bucket_join; [|eapply page_file_name_relative; eassumption].
      rewrite joinpath_relative by reflexivity. exists []. rewrite app_nil_r. reflexivity. }
    eexists _, _. split; [reflexivity|]. split; [exact Hb|].
    split; [repeat split|].
    intros y Hy. apply list_elem_of_singleton in Hy as ->.
    eexists. split; [apply lookup_insert_eq|exact Hb].
  - destruct fuel as [|fuel]; [simpl in Hfuel; lia|].
    destruct Hchain as [Hx Hchain].
    destruct (Hfresh x) as [Hxout Hxmiss]; [left|].
    pose proof Hx as (page & parent & Hc & Hne & Hparent & Htype & Hpid & Hname).
    apply NoDup_cons in Hnodup as [Hxnotin Hnodup].
    cbn [hd].
    rewrite (resolve_page_step fuel root x stack m page parent Hxmiss Hxout
               (ensure_page_cached _ _ _ Hc Hne) Hparent Htype).
    rewrite Hpid.
    destruct (IH ({[KStr x]} ∪ stack) fuel) as (p & m' & -> & Hp & Hsame & Hmemo);
      [simpl in Hfuel; lia|assumption| |assumption|set_solver|assumption|assumption|].
    { intros y Hy. destruct (Hfresh y) as [Hyout Hymiss]; [right; assumption|].
      split; [|assumption].
      intros Hin. apply elem_of_union in Hin as [Hin|Hin]; [|contradiction].
      apply elem_of_singleton in Hin. injection Hin as ->. contradiction. }
    destruct (in_cycles_bucket_strip root p Hp) as (p0 & Hp0 & Hb0).
    destruct (_page_file_name page) as [file|] eqn:Hfile; [|discriminate].
    cbn [mbind result_bind]. rewrite Hp0. cbn [mbind result_bind try_except remember].
    assert (Hb : in_cycles_bucket root (joinpath p0 file)).
    { apply in_cycles_bucket_join; [assumption|eapply page_file_name_relative; eassumption]. }
    eexists _, _. split; [reflexivity|]. split; [exact Hb|].
    split; [destruct Hsame as (? & ? & ? & ?); repeat split; assumption|].
    intros y Hy. cbn [_page_path_cache set_page_path_cache].
    destruct (decide (y = x)) as [->|Hne'].
    + eexists. split; [apply lookup_insert_eq|exact Hb].
    + destruct (Hmemo y) as (q & Hq & Hbq).
      { apply elem_of_cons in Hy as [->|Hy]; [left|].
        apply elem_of_cons in Hy as [->|Hy]; [contradiction|right; assumption]. }
      exists q. split; [|assumption].
      rewrite lookup_insert_ne by congruence. exact Hq.
Qed.


Lemma distinct_keys_length (c : gmap string jobj) (ids : list string) :
  NoDup ids → (∀ x, x ∈ ids → is_Some (c !! x)) → (length ids ≤ size c)%nat.
Proof.
  intros Hnodup Hin. rewrite <- size_dom. unfold size, set_size. simpl.
  apply submseteq_length, NoDup_submseteq; [assumption|].
  intros x Hx. apply elem_of_elements, elem_of_dom, Hin, Hx.
Qed.

Lemma parent_chain_cached m z : ∀ ids x,
  parent_chain m ids z → x ∈ ids → is_Some (_page_cache m !! x).
Proof.
  induction ids as [|y ids IH]; intros x Hchain Hx; [inversion Hx|].
  destruct Hchain as [(page & parent & Hc & _) Hchain].
  apply elem_of_cons in Hx as [->|Hx]; [eauto|apply IH; assumption].
Qed.

(** Resolving the first page of a cycle, with depth for one call more
    than the cycle has pages. *)
Lemma cycle_resolves m root first rest fuel :
  parent_cycle m (first :: rest) →
  (∀ x, x ∈ first :: rest → cached m root (KStr x) = None) →
  (length (first :: rest) < fuel)%nat →
  ∃ p m',
    resolve fuel root (JStr first) ∅ m = Some (Ok p, m')
    ∧ in_cycles_bucket root p
    ∧ ∀ x, x ∈ first :: rest →
        ∃ q, _page_path_cache m' !! KStr x = Some q
             ∧ in_cycles_bucket root q
             ∧ cached m' root (KStr x) = Some q.
Proof.
  intros [Hnodup Hchain] Hfresh Hfuel.
  destruct fuel as [|fuel]; [simpl in Hfuel; lia|].
  destruct Hchain as [Hfirst Hchain].
  pose proof Hfirst as (page & parent & Hc & Hne & Hparent & Htype & Hpid & Hname).
  apply NoDup_cons in Hnodup as [Hnotin Hnodup].
  rewrite (resolve_page_step _ root first ∅ m page parent);
    [|apply Hfresh; left|set_solver|apply ensure_page_cached; assumption
     |assumption|assumption].
  rewrite Hpid.
  destruct (chain_resolves root m first rest ({[KStr first]} ∪ ∅) fuel)
    as (p & m' & -> & Hp & Hsame & Hmemo);
    [simpl in Hfuel; lia|assumption| |assumption|set_solver|apply Hfresh; left
    |eapply has_page_parent_named; eassumption|].
  { intros y Hy. split; [|apply Hfresh; right; assumption].
    intros Hin. apply elem_of_union in Hin as [Hin|Hin]; [|set_solver].
    apply elem_of_singleton in Hin. injection Hin as ->. contradiction. }
  destruct (in_cycles_bucket_strip root p Hp) as (p0 & Hp0 & Hb0).
  destruct (_page_file_name page) as [file|] eqn:Hfile; [|discriminate].
  cbn [mbind result_bind]. rewrite Hp0. cbn [mbind result_bind try_except remember].
  assert (Hb : in_cycles_bucket root (joinpath p0 file)).
  { apply in_cycles_bucket_join; [assumption|eapply page_file_name_relative; eassumption]. }
  eexists _, _. split; [reflexivity|]. split; [exact Hb|].
  intros x Hx.
  set (m'' := set_page_path_cache _ m').
  assert (Hq : ∃ q, _page_path_cache m'' !! KStr x = Some q ∧ in_cycles_bucket root q).
  { subst m''. cbn [_page_path_cache set_page_path_cache].
    destruct (decide (x = first)) as [->|Hne'].
    - eexists. split; [apply lookup_insert_eq|exact Hb].
    - destruct (Hmemo x) as (q & Hq & Hbq).
      { apply elem_of_cons in Hx as [->|Hx]; [contradiction|right; assumption]. }
      exists q. split; [|assumption].
      rewrite lookup_insert_ne by congruence. exact Hq. }
  destruct Hq as (q & Hq & Hbq). exists q. split; [assumption|]. split; [assumption|].
  apply (cached_bucket m'' root (KStr x) q Hq Hbq).
Qed.

End cycles.

(** ** Resolution under the recursion limit *)

Section recursion_limit.

Import NotionMirror.

(** A call that stays within the depth [fuel] gives the same result
    whenever there is room for at least [fuel] nested calls. *)
Lemma resolve_limited_agrees fuel : ∀ root page_id stack m rm frames,
  resolve fuel root page_id stack m = Some rm →
  (fuel <= frames)%nat →
  resolve_limited frames root page_id stack m = rm.
Proof.
  induction fuel as [|fuel IH]; intros root page_id stack m rm frames H Hle;
    [discriminate|].
  destruct frames as [|frames]; [lia|].
  cbn [resolve resolve_limited] in *.
  destruct (hash_key page_id) as [k|e]; [|congruence].
  destruct (cached m root k) as [p|]; [congruence|].
  destruct (decide (k ∈ stack)); [congruence|].
  destruct (_ ← _ensure_page m page_id; _) as [[page par]|e]; [|congruence].
  destruct (is_str (dict_get par "type") "workspace"); [congruence|].
  destruct (is_str (dict_get par "type") "database_id"); [congruence|].
  destruct (is_str (dict_get par "type") "page_id"); [|congruence].
  destruct (resolve fuel root _ _ m) as [[r m']|] eqn:Hrec; [|discriminate].
  rewrite (IH _ _ _ _ _ frames Hrec) by lia. congruence.
Qed.

Lemma is_str_eq v s : is_str v s = true → v = JStr s.
Proof.
  destruct v as [| | |s'| |]; try discriminate. cbn [is_str].
  intros H. apply String.eqb_eq in H as ->. reflexivity.
Qed.

Lemma has_page_parent_b_sound m id parent_id :
  has_page_parent_b m id parent_id = true → has_page_parent m id (JStr parent_id).
Proof.
  unfold has_page_parent_b, has_page_parent.
  destruct (_page_cache m !! id) as [[|kv page]|]; try discriminate.
  destruct (or_empty_dict (dict_get (kv :: page) "parent")) as [parent|e] eqn:Hparent;
    [|discriminate].
  rewrite !andb_true_iff. intros [[Htype Hpid] Hname].
  exists (kv :: page), parent.
  split; [reflexivity|]. split; [discriminate|]. split; [exact Hparent|].
  split; [apply is_str_eq, Htype|]. split; [apply is_str_eq, Hpid|exact Hname].
Qed.

Lemma parent_chain_b_sound m last_parent : ∀ ids,
  parent_chain_b m ids last_parent = true → parent_chain m ids last_parent.
Proof.
  induction ids as [|x ids IH]; cbn [parent_chain_b parent_chain]; [auto|].
  rewrite andb_true_iff. intros [Hx Hrest].
  split; [apply has_page_parent_b_sound, Hx|apply IH, Hrest].
Qed.

Lemma parent_cycle_b_sound m ids : parent_cycle_b m ids = true → parent_cycle m ids.
Proof.
  unfold parent_cycle_b, parent_cycle. rewrite andb_true_iff. intros [Hnd Hchain].
  split; [apply bool_decide_eq_true in Hnd; exact Hnd|].
  destruct ids as [|first rest]; [discriminate|].
  apply parent_chain_b_sound, Hchain.
Qed.

(** The helpers of [_page_output_path] raise for ill-typed objects
    only: a [RecursionError] comes from a call without room. *)
Lemma quiet_ok {A} (a : A) : quiet_failure (Ok a).
Proof. intros e [=]. Qed.

Lemma quiet_raise {A} (e : exn) : e ≠ RecursionError → quiet_failure (Raise e : result A).
Proof. intros He e' [= <-]. exact He. Qed.

Lemma quiet_cast {A B} (e : exn) :
  quiet_failure (Raise e : result A) → quiet_failure (Raise e : result B).
Proof. intros H e' [= <-]. exact (H e eq_refl). Qed.

Lemma quiet_bind {A B} (r : result A) (k : A → result B) :
  quiet_failure r → (∀ a, quiet_failure (k a)) → quiet_failure (r ≫= k).
Proof.
  intros Hr Hk. destruct r as [a|e]; cbn [mbind result_bind]; [apply Hk|].
  intros e' [= <-]. apply (Hr e eq_refl).
Qed.

Ltac quiet_step :=
  first [ apply quiet_ok
        | apply quiet_raise; discriminate
        | apply quiet_bind; [|intros ?] ].

Lemma or_empty_dict_quiet v : quiet_failure (or_empty_dict v).
Proof.
  unfold or_empty_dict, as_dict. destruct (truthy v); [|quiet_step].
  destruct v; quiet_step.
Qed.

Lemma rich_text_item_quiet rt : quiet_failure (rich_text_item rt).
Proof.
  unfold rich_text_item, as_dict.
  destruct rt as [| | | | |fields]; try (apply quiet_raise; discriminate).
  cbn zeta. destruct (py_or _ _); try (apply quiet_raise; discriminate).
  pose proof (or_empty_dict_quiet (dict_get fields "annotations")) as H.
  destruct (or_empty_dict _) as [ann|e]; [apply quiet_ok|].
  intros e' [= <-]. apply (H e eq_refl).
Qed.

Lemma rich_text_parts_quiet items : quiet_failure (rich_text_parts items).
Proof.
  induction items as [|rt items IH]; cbn [rich_text_parts]; [quiet_step|].
  pose proof (rich_text_item_quiet rt) as Hitem.
  destruct (rich_text_item rt) as [text|e]; [|exact (quiet_cast _ Hitem)].
  destruct (rich_text_parts items) as [parts|e]; [quiet_step|exact IH].
Qed.

Lemma rich_text_to_md_quiet v : quiet_failure (rich_text_to_md v).
Proof.
  unfold rich_text_to_md. destruct (negb (truthy v)); [apply quiet_ok|].
  destruct v as [| | | |items|]; try (apply quiet_raise; discriminate).
  pose proof (rich_text_parts_quiet items) as Hparts.
  destruct (rich_text_parts items) as [parts|e]; [quiet_step|].
  intros e' [= <-]. apply (Hparts e eq_refl).
Qed.

Lemma page_title_quiet page : quiet_failure (page_title page).
Proof.
  unfold page_title. destruct (negb _); [quiet_step|].
  pose proof (or_empty_dict_quiet (dict_get page "properties")) as Hprops.
  destruct (or_empty_dict (dict_get page "properties")) as [props|e];
    [|intros e' [= <-]; apply (Hprops e eq_refl)].
  clear Hprops. induction props as [|[k v] props IH]; cbn [page_title_loop]; [quiet_step|].
  pose proof (or_empty_dict_quiet v) as Hv.
  destruct (or_empty_dict v) as [v'|e]; [|intros e' [= <-]; apply (Hv e eq_refl)].
  destruct (is_str _ _); [|exact IH].
  pose proof (rich_text_to_md_quiet (dict_get v' "title")) as Ht.
  destruct (rich_text_to_md _) as [t|e]; [quiet_step|].
  intros e' [= <-]. apply (Ht e eq_refl).
Qed.

Lemma database_title_quiet db : quiet_failure (database_title db).
Proof.
  unfold database_title. destruct (negb _); [quiet_step|].
  pose proof (rich_text_to_md_quiet (dict_get db "title")) as Ht.
  destruct (rich_text_to_md _) as [t|e]; [quiet_step|].
  intros e' [= <-]. apply (Ht e eq_refl).
Qed.

Lemma id8_quiet v : quiet_failure (_id8 v).
Proof. unfold _id8. destruct (py_or v (JStr "")); quiet_step. Qed.

Lemma page_file_name_quiet page : quiet_failure (_page_file_name page).
Proof.
  unfold _page_file_name.
  repeat first [ apply page_title_quiet | apply id8_quiet | quiet_step ].
Qed.

Lemma hash_key_quiet v : quiet_failure (hash_key v).
Proof. unfold hash_key. destruct v; quiet_step. Qed.

Lemma cache_get_quiet c v : quiet_failure (cache_get c v).
Proof. unfold cache_get. repeat first [ apply hash_key_quiet | quiet_step ]. Qed.

Lemma ensure_page_quiet m v : quiet_failure (_ensure_page m v).
Proof. unfold _ensure_page. repeat first [ apply cache_get_quiet | quiet_step ]. Qed.

Lemma database_folder_path_quiet m v root :
  quiet_failure (_database_folder_path m v root).
Proof.
  unfold _database_folder_path, _ensure_database.
  repeat first [ apply cache_get_quiet | apply database_title_quiet | apply id8_quiet
               | quiet_step ].
Qed.

Lemma remember_quiet k r m : quiet_failure r → quiet_failure (remember k r m).1.
Proof. intros H. destruct r; [quiet_step|exact H]. Qed.

(** With room for the call itself, no [RecursionError] comes out of
    it: the one of a call further down is caught on the way. *)
Lemma resolve_limited_quiet frames root page_id stack m :
  quiet_failure (resolve_limited (S frames) root page_id stack m).1.
Proof.
  cbn [resolve_limited].
  pose proof (hash_key_quiet page_id) as Hk.
  destruct (hash_key page_id) as [k|e]; [|exact (quiet_cast _ Hk)].
  destruct (cached m root k); [apply quiet_ok|].
  destruct (decide (k ∈ stack)).
  { apply remember_quiet.
    repeat first [ apply ensure_page_quiet | apply page_file_name_quiet | quiet_step ]. }
  match goal with
  | |- context [match ?r with Ok _ => _ | Raise _ => _ end] =>
      assert (quiet_failure r) as Hr
        by (repeat first [ apply ensure_page_quiet | apply or_empty_dict_quiet
                         | quiet_step ]);
      destruct r as [[page par]|e]; [|exact (quiet_cast _ Hr)]
  end.
  destruct (is_str (dict_get par "type") "workspace").
  { apply remember_quiet. repeat first [ apply page_file_name_quiet | quiet_step ]. }
  destruct (is_str (dict_get par "type") "database_id").
  { apply remember_quiet.
    repeat first [ apply database_folder_path_quiet | apply page_file_name_quiet
                 | quiet_step ]. }
  destruct (is_str (dict_get par "type") "page_id").
  { destruct (resolve_limited frames root _ _ m) as [r m'].
    apply remember_quiet. unfold try_except.
    destruct (_ ← r; _); [apply quiet_ok|].
    repeat first [ apply page_file_name_quiet | quiet_step ]. }
  apply remember_quiet. repeat first [ apply page_file_name_quiet | quiet_step ].
Qed.

Lemma resolve_limited_page_step frames root s stack m page parent :
  cached m root (KStr s) = None →
  KStr s ∉ stack →
  _ensure_page m (JStr s) = Ok page →
  or_empty_dict (dict_get page "parent") = Ok parent →
  dict_get parent "type" = JStr "page_id" →
  resolve_limited (S frames) root (JStr s) stack m
  = (let (r, m') :=
       resolve_limited frames root (dict_get parent "page_id") ({[KStr s]} ∪ stack) m in
     remember (KStr s)
       (try_except
          (parent_path ← r;
           parent_dir ← with_suffix_empty parent_path;
           file ← _page_file_name page;
           Ok (joinpath parent_dir file))
          (fun _ =>
             file ← _page_file_name page;
             Ok (joinpath (joinpath root "_orphans") file)))
       m').
Proof.
  intros Hmiss Hout Hpage Hparent Htype.
  cbn [resolve_limited hash_key]. rewrite Hmiss.
  destruct (decide (KStr s ∈ stack)); [contradiction|].
  rewrite Hpage. cbn [mbind result_bind]. rewrite Hparent.
  cbn [mbind result_bind]. rewrite Htype.
  change (is_str (JStr "page_id") "workspace") with false.
  change (is_str (JStr "page_id") "database_id") with false.
  change (is_str (JStr "page_id") "page_id") with true. reflexivity.
Qed.

Lemma in_orphans_bucket_strip root p :
  in_orphans_bucket root p →
  ∃ p0, with_suffix_empty p = Ok p0 ∧ in_orphans_bucket root p0.
Proof.
  intros [rest ->]. unfold with_suffix_empty.
  destruct ((root ++ ["_orphans"]) ++ rest) as [|x l] eqn:E.
  { destruct root; discriminate. }
  rewrite <- E. clear E x l. eexists. split; [reflexivity|].
  destruct rest as [|y rest] using rev_ind.
  - rewrite app_nil_r. unfold name. rewrite removelast_last, last_last.
    exists []. rewrite app_nil_r. reflexivity.
  - rewrite app_assoc, removelast_last.
    exists (rest ++ [strip_suffix (name (((root ++ ["_orphans"]) ++ rest) ++ [y]))]).
    rewrite app_assoc. reflexivity.
Qed.

Lemma in_orphans_bucket_join root p file :
  in_orphans_bucket root p → is_absolute file = false →
  in_orphans_bucket root (joinpath p file).
Proof.
  intros [rest ->] Hf. rewrite joinpath_relative by assumption.
  exists (rest ++ components file). rewrite app_assoc. reflexivity.
Qed.

Lemma cached_orphan m root k p :
  _page_path_cache m !! k = Some p → in_orphans_bucket root p →
  cached m root k = Some p.
Proof.
  intros H [rest ->]. unfold cached. rewrite H.
  rewrite <- app_assoc, path_str_prefix. reflexivity.
Qed.

Lemma orphans_not_cycles root p :
  in_orphans_bucket root p → ¬ in_cycles_bucket root p.
Proof.
  intros [r1 ->] [r2 H]. rewrite <- !app_assoc in H.
  apply app_inv_head in H. discriminate H.
Qed.

(** Walking down a chain of page parents that is as long as there is
    room for nested calls: the call for the parent of the last page
    raises [RecursionError], the last page goes to [_orphans], and every
    page of the chain is placed below it on the way back. *)
Lemma chain_exhausts root m z : ∀ ids stack,
  ids ≠ [] →
  NoDup ids →
  (∀ x, x ∈ ids → (KStr x ∉ stack) ∧ cached m root (KStr x) = None) →
  parent_chain m ids z →
  ∃ p m',
    resolve_limited (length ids) root (JStr (hd z ids)) stack m = (Ok p, m')
    ∧ in_orphans_bucket root p
    ∧ same_caches m m'
    ∧ (∀ x, x ∈ ids →
         ∃ q, _page_path_cache m' !! KStr x = Some q ∧ in_orphans_bucket root q).
Proof.
  induction ids as [|x ids IH]; intros stack Hne Hnodup Hfresh Hchain; [congruence|].
  destruct Hchain as [Hx Hchain].
  destruct (Hfresh x) as [Hxout Hxmiss]; [left|].
  pose proof Hx as (page & parent & Hc & Hnepage & Hparent & Htype & Hpid & Hname).
  apply NoDup_cons in Hnodup as [Hxnotin Hnodup].
  cbn [hd length].
  rewrite (resolve_limited_page_step (length ids) root x stack m page parent Hxmiss Hxout
             (ensure_page_cached _ _ _ Hc Hnepage) Hparent Htype).
  rewrite Hpid.
  destruct (_page_file_name page) as [file|] eqn:Hfile; [|discriminate].
  destruct ids as [|y ids].
  - cbn [length resolve_limited mbind result_bind try_except remember].
    assert (Hb : in_orphans_bucket root (joinpath (joinpath root "_orphans") file)).
    { apply in_orphans_bucket_join; [|eapply page_file_name_relative; eassumption].
      rewrite joinpath_relative by reflexivity. exists []. rewrite app_nil_r. reflexivity. }
    eexists _, _. split; [reflexivity|]. split; [exact Hb|].
    split; [repeat split|].
    intros w Hw. apply list_elem_of_singleton in Hw as ->.
    eexists. split; [apply lookup_insert_eq|exact Hb].
  - destruct (IH ({[KStr x]} ∪ stack)) as (p & m' & Hres & Hp & Hsame & Hmemo);
      [discriminate|assumption| |assumption|].
    { intros w Hw. destruct (Hfresh w) as [Hwout Hwmiss]; [right; assumption|].
      split; [|assumption].
      intros Hin. apply elem_of_union in Hin as [Hin|Hin]; [|contradiction].
      apply elem_of_singleton in Hin. injection Hin as ->. contradiction. }
    rewrite Hres.
    destruct (in_orphans_bucket_strip root p Hp) as (p0 & Hp0 & Hb0).
    cbn [mbind result_bind]. rewrite Hp0. cbn [mbind result_bind try_except remember].
    assert (Hb : in_orphans_bucket root (joinpath p0 file)).
    { apply in_orphans_bucket_join; [assumption|eapply page_file_name_relative; eassumption]. }
    eexists _, _. split; [reflexivity|]. split; [exact Hb|].
    split; [destruct Hsame as (? & ? & ? & ?); repeat split; assumption|].
    intros w Hw. cbn [_page_path_cache set_page_path_cache].
    destruct (decide (w = x)) as [->|Hne'].
    + eexists. split; [apply lookup_insert_eq|exact Hb].
    + destruct (Hmemo w) as (q & Hq & Hbq).
      { apply elem_of_cons in Hw as [->|Hw]; [contradiction|assumption]. }
      exists q. split; [|assumption].
      rewrite lookup_insert_ne by congruence. exact Hq.
Qed.

(** *** The ring of [n] pages *)

Lemma map_is_fmap {A B} (f : A → B) (l : list A) : List.map f l = f <$> l.
Proof. induction l as [|x l IH]; [reflexivity|]. cbn. rewrite IH. reflexivity. Qed.

Lemma ring_id_inj i j : ring_id i = ring_id j → i = j.
Proof.
  unfold ring_id. intros H.
  change ("p" +:+ pretty i) with (String "p" (pretty i)) in H.
  change ("p" +:+ pretty j) with (String "p" (pretty j)) in H.
  injection H as H. exact (pretty_nat_inj _ _ H).
Qed.

Lemma NoDup_ring_ids n : NoDup (ring_ids n).
Proof.
  unfold ring_ids. rewrite map_is_fmap.
  apply NoDup_fmap_2; [intros i j; apply ring_id_inj|apply NoDup_seq].
Qed.

Lemma ring_lookup n i :
  (i < n)%nat → _page_cache (ring_mirror n) !! ring_id i = Some (ring_page n i).
Proof.
  intros Hi. unfold ring_mirror. cbn [_page_cache set_page_cache].
  rewrite map_is_fmap. apply elem_of_list_to_map_1.
  - rewrite <- list_fmap_compose.
    apply NoDup_fmap_2; [intros a b; apply ring_id_inj|apply NoDup_seq].
  - apply list_elem_of_fmap. exists i. split; [reflexivity|].
    apply elem_of_seq. lia.
Qed.

Lemma ring_page_named n i : is_ok (_page_file_name (ring_page n i)) = true.
Proof.
  unfold _page_file_name.
  assert (Htitle : ∃ t, page_title (ring_page n i) = Ok t) by (eexists; reflexivity).
  destruct Htitle as [t ->]. cbn [mbind result_bind].
  change (dict_get (ring_page n i) "id") with (JStr (ring_id i)).
  rewrite id8_or_empty. reflexivity.
Qed.

Lemma ring_has_parent n i :
  (i < n)%nat →
  has_page_parent (ring_mirror n) (ring_id i) (JStr (ring_id (S i mod n))).
Proof.
  intros Hi.
  exists (ring_page n i),
    [("type", JStr "page_id"); ("page_id", JStr (ring_id (S i mod n)))].
  split; [apply ring_lookup; exact Hi|]. split; [discriminate|].
  split; [reflexivity|]. split; [reflexivity|]. split; [reflexivity|].
  apply ring_page_named.
Qed.

Lemma ring_chain n : ∀ len start,
  (start + len = n)%nat →
  parent_chain (ring_mirror n) (List.map ring_id (seq start len)) (ring_id 0).
Proof.
  induction len as [|len IH]; intros start Hn; [exact I|].
  cbn [seq List.map parent_chain]. split; [|apply IH; lia].
  pose proof (ring_has_parent n start ltac:(lia)) as Hp.
  destruct len as [|len]; cbn [seq List.map hd].
  - replace (S start mod n)%nat with 0%nat in Hp; [exact Hp|].
    replace n with (S start) by lia. symmetry. apply Nat.Div0.mod_same.
  - rewrite Nat.mod_small in Hp by lia. exact Hp.
Qed.

Lemma ring_is_cycle n : (0 < n)%nat → parent_cycle (ring_mirror n) (ring_ids n).
Proof.
  intros Hn. split; [apply NoDup_ring_ids|].
  pose proof (ring_chain n n 0 eq_refl) as Hchain. unfold ring_ids.
  destruct n as [|n]; [lia|]. exact Hchain.
Qed.

(** A ring of as many pages as there is room for nested calls: no call
    ever finds its id on the stack, and every page of the ring is
    memoized under [_orphans]. *)
Lemma ring_exhausts n :
  (0 < n)%nat →
  ∃ p m',
    _page_output_path_limited n (ring_mirror n) (JStr (ring_id 0)) mirror_dir = (Ok p, m')
    ∧ ∀ x, x ∈ ring_ids n →
        ∃ q, _page_path_cache m' !! KStr x = Some q
             ∧ in_orphans_bucket mirror_dir q
             ∧ ¬ in_cycles_bucket mirror_dir q
             ∧ _page_output_path_limited n m' (JStr x) mirror_dir = (Ok q, m').
Proof.
  intros Hn.
  destruct (ring_is_cycle n Hn) as [Hnodup Hchain].
  assert (Hhd : hd (ring_id 0) (ring_ids n) = ring_id 0)
    by (destruct n; [lia|reflexivity]).
  assert (Hchain' : parent_chain (ring_mirror n) (ring_ids n) (ring_id 0)).
  { unfold ring_ids in *. destruct n as [|n']; [lia|]. exact Hchain. }
  destruct (chain_exhausts mirror_dir (ring_mirror n) (ring_id 0) (ring_ids n) ∅)
    as (p & m' & Hres & _ & _ & Hmemo); [| assumption | | assumption |].
  { unfold ring_ids. destruct n; [lia|discriminate]. }
  { intros x _. split; [set_solver|]. unfold cached.
    change (_page_path_cache (ring_mirror n)) with (∅ : gmap key path).
    rewrite lookup_empty. reflexivity. }
  rewrite Hhd in Hres. unfold ring_ids in Hres at 1.
  rewrite length_map, length_seq in Hres.
  exists p, m'. split; [exact Hres|].
  intros x Hx. destruct (Hmemo x Hx) as (q & Hq & Hbq).
  exists q. split; [exact Hq|]. split; [exact Hbq|].
  split; [apply orphans_not_cycles; exact Hbq|].
  unfold _page_output_path_limited. destruct n as [|n']; [lia|].
  cbn [resolve_limited hash_key]. rewrite (cached_orphan m' mirror_dir _ q Hq Hbq).
  reflexivity.
Qed.

End recursion_limit.

(** C5 (amended).  Path resolution returns for every id, every state of
    the caches and every room for nested calls, cyclic parents or not.
    When the page parents of distinct pages form a cycle, none of them
    is memoized, and there is room for one nested call more than the
    cycle has pages, resolving the first page yields a path under the
    [_cycles] bucket of the root, every page of the cycle is memoized
    with a path under that bucket, and resolving any of them again
    returns its memoized path.  A [RecursionError] never comes out of a
    call for which there is room. *)
Theorem cycle_safety_within_recursion_limit (frames : nat) (m : NotionMirror.t)
  (root : path) :
  (∀ page_id, ∃ r m',
     NotionMirror._page_output_path_limited frames m page_id root = (r, m')
     ∧ ((0 < frames)%nat → r ≠ Raise RecursionError))
  ∧ ∀ first rest,
      parent_cycle m (first :: rest) →
      (∀ x, x ∈ first :: rest → NotionMirror.cached m root (NotionMirror.KStr x) = None) →
      (length (first :: rest) < frames)%nat →
      ∃ p m',
        NotionMirror._page_output_path_limited frames m (JStr first) root = (Ok p, m')
        ∧ in_cycles_bucket root p
        ∧ ∀ x, x ∈ first :: rest →
            ∃ q, NotionMirror._page_path_cache m' !! NotionMirror.KStr x = Some q
                 ∧ in_cycles_bucket root q
                 ∧ NotionMirror._page_output_path_limited frames m' (JStr x) root
                   = (Ok q, m').
Proof.
  split.
  - intros page_id.
    destruct (NotionMirror._page_output_path_limited frames m page_id root) as [r m']
      eqn:Hres.
    exists r, m'. split; [reflexivity|]. intros Hroom.
    destruct frames as [|frames']; [lia|].
    pose proof (resolve_limited_quiet frames' root page_id ∅ m) as Hquiet.
    unfold NotionMirror._page_output_path_limited in Hres. rewrite Hres in Hquiet.
    intros ->. exact (Hquiet _ eq_refl eq_refl).
  - intros first rest Hcycle Hfresh Hroom.
    destruct (cycle_resolves m root first rest frames Hcycle Hfresh Hroom)
      as (p & m' & Hres & Hp & Hmemo).
    exists p, m'. split; [|split; [exact Hp|]].
    + apply (resolve_limited_agrees frames _ _ _ _ _ frames Hres). lia.
    + intros x Hx. destruct (Hmemo x Hx) as (q & Hq & Hbq & Hcached).
      exists q. split; [exact Hq|]. split; [exact Hbq|].
      unfold NotionMirror._page_output_path_limited.
      destruct frames as [|frames']; [simpl in Hroom; lia|].
      cbn [NotionMirror.resolve_limited NotionMirror.hash_key]. rewrite Hcached.
      reflexivity.
Qed.

Lemma cycle_safety_within_recursion_limit_witness :
  parent_cycle (ring_mirror 3) (ring_ids 3)
  ∧ ∃ p m',
      NotionMirror._page_output_path_limited 4 (ring_mirror 3) (JStr "p0") mirror_dir
      = (Ok p, m')
      ∧ in_cycles_bucket mirror_dir p.
Proof.
  assert (parent_cycle (ring_mirror 3) (ring_ids 3)) as Hcycle
    by (apply parent_cycle_b_sound; vm_compute; reflexivity).
  split; [exact Hcycle|].
  destruct (cycle_safety_within_recursion_limit 4 (ring_mirror 3) mirror_dir)
    as [_ H].
  destruct (H "p0" ["p1"; "p2"] Hcycle) as (p & m' & Hres & Hp & _).
  - intros x Hx. vm_compute in Hx.
    repeat (apply elem_of_cons in Hx as [->|Hx]; [vm_compute; reflexivity|]).
    apply elem_of_nil in Hx as [].
  - cbn. lia.
  - eauto.
Defined.

(** A ring of 1000 pages, resolved with room for 1000 nested calls (the
    default recursion limit of CPython is 1000 frames, and the run has
    frames of its own on the stack): the call for the parent of the
    last page finds no room, its [RecursionError] is caught as a failed
    parent, and every page of the ring is memoized under [_orphans];
    none is under [_cycles], and resolving any of them again returns
    its memoized path. *)
Lemma long_cycle_lands_in_orphans :
  parent_cycle (ring_mirror 1000) (ring_ids 1000)
  ∧ NotionMirror._page_path_cache (ring_mirror 1000) = ∅
  ∧ ∃ p m',
      NotionMirror._page_output_path_limited 1000 (ring_mirror 1000)
        (JStr (ring_id 0)) mirror_dir = (Ok p, m')
      ∧ ∀ x, x ∈ ring_ids 1000 →
          ∃ q, NotionMirror._page_path_cache m' !! NotionMirror.KStr x = Some q
               ∧ in_orphans_bucket mirror_dir q
               ∧ ¬ in_cycles_bucket mirror_dir q
               ∧ NotionMirror._page_output_path_limited 1000 m' (JStr x) mirror_dir
                 = (Ok q, m').
Proof.
  split; [apply ring_is_cycle; lia|].
  split; [reflexivity|].
  apply ring_exhausts. lia.
Qed.

(** ** The scenario of one database with one page *)

(** C9, as the specification states it, fails: the full rebuild writes
    no file [DB_Tasks_d1/Buy_milk_p1.md]; [safe_name] keeps the space of
    the title. *)
Lemma scenario_no_underscore_name :
  NotionMirror.files scenario_run1.2 !! (mirror_dir ++ ["DB_Tasks_d1"; "Buy_milk_p1.md"])
  = None
  ∧ safe_name "Buy milk" "page" = "Buy milk".
Proof. split; vm_compute; reflexivity. Qed.

(** C9, amended.  The full rebuild writes [DB_Tasks_d1/__database.md],
    which lists "Buy milk", and [DB_Tasks_d1/Buy milk_p1.md]; the
    incremental run with P unchanged writes no object file (it rewrites
    [index.md] and the index) and deletes nothing; with P changed to
    [t2] the page file is the only object file rewritten, and the index
    entry of P carries [t2]. *)
Theorem scenario_one_database_one_page :
  (scenario_run1.1
   = Ok {| NotionMirror.local_dir := mirror_dir;
           NotionMirror.pages_written := 1;
           NotionMirror.databases_written := 1 |}
   ∧ (∃ text, file_text (NotionMirror.files scenario_run1.2)
                (mirror_dir ++ ["DB_Tasks_d1"; "__database.md"]) = Some text
              ∧ contains "- [Buy milk](Buy milk_p1.md)" text = true)
   ∧ fs_is_file (NotionMirror.files scenario_run1.2)
       (mirror_dir ++ ["DB_Tasks_d1"; "Buy milk_p1.md"]) = true)
  ∧ (scenario_run2.1
     = Ok {| NotionMirror.local_dir := mirror_dir;
             NotionMirror.pages_written := 0;
             NotionMirror.databases_written := 0 |}
     ∧ written_paths (NotionMirror.trace scenario_run2.2)
       = [mirror_dir ++ ["index.md"]; mirror_dir ++ [".mirror_index.json"]]
     ∧ deleted_paths (NotionMirror.trace scenario_run2.2) = [])
  ∧ (scenario_run3.1
     = Ok {| NotionMirror.local_dir := mirror_dir;
             NotionMirror.pages_written := 1;
             NotionMirror.databases_written := 0 |}
     ∧ written_paths (NotionMirror.trace scenario_run3.2)
       = [mirror_dir ++ ["DB_Tasks_d1"; "Buy milk_p1.md"];
          mirror_dir ++ ["index.md"]; mirror_dir ++ [".mirror_index.json"]]
     ∧ deleted_paths (NotionMirror.trace scenario_run3.2) = []
     ∧ saved_page_entry (NotionMirror.files scenario_run3.2) mirror_dir "p1"
       = JObj [("last_edited_time", JStr "t2");
               ("path", JStr "DB_Tasks_d1/Buy milk_p1.md")]).
Proof.
  split; [|split].
  - split; [vm_compute; reflexivity|]. split; [|vm_compute; reflexivity].
    eexists. split; vm_compute; reflexivity.
  - repeat split; vm_compute; reflexivity.
  - repeat split; vm_compute; reflexivity.
Qed.

(** ** Reasoning about the steps of a run *)

Section steps.

Import NotionMirror.

Lemma bind_eq {A B} (c : M A) (k : A → M B) w :
  (c ≫= k) w
  = match c w with
    | (Ok a, w') => k a w'
    | (Raise e, w') => (Raise e, w')
    end.
Proof. reflexivity. Qed.

Lemma bind_ok {A B} (c : M A) (k : A → M B) w b w' :
  (c ≫= k) w = (Ok b, w') →
  ∃ a w1, c w = (Ok a, w1) ∧ k a w1 = (Ok b, w').
Proof.
  rewrite bind_eq. destruct (c w) as [[a|e] w1]; [eauto|discriminate].
Qed.

Lemma lift_ok {A} (r : result A) w a w' :
  lift r w = (Ok a, w') → r = Ok a ∧ w' = w.
Proof. unfold lift. intros [= -> ->]. auto. Qed.

Lemma ret_ok {A} (a : A) w b w' :
  (mret a : M A) w = (Ok b, w') → b = a ∧ w' = w.
Proof. unfold mret, M_ret. intros [= -> ->]. auto. Qed.

Lemma get_self_ok w m w' : get_self w = (Ok m, w') → m = self w ∧ w' = w.
Proof. unfold get_self. intros [= <- <-]. auto. Qed.

Lemma get_files_ok w f w' : get_files w = (Ok f, w') → f = files w ∧ w' = w.
Proof. unfold get_files. intros [= <- <-]. auto. Qed.

Lemma fs_ok call w u w' :
  fs call w = (Ok u, w') →
  ∃ f evs, call (files w) = Ok (f, evs)
           ∧ w' = {| self := self w; files := f; trace := trace w ++ evs |}.
Proof.
  unfold fs. destruct (call (files w)) as [[f evs]|e]; [|discriminate].
  intros [= _ <-]. eauto.
Qed.

Lemma on_self_ok {A} (c : t → result A * t) w a w' :
  on_self c w = (Ok a, w') →
  ∃ m, c (self w) = (Ok a, m)
       ∧ w' = {| self := m; files := files w; trace := trace w |}.
Proof.
  unfold on_self. destruct (c (self w)) as [r m]. intros [= -> <-]. eauto.
Qed.

Lemma world_eta w : {| self := self w; files := files w; trace := trace w |} = w.
Proof. destruct w; reflexivity. Qed.

Section keeps.

Variable R : world → world → Prop.
Hypothesis R_refl : ∀ w, R w w.
Hypothesis R_trans : ∀ w1 w2 w3, R w1 w2 → R w2 w3 → R w1 w3.

Lemma keeps_ret {A} (a : A) : keeps R (mret a : M A).
Proof. intros w. apply R_refl. Qed.

Lemma keeps_lift {A} (r : result A) : keeps R (lift r).
Proof. intros w. apply R_refl. Qed.

Lemma keeps_get_self : keeps R get_self.
Proof. intros w. apply R_refl. Qed.

Lemma keeps_get_files : keeps R get_files.
Proof. intros w. apply R_refl. Qed.

Lemma keeps_bind {A B} (c : M A) (k : A → M B) :
  keeps R c → (∀ a, keeps R (k a)) → keeps R (c ≫= k).
Proof.
  intros Hc Hk w. rewrite bind_eq. specialize (Hc w).
  destruct (c w) as [[a|e] w1]; simpl in *; [|assumption].
  eapply R_trans; [exact Hc|apply Hk].
Qed.

Lemma keeps_try {A} (c : M A) (h : exn → M A) :
  keeps R c → (∀ e, keeps R (h e)) → keeps R (try_M c h).
Proof.
  intros Hc Hh w. unfold try_M. specialize (Hc w).
  destruct (c w) as [[a|e] w1]; simpl in *; [assumption|].
  eapply R_trans; [exact Hc|apply Hh].
Qed.

Lemma keeps_for_each {A} (l : list A) (body : A → M unit) :
  (∀ x, keeps R (body x)) → keeps R (for_each l body).
Proof.
  intros Hb. induction l as [|x l IH]; [apply keeps_ret|].
  cbn [for_each]. apply keeps_bind; [apply Hb|intros _; exact IH].
Qed.

Lemma keeps_gather (handle : string → M (option outcome)) ids :
  (∀ id, keeps R (handle id)) → keeps R (gather handle ids).
Proof.
  intros Hh. induction ids as [|id ids IH]; [apply keeps_ret|].
  cbn [gather]. apply keeps_bind; [apply Hh|intros o].
  apply keeps_bind; [exact IH|intros rest; apply keeps_ret].
Qed.

End keeps.

End steps.

(** Reading a hypothesis that says a step returned normally. *)
Ltac ok_leaf H :=
  lazymatch type of H with
  | NotionMirror.lift _ _ = (Ok _, _) =>
      let E := fresh "E" in
      apply lift_ok in H as [H E]; subst
  | mret _ _ = (Ok _, _) =>
      let E := fresh "E" in
      apply ret_ok in H as [H E]; subst
  | NotionMirror.get_self _ = (Ok _, _) =>
      let E := fresh "E" in
      apply get_self_ok in H as [H E]; subst
  | NotionMirror.get_files _ = (Ok _, _) =>
      let E := fresh "E" in
      apply get_files_ok in H as [H E]; subst
  | NotionMirror.fs _ _ = (Ok _, _) =>
      let f := fresh "f" in
      let evs := fresh "evs" in
      let E := fresh "E" in
      apply fs_ok in H as (f & evs & H & E); subst
  end.

(** [ok_bind H as a w H1]: the first step of [H] returned [a] in world
    [w] ([H1]); [H] becomes the rest. *)
Tactic Notation "ok_bind" hyp(H) "as"
    simple_intropattern(a) simple_intropattern(w) ident(H1) :=
  apply bind_ok in H as (a & w & H1 & H); try ok_leaf H1.

(** One step of a proof that a computation keeps a relation: the shape
    of the computation selects the rule. *)
Ltac keeps_step Hrefl Htrans :=
  lazymatch goal with
  | |- keeps _ (mbind _ _) => apply (keeps_bind _ Htrans); [|intros ?]
  | |- keeps _ (mret _) => apply (keeps_ret _ Hrefl)
  | |- keeps _ (NotionMirror.lift _) => apply (keeps_lift _ Hrefl)
  | |- keeps _ NotionMirror.get_self => apply (keeps_get_self _ Hrefl)
  | |- keeps _ NotionMirror.get_files => apply (keeps_get_files _ Hrefl)
  | |- keeps _ (NotionMirror.try_M _ _) => apply (keeps_try _ Htrans); [|intros ?]
  | |- keeps _ (NotionMirror.for_each _ _) =>
      apply (keeps_for_each _ Hrefl Htrans); intros ?
  | |- keeps _ (NotionMirror.gather _ _) =>
      apply (keeps_gather _ Hrefl Htrans); intros ?
  | |- keeps _ (if ?b then _ else _) => destruct b
  | |- keeps _ (match ?x with _ => _ end) => destruct x
  end.

(** ** Steps that keep the cached objects *)

Section objects_kept.

Import NotionMirror.

Lemma objects_kept_refl w : objects_kept w w.
Proof. repeat split. Qed.

Lemma objects_kept_trans w1 w2 w3 :
  objects_kept w1 w2 → objects_kept w2 w3 → objects_kept w1 w3.
Proof.
  unfold objects_kept, same_objects.
  intros (-> & -> & ->) (-> & -> & ->). repeat split.
Qed.

Lemma same_caches_objects m m' : same_caches m m' → same_objects m m'.
Proof. unfold same_caches, same_objects. tauto. Qed.

Lemma keeps_fs_objects call : keeps objects_kept (fs call).
Proof.
  intros w. unfold fs. destruct (call (files w)) as [[f evs]|e]; repeat split.
Qed.

Lemma keeps_page_output_path page_id root :
  keeps objects_kept (page_output_path page_id root).
Proof.
  intros w. unfold page_output_path, on_self.
  destruct (_page_output_path (self w) page_id root) as [[r m']|] eqn:Hres.
  - destruct (page_output_path_total (self w) page_id root) as (r0 & m0 & H0 & Hsame).
    rewrite Hres in H0. injection H0 as <- <-.
    destruct r; apply same_caches_objects, Hsame.
  - repeat split.
Qed.

Lemma keeps_add_inaccessible entries :
  keeps objects_kept
    (on_self (fun m =>
       (Ok (), set_inaccessible_blocks (_inaccessible_blocks m ++ entries) m))).
Proof. intros w. repeat split. Qed.

End objects_kept.

Ltac objects_step :=
  first [ apply keeps_fs_objects
        | apply keeps_page_output_path
        | apply keeps_add_inaccessible
        | keeps_step objects_kept_refl objects_kept_trans ].

(** ** Soft failures of the write phase *)

(** C4, as the specification states it, fails: when the blocks of P
    cannot be read, the run completes, P's file is written with a
    placeholder line, and P is in the new index. *)
Lemma unreadable_page_is_indexed :
  is_ok unreadable_run.1 = true
  ∧ fs_is_file (NotionMirror.files unreadable_run.2)
      (mirror_dir ++ ["DB_Tasks_d1"; "Buy milk_p1.md"]) = true
  ∧ saved_page_entry (NotionMirror.files unreadable_run.2) mirror_dir "p1"
    = JObj [("last_edited_time", JStr "t1");
            ("path", JStr "DB_Tasks_d1/Buy milk_p1.md")].
Proof. repeat split; vm_compute; reflexivity. Qed.

(** A failure of the file system, on the other hand, is not caught by
    the task: the first page cannot be written, the run ends with the
    error, and neither the second page nor an index is written. *)
Lemma write_failure_ends_the_run :
  blocked_run.1 = Raise (OSError "exists and is not a directory")
  ∧ written_paths (NotionMirror.trace blocked_run.2) = [].
Proof. split; vm_compute; reflexivity. Qed.

Section soft_failures.

Import NotionMirror.

Variable client : remote.

Lemma content_failure_is_recorded dest page w title props recorded e :
  page_title page = Ok title →
  _page_properties_md client page = Ok props →
  content_fails client (py_or (dict_get page "id") (JStr "")) recorded e →
  ∃ before,
    _write_page_markdown_async client dest page w
    = fs (write_text dest
            (Text (join_lines
                     (before ++ ["- (content not accessible; check access report)"; ""]))))
         (add_inaccessible
            (recorded ++ [(py_or (dict_get page "id") (JStr ""),
                           py_or (dict_get page "id") (JStr ""), exn_str e)]) w).
Proof.
  intros Htitle Hprops Hfail.
  unfold _write_page_markdown_async.
  unfold mbind at 1, M_bind at 1, lift at 1. rewrite Htitle.
  unfold mbind at 1, M_bind at 1, lift at 1. rewrite Hprops.
  unfold mbind at 1, M_bind at 1, try_M.
  match goal with
  | |- context [fs (write_text dest (Text (join_lines (?lines ++ _ ++ [""]))))] =>
      exists lines
  end.
  destruct Hfail as [[Hlist ->]|(blocks & Hlist & Hrender)].
  - unfold mbind at 1, M_bind at 1, lift at 1. rewrite Hlist.
    unfold mbind, M_bind, on_self, mret, M_ret. cbn [self files trace].
    reflexivity.
  - unfold mbind at 1, M_bind at 1, lift at 1. rewrite Hlist, Hrender.
    unfold mbind, M_bind, on_self, mret, M_ret, lift. cbn [self files trace].
    unfold add_inaccessible. cbn [self files trace _inaccessible_blocks
                                  set_inaccessible_blocks].
    rewrite <- !app_assoc. reflexivity.
Qed.

End soft_failures.

(** ** What the file-system calls do when they succeed *)

Section fs_calls.

Lemma write_text_ok p c f f' evs :
  write_text p c f = Ok (f', evs) →
  f' = <[p := File c]> f ∧ evs = [Write p c]
  ∧ p ≠ [] ∧ fs_is_dir f (parent p) = true ∧ f !! p ≠ Some Dir.
Proof.
  unfold write_text. destruct p as [|s p]; [discriminate|].
  destruct (fs_is_dir f (parent (s :: p))); [|discriminate]. cbn [negb].
  destruct (f !! (s :: p)) as [[c'|]|] eqn:Hp; intros [= <- <-]; repeat split;
    congruence.
Qed.

Lemma unlink_ok p f f' evs :
  unlink p f = Ok (f', evs) →
  f' = delete p f ∧ evs = [Unlink p] ∧ fs_is_file f p = true.
Proof.
  unfold unlink, fs_is_file. destruct (f !! p) as [[c|]|]; intros [= <- <-]; auto.
Qed.

Lemma mkdir_p_ok p f f' evs :
  mkdir_p p f = Ok (f', evs) →
  ∃ qs, mkdir_walk f [] p = Ok qs ∧ f' = add_dirs f qs ∧ evs = List.map Mkdir qs.
Proof.
  unfold mkdir_p. destruct (mkdir_walk f [] p) as [qs|e]; intros [= <- <-]; eauto.
Qed.

End fs_calls.

(** ** The tasks of the write phase *)

Section tasks.

Import NotionMirror.

Variable client : remote.

Lemma only_adds_issues_refl w : only_adds_issues w w.
Proof.
  exists []. unfold add_inaccessible. rewrite app_nil_r.
  destruct w as [[] ? ?]; reflexivity.
Qed.

Lemma only_adds_issues_trans w1 w2 w3 :
  only_adds_issues w1 w2 → only_adds_issues w2 w3 → only_adds_issues w1 w3.
Proof.
  intros [e1 ->] [e2 ->]. exists (e1 ++ e2).
  unfold add_inaccessible. cbn. rewrite app_assoc. reflexivity.
Qed.

Lemma keeps_issues_added entries :
  keeps only_adds_issues
    (on_self (fun m =>
       (Ok (), set_inaccessible_blocks (_inaccessible_blocks m ++ entries) m))).
Proof. intros w. exists entries. reflexivity. Qed.

(** A page file that is written holds one text, and the task changes
    nothing else on the disk; in the mirror object it only adds to the
    access issues. *)
Lemma write_page_markdown_ok dest page w w' :
  _write_page_markdown_async client dest page w = (Ok (), w') →
  ∃ text entries,
    dest ≠ [] ∧ fs_is_dir (files w) (parent dest) = true
    ∧ files w !! dest ≠ Some Dir
    ∧ w' = {| self := self (add_inaccessible entries w);
              files := <[dest := File (Text text)]> (files w);
              trace := trace w ++ [Write dest (Text text)] |}.
Proof.
  unfold _write_page_markdown_async. intros H.
  ok_bind H as title w1 Htitle. ok_bind H as props w1 Hprops.
  ok_bind H as content w2 Hcontent.
  ok_leaf H. apply write_text_ok in H as (-> & -> & Hne & Hdir & Hnd).
  match type of Hcontent with
  | ?c w = _ => assert (keeps only_adds_issues c) as Hkeeps
  end.
  { repeat first [ apply keeps_issues_added
                 | keeps_step only_adds_issues_refl only_adds_issues_trans ]. }
  specialize (Hkeeps w). rewrite Hcontent in Hkeeps. cbn [snd] in Hkeeps.
  destruct Hkeeps as [entries ->].
  eexists _, entries. repeat split; assumption.
Qed.

Lemma page_output_path_ok page_id root w dest w' :
  page_output_path page_id root w = (Ok dest, w') →
  ∃ m1, _page_output_path (self w) page_id root = Some (Ok dest, m1)
        ∧ same_caches (self w) m1
        ∧ w' = {| self := m1; files := files w; trace := trace w |}.
Proof.
  intros H. unfold page_output_path in H. apply on_self_ok in H as (m1 & H & ->).
  destruct (page_output_path_total (self w) page_id root) as (r & m' & Hres & Hsame).
  rewrite Hres in H. injection H as -> ->. eauto.
Qed.

(** What a page task that returns has done, step by step. *)
Lemma handle_page_ok root incremental prev_pages pid w o w' :
  handle_page client root incremental prev_pages pid w = (Ok o, w') →
  ∃ page,
    _ensure_page (self w) (JStr pid) = Ok page
    ∧ if truthy (dict_get page "archived") then o = None ∧ w' = w
      else
        ∃ dest m1 qs rel (up_to_date : bool) w2,
          _page_output_path (self w) (JStr pid) root = Some (Ok dest, m1)
          ∧ same_caches (self w) m1
          ∧ mkdir_walk (files w) [] (parent dest) = Ok qs
          ∧ relative_to dest root = Ok rel
          ∧ (if incremental && negb (is_none prev_pages)
             then check_previous root prev_pages pid
                    (py_or (dict_get page "last_edited_time") (JStr ""))
                    (as_posix rel) dest
             else mret false)
              {| self := m1; files := add_dirs (files w) qs;
                 trace := trace w ++ List.map Mkdir qs |}
            = (Ok up_to_date, w2)
          ∧ o = Some (pid,
                      index_entry (py_or (dict_get page "last_edited_time") (JStr ""))
                                  (as_posix rel),
                      if up_to_date then 0%nat else 1%nat)
          ∧ if up_to_date then w' = w2
            else _write_page_markdown_async client dest page w2 = (Ok (), w').
Proof.
  unfold handle_page. intros H.
  ok_bind H as page w0 Hpage.
  ok_bind Hpage as m w1 Hm. ok_leaf Hpage. rename Hpage into Hensure.
  exists page. split; [exact Hensure|].
  destruct (truthy (dict_get page "archived")).
  { ok_leaf H. auto. }
  ok_bind H as dest w1 Hdest.
  apply page_output_path_ok in Hdest as (m1 & Hdest & Hsame & ->).
  ok_bind H as u w1 Hmk. apply mkdir_p_ok in Hmk as (qs & Hqs & -> & ->).
  cbn [self files trace] in H.
  ok_bind H as rel w1 Hrel.
  ok_bind H as up w2 Hup.
  exists dest, m1, qs, rel, up, w2.
  repeat (split; [assumption|]).
  destruct up.
  - ok_leaf H. auto.
  - ok_bind H as u' w3 Hwrite. ok_leaf H. destruct u'. auto.
Qed.

End tasks.

(** ** Pruning empty directories *)

Section pruning.

Import NotionMirror.

Lemma rmdir_ok p f f' evs :
  rmdir p f = Ok (f', evs) →
  is_empty_dir f p = true ∧ f' = delete p f ∧ evs = [Rmdir p].
Proof.
  unfold rmdir, is_empty_dir. destruct p as [|s p]; [discriminate|].
  destruct (f !! (s :: p)) as [[c|]|]; try discriminate.
  destruct (size (children f (s :: p)) =? 0)%nat; [|discriminate].
  intros [= <- <-]. auto.
Qed.

Lemma rmdir_raise p f e :
  rmdir p f = Raise e → is_empty_dir f p = false ∧ is_OSError e = true.
Proof.
  unfold rmdir, is_empty_dir. destruct p as [|s p]; [intros [= <-]; auto|].
  destruct (f !! (s :: p)) as [[c|]|]; try (intros [= <-]; auto).
  destruct (size (children f (s :: p)) =? 0)%nat; [discriminate|].
  intros [= <-]; auto.
Qed.

Lemma is_empty_dir_exists f p : is_empty_dir f p = true → f !! p = Some Dir.
Proof.
  unfold is_empty_dir. destruct p; [discriminate|].
  destruct (f !! (s :: p)) as [[c|]|]; congruence.
Qed.

(** [_cleanup_empty_dirs] never raises; it removes the directories of
    one pruning, and changes nothing else. *)
Lemma cleanup_loop_spec root rcur : ∀ w,
  ∃ ds f',
    pruning root (files w) rcur ds f'
    ∧ cleanup_loop rcur root w
      = (Ok (), {| self := self w; files := f';
                   trace := trace w ++ List.map Rmdir ds |}).
Proof.
  induction rcur as [|c rparent IH]; intros w.
  { exists [], (files w). split; [constructor; auto|].
    cbn. rewrite app_nil_r, world_eta. reflexivity. }
  cbn [cleanup_loop]. rewrite bind_eq. unfold get_files at 1.
  destruct (bool_decide (rev (c :: rparent) ≠ root)) eqn:Hroot; cbn [andb].
  2: { exists [], (files w). split.
       - constructor. left. apply bool_decide_eq_false in Hroot.
         destruct (decide (rev (c :: rparent) = root)); tauto.
       - cbn [List.map]. rewrite app_nil_r, world_eta. reflexivity. }
  apply bool_decide_eq_true in Hroot.
  destruct (fs_exists (files w) (rev (c :: rparent))) eqn:Hex.
  2: { exists [], (files w). split.
       - constructor. right. unfold is_empty_dir. unfold fs_exists in Hex.
         destruct (rev (c :: rparent)); [discriminate|].
         destruct (files w !! (s :: l)); [discriminate|reflexivity].
       - cbn [List.map]. rewrite app_nil_r, world_eta. reflexivity. }
  rewrite bind_eq. unfold try_M. rewrite bind_eq. unfold fs at 1.
  destruct (rmdir (rev (c :: rparent)) (files w)) as [[f1 evs]|e] eqn:Hrm.
  - apply rmdir_ok in Hrm as (Hempty & -> & ->).
    destruct (IH {| self := self w; files := delete (rev (c :: rparent)) (files w);
                    trace := trace w ++ [Rmdir (rev (c :: rparent))] |})
      as (ds & f' & Hpr & Hrun).
    exists (rev (c :: rparent) :: ds), f'. split.
    + constructor; assumption.
    + unfold mret at 1, M_ret at 1. cbn iota beta. rewrite Hrun.
      cbn [self files trace List.map]. rewrite <- app_assoc. reflexivity.
  - apply rmdir_raise in Hrm as [Hempty Hos]. rewrite Hos.
    exists [], (files w). split.
    + constructor. auto.
    + cbn [List.map]. rewrite app_nil_r, world_eta. reflexivity.
Qed.

Lemma cleanup_empty_dirs_spec start_dir root w :
  ∃ ds f',
    pruning root (files w) (rev start_dir) ds f'
    ∧ _cleanup_empty_dirs start_dir root w
      = (Ok (), {| self := self w; files := f';
                   trace := trace w ++ List.map Rmdir ds |}).
Proof. apply cleanup_loop_spec. Qed.

(** What a pruning removes: directories on the way up from the start,
    never the root; everything else stays. *)
Lemma pruning_removed root f rcur ds f' :
  pruning root f rcur ds f' →
  ∀ d, d ∈ ds → d `prefix_of` rev rcur ∧ d ≠ root ∧ d ≠ [] ∧ f !! d = Some Dir.
Proof.
  induction 1 as [f rcur Hstop|f c rparent ds f' Hroot Hempty Hpr IH];
    intros d Hd.
  { apply elem_of_nil in Hd as []. }
  apply elem_of_cons in Hd as [->|Hd].
  - split; [reflexivity|]. split; [assumption|]. split.
    + cbn [rev]. intros Heq. apply app_eq_nil in Heq as [_ [=]].
    + apply is_empty_dir_exists, Hempty.
  - destruct (IH d Hd) as (Hpre & Hne & Hnil & Hdir). repeat split; try assumption.
    + cbn [rev]. etransitivity; [exact Hpre|]. apply prefix_app_r. reflexivity.
    + apply lookup_delete_Some in Hdir as [_ Hdir]. exact Hdir.
Qed.

Lemma pruning_lookup root f rcur ds f' :
  pruning root f rcur ds f' →
  ∀ p, f' !! p = if decide (p ∈ ds) then None else f !! p.
Proof.
  induction 1 as [f rcur Hstop|f c rparent ds f' Hroot Hempty Hpr IH]; intros p.
  { destruct (decide (p ∈ [])) as [Hin|]; [apply elem_of_nil in Hin as []|reflexivity]. }
  rewrite IH. destruct (decide (p ∈ ds)) as [Hin|Hout].
  - rewrite decide_True; [reflexivity|]. apply elem_of_cons. auto.
  - destruct (decide (p = rev (c :: rparent))) as [->|Hne].
    + rewrite decide_True by (apply elem_of_cons; auto). apply lookup_delete_eq.
    + rewrite decide_False by (rewrite elem_of_cons; tauto).
      apply lookup_delete_ne. congruence.
Qed.

(** A pruning deletes no file. *)
Lemma pruning_keeps_files root f rcur ds f' p c :
  pruning root f rcur ds f' →
  f !! p = Some (File c) → f' !! p = Some (File c).
Proof.
  intros Hpr Hp. rewrite (pruning_lookup _ _ _ _ _ Hpr).
  destruct (decide (p ∈ ds)) as [Hin|]; [|exact Hp].
  apply (pruning_removed _ _ _ _ _ Hpr) in Hin as (_ & _ & _ & Hdir). congruence.
Qed.

Lemma pruning_subset root f rcur ds f' p :
  pruning root f rcur ds f' → f !! p = None → f' !! p = None.
Proof.
  intros Hpr Hp. rewrite (pruning_lookup _ _ _ _ _ Hpr).
  destruct (decide (p ∈ ds)); [reflexivity|exact Hp].
Qed.

(** When the start is at or below the root, every directory removed is
    strictly below the root. *)
Lemma pruning_below root f rcur ds f' :
  pruning root f rcur ds f' →
  root `prefix_of` rev rcur →
  ∀ d, d ∈ ds → strictly_below root d.
Proof.
  induction 1 as [f rcur Hstop|f c rparent ds f' Hroot Hempty Hpr IH];
    intros Hunder d Hd.
  { apply elem_of_nil in Hd as []. }
  assert (root `prefix_of` rev rparent) as Hparent.
  { destruct Hunder as [k Hk]. cbn [rev] in Hk, Hroot.
    destruct (decide (k = [])) as [->|Hk'].
    - rewrite app_nil_r in Hk. congruence.
    - destruct (exists_last Hk') as (k' & x & ->).
      rewrite app_assoc in Hk. apply app_inj_tail in Hk as [Hk _].
      exists k'. exact Hk. }
  apply elem_of_cons in Hd as [->|Hd].
  - split; assumption.
  - apply IH; assumption.
Qed.

End pruning.

(** ** The page tasks keep the cached objects *)

Section page_tasks.

Import NotionMirror.

Variable client : remote.

Lemma keeps_cleanup_empty_dirs start_dir root :
  keeps objects_kept (_cleanup_empty_dirs start_dir root).
Proof.
  intros w. destruct (cleanup_empty_dirs_spec start_dir root w) as (ds & f' & _ & ->).
  repeat split.
Qed.

Lemma keeps_check_previous root prev_all id last_edited rel_path dest :
  keeps objects_kept (check_previous root prev_all id last_edited rel_path dest).
Proof.
  unfold check_previous.
  repeat first [ apply keeps_cleanup_empty_dirs | objects_step ].
Qed.

Lemma keeps_write_page_markdown dest page :
  keeps objects_kept (_write_page_markdown_async client dest page).
Proof.
  unfold _write_page_markdown_async.
  repeat objects_step.
Qed.

Lemma keeps_handle_page root incremental prev_pages pid :
  keeps objects_kept (handle_page client root incremental prev_pages pid).
Proof.
  unfold handle_page.
  repeat first [ apply keeps_check_previous | apply keeps_write_page_markdown
               | objects_step ].
Qed.

Lemma live_page_kept w w' pid :
  objects_kept w w' → live_page (self w) pid ↔ live_page (self w') pid.
Proof.
  intros (_ & Hcache & _). unfold live_page, _ensure_page. rewrite Hcache. tauto.
Qed.

Lemma gather_cons handle id ids w res w' :
  gather handle (id :: ids) w = (Ok res, w') →
  ∃ o w1 rest,
    handle id w = (Ok o, w1) ∧ gather handle ids w1 = (Ok rest, w')
    ∧ res = match o with Some o => o :: rest | None => rest end.
Proof.
  cbn [gather]. intros H.
  ok_bind H as o w1 Ho. ok_bind H as rest w2 Hrest. ok_leaf H. eauto 10.
Qed.

(** When the page phase returns, every task has returned, and the
    results hold exactly the pages that are not archived. *)
Lemma gather_pages root incremental prev_pages : ∀ ids w res w',
  gather (handle_page client root incremental prev_pages) ids w = (Ok res, w') →
  objects_kept w w'
  ∧ (∀ pid, pid ∈ ids →
       ∃ w1 o w2, objects_kept w w1
                  ∧ handle_page client root incremental prev_pages pid w1 = (Ok o, w2))
  ∧ (∀ pid, pid ∈ ids → live_page (self w) pid → pid ∈ List.map (fun o => o.1.1) res)
  ∧ (∀ pid, pid ∈ List.map (fun o => o.1.1) res → pid ∈ ids ∧ live_page (self w) pid).
Proof.
  induction ids as [|id ids IH]; intros w res w' H.
  { cbn [gather] in H. ok_leaf H. split; [apply objects_kept_refl|].
    split; [intros pid Hin; apply elem_of_nil in Hin as []|].
    split; [intros pid Hin; apply elem_of_nil in Hin as []|].
    intros pid Hin. apply elem_of_nil in Hin as []. }
  apply gather_cons in H as (o & w1 & rest & Ho & Hrest & ->).
  pose proof (keeps_handle_page root incremental prev_pages id w) as Hk.
  rewrite Ho in Hk. cbn [snd] in Hk.
  destruct (IH _ _ _ Hrest) as (Hkept & Hall & Hlive & Hres).
  split; [eapply objects_kept_trans; eassumption|].
  apply handle_page_ok in Ho as Hspec. destruct Hspec as (page & Hpage & Hcase).
  split; [|split].
  - intros pid Hin. apply elem_of_cons in Hin as [->|Hin].
    + exists w, o, w1. split; [apply objects_kept_refl|exact Ho].
    + destruct (Hall pid Hin) as (wa & oa & wb & Hwa & Hh).
      exists wa, oa, wb. split; [eapply objects_kept_trans; eassumption|exact Hh].
  - intros pid Hin (page' & Hpage' & Hlivep).
    apply elem_of_cons in Hin as [->|Hin].
    + rewrite Hpage in Hpage'. injection Hpage' as <-. rewrite Hlivep in Hcase.
      destruct Hcase as (dest & m1 & qs & rel & up & w2 & _ & _ & _ & _ & _ & -> & _).
      cbn. apply elem_of_cons. auto.
    + assert (pid ∈ List.map (fun o => o.1.1) rest) as Hr.
      { apply Hlive; [exact Hin|]. apply (live_page_kept w w1); [exact Hk|].
        exists page'. auto. }
      destruct o; [apply elem_of_cons; auto|exact Hr].
  - intros pid Hin.
    assert (pid = id ∧ live_page (self w) id ∨ pid ∈ List.map (fun o => o.1.1) rest)
      as [[-> Hl]|Hr].
    { destruct (truthy (dict_get page "archived")) eqn:Harch.
      - destruct Hcase as [-> _]. auto.
      - destruct Hcase as (dest & m1 & qs & rel & up & w2 & _ & _ & _ & _ & _ & -> & _).
        cbn in Hin. apply elem_of_cons in Hin as [->|Hin]; [|auto].
        left. split; [reflexivity|]. exists page. auto. }
    + split; [apply elem_of_cons; auto|exact Hl].
    + destruct (Hres pid Hr) as [Hin' Hl]. split; [apply elem_of_cons; auto|].
      apply (live_page_kept w w1); assumption.
Qed.

(** The keys of the index are the ids of the results. *)
Lemma dict_mem_set d k v k' :
  dict_mem (dict_set d k v) k' = (String.eqb k k' || dict_mem d k').
Proof.
  induction d as [|[k0 v0] d IH]; cbn [dict_set dict_mem].
  { rewrite orb_false_r. reflexivity. }
  destruct (String.eqb k0 k) eqn:Hk; cbn [dict_mem].
  - apply String.eqb_eq in Hk as ->.
    destruct (String.eqb k k'); reflexivity.
  - rewrite IH. destruct (String.eqb k0 k'), (String.eqb k k'); reflexivity.
Qed.

Lemma dict_mem_index_of (results : list outcome) k :
  dict_mem (index_of results) k = true ↔ k ∈ List.map (fun o => o.1.1) results.
Proof.
  unfold index_of.
  assert (∀ d, dict_mem (foldl (fun d o => dict_set d (fst (fst o)) (JObj (snd (fst o))))
                               d results) k = true
               ↔ dict_mem d k = true ∨ k ∈ List.map (fun o => o.1.1) results) as H.
  { induction results as [|o results IH]; intros d; cbn [foldl List.map].
    - rewrite elem_of_nil. tauto.
    - rewrite IH, dict_mem_set, elem_of_cons, orb_true_iff, String.eqb_eq.
      intuition congruence. }
  rewrite H. cbn. intuition discriminate.
Qed.

Lemma elem_of_sorted_keys (c : gmap string jobj) k :
  k ∈ sorted_keys c ↔ is_Some (c !! k).
Proof.
  unfold sorted_keys. rewrite merge_sort_Permutation.
  rewrite list_elem_of_In, in_map_iff. split.
  - intros ([k' v] & <- & Hin). apply list_elem_of_In, elem_of_map_to_list in Hin.
    eauto.
  - intros [v Hv]. exists (k, v). split; [reflexivity|].
    apply list_elem_of_In, elem_of_map_to_list. exact Hv.
Qed.

End page_tasks.

(** ** C4: what a failure in the write phase does *)

(** C4 (amended).  When the page phase returns: every cached page is in
    the new index exactly when it is not archived, so a page whose
    content could not be read is not left out; and the task of every
    cached page has returned (a task that raises ends the phase).
    Besides, a failure to read the content of a page is caught where the
    page file is built: the failure is recorded for the access report, a
    line takes the place of the content, and the outcome of the task is
    the outcome of writing the file. *)
Theorem content_failure_is_soft (client : NotionMirror.remote) (root : path)
  (incremental : bool) (prev_pages : json) (w : NotionMirror.world)
  (written : nat) (index : jobj) (w' : NotionMirror.world) :
  NotionMirror._write_pages_async client root incremental prev_pages w
  = (Ok (written, index), w') →
  (∀ pid, is_Some (NotionMirror._page_cache (NotionMirror.self w) !! pid) →
     (dict_mem index pid = true ↔ live_page (NotionMirror.self w) pid)
     ∧ ∃ w1 o w2,
         objects_kept w w1
         ∧ NotionMirror.handle_page client root incremental prev_pages pid w1
           = (Ok o, w2))
  ∧ (∀ dest page v title props recorded e,
       page_title page = Ok title →
       NotionMirror._page_properties_md client page = Ok props →
       content_fails client (py_or (dict_get page "id") (JStr "")) recorded e →
       ∃ before,
         NotionMirror._write_page_markdown_async client dest page v
         = NotionMirror.fs
             (write_text dest
                (Text (NotionMirror.join_lines
                         (before
                          ++ ["- (content not accessible; check access report)"; ""]))))
             (add_inaccessible
                (recorded ++ [(py_or (dict_get page "id") (JStr ""),
                               py_or (dict_get page "id") (JStr ""), exn_str e)]) v)).
Proof.
  intros H. split.
  - unfold NotionMirror._write_pages_async in H.
    ok_bind H as m w1 Hm. ok_bind H as results w2 Hgather. ok_leaf H.
    injection H as -> ->.
    apply gather_pages in Hgather as (_ & Hall & Hlive & Hres).
    intros pid Hcached. apply elem_of_sorted_keys in Hcached. split.
    + rewrite dict_mem_index_of. split; [apply Hres|apply Hlive, Hcached].
    + apply Hall, Hcached.
  - intros dest page v title props recorded e.
    apply content_failure_is_recorded.
Qed.

Lemma content_failure_is_soft_witness :
  NotionMirror._write_pages_async scenario_unreadable mirror_dir true (JObj [])
    scenario_world
  = (Ok (1%nat, [("p1", JObj [("last_edited_time", JStr "t1");
                              ("path", JStr "DB_untitled_db_d1/Buy milk_p1.md")])]),
     (NotionMirror._write_pages_async scenario_unreadable mirror_dir true (JObj [])
        scenario_world).2)
  ∧ (dict_mem [("p1", JObj [("last_edited_time", JStr "t1");
                            ("path", JStr "DB_untitled_db_d1/Buy milk_p1.md")])] "p1"
     = true
     ↔ live_page (NotionMirror.self scenario_world) "p1").
Proof.
  assert (NotionMirror._write_pages_async scenario_unreadable mirror_dir true (JObj [])
            scenario_world
          = (Ok (1%nat, [("p1", JObj [("last_edited_time", JStr "t1");
                                      ("path", JStr "DB_untitled_db_d1/Buy milk_p1.md")])]),
             (NotionMirror._write_pages_async scenario_unreadable mirror_dir true
                (JObj []) scenario_world).2)) as H
    by (vm_compute; reflexivity).
  split; [exact H|].
  refine (proj1 (proj1 (content_failure_is_soft _ _ _ _ _ _ _ _ H) "p1" _)).
  vm_compute. eauto.
Defined.

(** ** Reconciliation *)

Section reconciliation.

Import NotionMirror.

Lemma is_empty_dir_children f d :
  is_empty_dir f d = true → ∀ x, x ≠ [] → parent x = d → f !! x = None.
Proof.
  unfold is_empty_dir. destruct d as [|s d]; [discriminate|].
  destruct (f !! (s :: d)) as [[c|]|]; try discriminate.
  intros Hsize x Hx Hparent. apply Nat.eqb_eq, map_size_empty_iff in Hsize.
  destruct (f !! x) as [n|] eqn:Hfx; [|reflexivity].
  assert (children f (s :: d) !! x = Some n) as Hin.
  { apply map_lookup_filter_Some. split; [exact Hfx|]. cbn. auto. }
  rewrite Hsize, lookup_empty in Hin. discriminate.
Qed.

Lemma is_empty_dir_false_child f d x n :
  x ≠ [] → parent x = d → f !! x = Some n → is_empty_dir f d = false.
Proof.
  intros Hx Hparent Hfx. destruct (is_empty_dir f d) eqn:He; [|reflexivity].
  rewrite (is_empty_dir_children f d He x Hx Hparent) in Hfx. discriminate.
Qed.

Lemma is_empty_dir_false_gone f d : f !! d ≠ Some Dir → is_empty_dir f d = false.
Proof.
  intros Hd. destruct (is_empty_dir f d) eqn:He; [|reflexivity].
  apply is_empty_dir_exists in He. contradiction.
Qed.

Lemma parent_snoc (p : path) s : parent (p ++ [s]) = p.
Proof. apply removelast_last. Qed.

(** A pruning leaves no entry below what it removed, and stops only at
    the root or at something that is not an empty directory. *)
Lemma pruning_emptied root f rcur ds f' :
  pruning root f rcur ds f' →
  ∀ d, d ∈ ds → ∀ x, x ≠ [] → parent x = d → f' !! x = None.
Proof.
  induction 1 as [f rcur Hstop|f c rparent ds f' Hroot Hempty Hpr IH];
    intros d Hd x Hx Hparent.
  { apply elem_of_nil in Hd as []. }
  apply elem_of_cons in Hd as [->|Hd].
  - eapply pruning_subset; [exact Hpr|].
    apply lookup_delete_None. right.
    eapply is_empty_dir_children; eassumption.
  - eapply IH; eassumption.
Qed.

Lemma pruning_complete root f rcur ds f' :
  pruning root f rcur ds f' →
  (rev rcur = root ∨ is_empty_dir f' (rev rcur) = false)
  ∧ ∀ d, d ∈ ds → parent d = root ∨ is_empty_dir f' (parent d) = false.
Proof.
  induction 1 as [f rcur Hstop|f c rparent ds f' Hroot Hempty Hpr IH].
  { split; [exact Hstop|]. intros d Hd. apply elem_of_nil in Hd as []. }
  destruct IH as [IHstart IHds]. split.
  - right. apply is_empty_dir_false_gone.
    rewrite (pruning_subset _ _ _ _ _ _ Hpr); [discriminate|].
    apply lookup_delete_eq.
  - intros d Hd. apply elem_of_cons in Hd as [->|Hd]; [|auto].
    cbn [rev]. rewrite parent_snoc. exact IHstart.
Qed.

Lemma strictly_below_parent root p :
  strictly_below root p → root `prefix_of` parent p.
Proof.
  intros [[k ->] Hne]. destruct (decide (k = [])) as [->|Hk].
  { rewrite app_nil_r in Hne. contradiction. }
  destruct (exists_last Hk) as (k' & s & ->).
  rewrite app_assoc, parent_snoc. apply prefix_app_r. reflexivity.
Qed.

Lemma reconciled_nil root new_index w : reconciled root new_index [] w w.
Proof.
  split; [reflexivity|]. exists []. rewrite app_nil_r.
  split; [reflexivity|].
  split; [intros e He; apply elem_of_nil in He as []|].
  split; [intros p He; apply elem_of_nil in He as []|].
  split; [intros item p He; apply elem_of_nil in He as []|].
  split; [intros p He; apply elem_of_nil in He as []|].
  split; [auto|].
  intros p [He|He]; apply elem_of_nil in He as [].
Qed.

(** Nothing was to be done for the entry. *)
Lemma reconciled_skip root new_index item w :
  (∀ p, stale_file root new_index item = Some p → files w !! p = None) →
  reconciled root new_index [item] w w.
Proof.
  intros Hskip.
  split; [reflexivity|]. exists []. rewrite app_nil_r.
  split; [reflexivity|].
  split; [intros e He; apply elem_of_nil in He as []|].
  split; [intros p He; apply elem_of_nil in He as []|].
  split.
  { intros item' p He Hstale. apply list_elem_of_singleton in He as ->.
    split; [auto|]. unfold fs_is_file. rewrite (Hskip p Hstale). discriminate. }
  split; [intros p He; apply elem_of_nil in He as []|].
  split; [auto|].
  intros p [He|He]; apply elem_of_nil in He as [].
Qed.

(** The recorded file was unlinked and its directories pruned. *)
Lemma reconciled_delete root new_index item w p c ds f' :
  stale_file root new_index item = Some p →
  files w !! p = Some (File c) →
  pruning root (delete p (files w)) (rev (parent p)) ds f' →
  reconciled root new_index [item] w
    {| self := self w; files := f';
       trace := trace w ++ Unlink p :: List.map Rmdir ds |}.
Proof.
  intros Hstale Hfile Hpr.
  pose proof (pruning_lookup _ _ _ _ _ Hpr) as Hlookup.
  pose proof (pruning_removed _ _ _ _ _ Hpr) as Hremoved.
  assert (∀ d, Rmdir d ∈ Unlink p :: List.map Rmdir ds → d ∈ ds) as Hrm.
  { intros d Hd. apply elem_of_cons in Hd as [[=]|Hd].
    apply list_elem_of_In, in_map_iff in Hd as (d' & [= ->] & Hd).
    apply list_elem_of_In, Hd. }
  assert (∀ q, Unlink q ∈ Unlink p :: List.map Rmdir ds → q = p) as Hun.
  { intros q Hq. apply elem_of_cons in Hq as [[=]|Hq]; [assumption|].
    apply list_elem_of_In, in_map_iff in Hq as (d' & [=] & _). }
  assert (f' !! p = None) as Hgone.
  { eapply pruning_subset; [exact Hpr|]. apply lookup_delete_eq. }
  split; [reflexivity|]. exists (Unlink p :: List.map Rmdir ds).
  cbn [self files trace].
  split; [reflexivity|].
  split.
  { intros e He. apply elem_of_cons in He as [->|He]; [eauto|].
    apply list_elem_of_In, in_map_iff in He as (d & <- & _). eauto. }
  split.
  { intros q Hq. apply Hun in Hq as ->. exists item.
    split; [apply list_elem_of_singleton; reflexivity|exact Hstale]. }
  split.
  { intros item' q He Hstale'. apply list_elem_of_singleton in He as ->.
    rewrite Hstale in Hstale'. injection Hstale' as <-.
    split; [exact Hgone|]. intros _. apply elem_of_cons. auto. }
  split.
  { intros d Hd. apply Hrm in Hd.
    destruct (Hremoved d Hd) as (Hpre & Hne & Hnil & Hdir).
    rewrite rev_involutive in Hpre.
    apply lookup_delete_Some in Hdir as [_ Hdir].
    repeat split; try assumption.
    - eapply pruning_emptied; eassumption.
    - exists p. split; [apply elem_of_cons; auto|]. split; [exact Hpre|].
      intros Hbelow. eapply pruning_below; [exact Hpr| |exact Hd].
      rewrite rev_involutive. apply strictly_below_parent, Hbelow. }
  split.
  { intros q. rewrite Hlookup. destruct (decide (q ∈ ds)) as [Hq|Hq].
    - right. split; [reflexivity|]. right.
      apply elem_of_cons. right. apply list_elem_of_In, in_map, list_elem_of_In, Hq.
    - destruct (decide (q = p)) as [->|Hne].
      + right. split; [apply lookup_delete_eq|]. left. apply elem_of_cons. auto.
      + left. apply lookup_delete_ne. congruence. }
  destruct (pruning_complete _ _ _ _ _ Hpr) as [Hstart Hds].
  rewrite rev_involutive in Hstart.
  intros q [Hq|Hq].
  - apply Hun in Hq as ->. exact Hstart.
  - apply Hds, Hrm, Hq.
Qed.

(** Reconciling one batch of entries after another. *)
Lemma reconciled_app root new_index items1 items2 w1 w2 w3 :
  reconciled root new_index items1 w1 w2 →
  reconciled root new_index items2 w2 w3 →
  reconciled root new_index (items1 ++ items2) w1 w3.
Proof.
  intros (Hself1 & evs1 & Htr1 & Hkind1 & Honly1 & Hgone1 & Hdir1 & Hrest1 & Hfull1)
         (Hself2 & evs2 & Htr2 & Hkind2 & Honly2 & Hgone2 & Hdir2 & Hrest2 & Hfull2).
  assert (∀ p, files w2 !! p = None → files w3 !! p = None) as Hmono2.
  { intros p Hp. destruct (Hrest2 p) as [->|[-> _]]; auto. }
  split; [congruence|]. exists (evs1 ++ evs2).
  split; [rewrite Htr2, Htr1, app_assoc; reflexivity|].
  split.
  { intros e He. apply elem_of_app in He as [He|He]; auto. }
  split.
  { intros p Hp. apply elem_of_app in Hp as [Hp|Hp].
    - destruct (Honly1 p Hp) as (item & Hin & Hst). exists item.
      split; [apply elem_of_app; auto|exact Hst].
    - destruct (Honly2 p Hp) as (item & Hin & Hst). exists item.
      split; [apply elem_of_app; auto|exact Hst]. }
  split.
  { intros item p Hin Hst. apply elem_of_app in Hin as [Hin|Hin].
    - destruct (Hgone1 item p Hin Hst) as [Hnone Hun]. split; [auto|].
      intros Hfile. apply elem_of_app. auto.
    - destruct (Hgone2 item p Hin Hst) as [Hnone Hun]. split; [exact Hnone|].
      intros Hfile. apply elem_of_app.
      destruct (Hrest1 p) as [Heq|[Hnone1 [Hu|Hr]]].
      + right. apply Hun. unfold fs_is_file in *. rewrite Heq. exact Hfile.
      + auto.
      + destruct (Hdir1 p Hr) as (_ & Hd & _). unfold fs_is_file in Hfile.
        rewrite Hd in Hfile. discriminate. }
  split.
  { intros d Hd. apply elem_of_app in Hd as [Hd|Hd].
    - destruct (Hdir1 d Hd) as (Hne & Hwas & Hempty & p & Hp & Hpre & Hbelow).
      repeat split; try assumption.
      + intros x Hx Hparent. apply Hmono2. auto.
      + exists p. split; [apply elem_of_app; auto|]. auto.
    - destruct (Hdir2 d Hd) as (Hne & Hwas & Hempty & p & Hp & Hpre & Hbelow).
      repeat split; try assumption.
      + destruct (Hrest1 d) as [Heq|[Hnone _]]; congruence.
      + exists p. split; [apply elem_of_app; auto|]. auto. }
  split.
  { intros p. destruct (Hrest2 p) as [Heq2|[Hnone2 Hev2]].
    - rewrite Heq2. destruct (Hrest1 p) as [Heq1|[Hnone1 Hev1]]; [auto|].
      right. split; [exact Hnone1|]. rewrite !elem_of_app. tauto.
    - right. split; [exact Hnone2|]. rewrite !elem_of_app. tauto. }
  intros p Hp.
  assert (Unlink p ∈ evs2 ∨ Rmdir p ∈ evs2 ∨ Unlink p ∈ evs1 ∨ Rmdir p ∈ evs1)
    as [Hp2|[Hp2|Hp1]] by (rewrite !elem_of_app in Hp; tauto); [auto..|].
  assert (Unlink p ∈ evs1 ∨ Rmdir p ∈ evs1) as Hp1' by tauto.
  destruct (Hfull1 p Hp1') as [Hroot|Hnot]; [auto|].
  destruct (decide (parent p = root)) as [|Hnr]; [auto|]. right.
  destruct (is_empty_dir (files w3) (parent p)) eqn:Hnow; [|reflexivity].
  exfalso.
  pose proof (is_empty_dir_exists _ _ Hnow) as Hdir3.
  assert (files w2 !! parent p = Some Dir) as Hdir2'.
  { destruct (Hrest2 (parent p)) as [Heq|[Hnone _]]; congruence. }
  (* the directory was not empty before the second batch: it has lost
     an entry since *)
  unfold is_empty_dir in Hnot, Hnow.
  destruct (parent p) as [|s d] eqn:Hpp; [discriminate|].
  rewrite Hdir2' in Hnot. rewrite Hdir3 in Hnow.
  apply Nat.eqb_neq, map_size_non_empty_iff, map_choose in Hnot
    as (x & n & Hx).
  apply map_lookup_filter_Some in Hx as [Hx [Hxp Hxne]]. cbn [fst] in Hxp, Hxne.
  destruct (Hrest2 x) as [Heq|[_ Hev]].
  - apply Nat.eqb_eq, map_size_empty_iff in Hnow.
    assert (children (files w3) (s :: d) !! x = Some n) as Hin.
    { apply map_lookup_filter_Some. split; [congruence|]. cbn. auto. }
    rewrite Hnow, lookup_empty in Hin. discriminate.
  - destruct (Hfull2 x Hev) as [Hr|Hne].
    + congruence.
    + rewrite Hxp in Hne. unfold is_empty_dir in Hne.
      rewrite Hdir3, Hnow in Hne. discriminate.
Qed.

Lemma stale_file_path root new_index id meta s :
  dict_mem new_index id = false →
  dict_get meta "path" = JStr s → s ≠ "" →
  stale_file root new_index (id, JObj meta) = Some (joinpath root s).
Proof.
  intros Hmem Hpath Hs. unfold stale_file. cbn [fst snd]. rewrite Hmem, Hpath.
  destruct (String.eqb s "") eqn:He; [|reflexivity].
  apply String.eqb_eq in He. contradiction.
Qed.

(** [_cleanup_removed], when it returns, has reconciled the disk with
    the entries of the previous index. *)
Lemma cleanup_removed_ok prev_index new_index w w' :
  _cleanup_removed prev_index new_index w = (Ok (), w') →
  ∃ items,
    prev_index = JObj items
    ∧ reconciled (output_dir (self w)) new_index items w w'.
Proof.
  unfold _cleanup_removed. intros H.
  ok_bind H as m w0 Hm. ok_bind H as items w0 Hitems.
  destruct prev_index; try discriminate. injection Hitems as ->.
  exists items. split; [reflexivity|].
  remember (output_dir (self w)) as root eqn:Hroot. clear Hroot.
  revert w w' H.
  induction items as [|[item_id meta] items IH]; intros v w' H.
  { cbn [for_each] in H. ok_leaf H. apply reconciled_nil. }
  cbn [for_each] in H. ok_bind H as u v1 Hitem.
  change ((item_id, meta) :: items) with ([(item_id, meta)] ++ items).
  assert (reconciled root new_index [(item_id, meta)] v v1) as Hstep.
  { clear IH H.
    destruct (dict_mem new_index item_id) eqn:Hmem; cbn [negb] in Hitem.
    { ok_leaf Hitem. apply reconciled_skip. unfold stale_file. cbn [fst].
      rewrite Hmem. discriminate. }
    ok_bind Hitem as fields v0 Hmeta.
    destruct meta; try discriminate. injection Hmeta as ->.
    destruct (truthy (dict_get fields "path")) eqn:Htruthy.
    2: { ok_leaf Hitem. apply reconciled_skip. unfold stale_file. cbn [fst snd].
         rewrite Hmem. destruct (dict_get fields "path"); try discriminate.
         cbn in Htruthy. apply negb_false_iff in Htruthy. rewrite Htruthy.
         discriminate. }
    ok_bind Hitem as old_abs v0 Hunder.
    destruct (dict_get fields "path") as [| | |s| |] eqn:Hpath; try discriminate.
    injection Hunder as <-.
    assert (stale_file root new_index (item_id, JObj fields) = Some (joinpath root s))
      as Hstale.
    { apply stale_file_path; [assumption..|]. intros ->. discriminate. }
    ok_bind Hitem as f v0 Hf.
    destruct (fs_exists (files v) (joinpath root s)) eqn:Hex.
    2: { ok_leaf Hitem. apply reconciled_skip. intros p Hp.
         rewrite Hstale in Hp. injection Hp as <-. unfold fs_exists in Hex.
         destruct (joinpath root s); [discriminate|].
         destruct (files v !! (s0 :: l)); [discriminate|reflexivity]. }
    ok_bind Hitem as u' v0 Hunlink.
    apply unlink_ok in Hunlink as (-> & -> & Hfile).
    destruct (cleanup_empty_dirs_spec (parent (joinpath root s)) root
                {| self := self v; files := delete (joinpath root s) (files v);
                   trace := trace v ++ [Unlink (joinpath root s)] |})
      as (ds & f' & Hpr & Hrun).
    rewrite Hrun in Hitem. destruct u. injection Hitem as <-.
    cbn [self files trace] in *. rewrite <- app_assoc.
    unfold fs_is_file in Hfile.
    destruct (files v !! joinpath root s) as [[c|]|] eqn:Hlook; try discriminate.
    eapply reconciled_delete; eassumption. }
  eapply reconciled_app; [exact Hstep|].
  apply IH, H.
Qed.

End reconciliation.

(** ** Steps that keep the output directory, or the disk *)

Section kept_relations.

Import NotionMirror.

Lemma keeps_weaken {A} (R R' : world → world → Prop) (c : M A) :
  (∀ w w', R w w' → R' w w') → keeps R c → keeps R' c.
Proof. intros Hsub Hc w. apply Hsub, Hc. Qed.

Lemma dir_kept_refl w : dir_kept w w.
Proof. reflexivity. Qed.

Lemma dir_kept_trans w1 w2 w3 : dir_kept w1 w2 → dir_kept w2 w3 → dir_kept w1 w3.
Proof. unfold dir_kept. congruence. Qed.

Lemma keeps_fs_dir call : keeps dir_kept (fs call).
Proof. intros w. unfold fs. destruct (call (files w)) as [[f evs]|e]; reflexivity. Qed.

Lemma keeps_on_self_dir {A} (c : t → result A * t) :
  (∀ m, output_dir (c m).2 = output_dir m) → keeps dir_kept (on_self c).
Proof.
  intros Hc w. unfold on_self, dir_kept. specialize (Hc (self w)).
  destruct (c (self w)). exact Hc.
Qed.

Lemma keeps_objects_dir {A} (c : M A) : keeps objects_kept c → keeps dir_kept c.
Proof. apply keeps_weaken. intros w w' (Hdir & _). exact Hdir. Qed.

Lemma disk_kept_refl w : disk_kept w w.
Proof. repeat split. Qed.

Lemma disk_kept_trans w1 w2 w3 : disk_kept w1 w2 → disk_kept w2 w3 → disk_kept w1 w3.
Proof. unfold disk_kept, dir_kept. intros (? & ? & ?) (? & ? & ?). repeat split; congruence. Qed.

Lemma keeps_on_self_disk {A} (c : t → result A * t) :
  (∀ m, output_dir (c m).2 = output_dir m) → keeps disk_kept (on_self c).
Proof.
  intros Hc w. unfold on_self, disk_kept, dir_kept. specialize (Hc (self w)).
  destruct (c (self w)). repeat split. exact Hc.
Qed.

End kept_relations.

Ltac dir_step :=
  first [ apply keeps_fs_dir
        | apply keeps_on_self_dir; intros ?; reflexivity
        | keeps_step dir_kept_refl dir_kept_trans ].

Ltac disk_step :=
  first [ apply keeps_on_self_disk; intros ?; reflexivity
        | keeps_step disk_kept_refl disk_kept_trans ].

(** ** The steps of an incremental run *)

Section incremental_run.

Import NotionMirror.

Variable client : remote.

Lemma mkdir_walk_new f : ∀ rest pre qs,
  mkdir_walk f pre rest = Ok qs →
  ∀ q, q ∈ qs →
    f !! q = None ∧ pre `prefix_of` q ∧ q ≠ pre ∧ q `prefix_of` pre ++ rest.
Proof.
  induction rest as [|s rest IH]; intros pre qs H q Hq; cbn [mkdir_walk] in H.
  { injection H as <-. apply elem_of_nil in Hq as []. }
  assert (∀ qs', mkdir_walk f (pre ++ [s]) rest = Ok qs' → q ∈ qs' →
                 f !! q = None ∧ pre `prefix_of` q ∧ q ≠ pre
                 ∧ q `prefix_of` pre ++ s :: rest) as Hrest.
  { intros qs' Hqs' Hin. destruct (IH _ _ Hqs' q Hin) as (Hnone & Hpre & Hne & Hbelow).
    split; [exact Hnone|]. split; [|split].
    - etransitivity; [|exact Hpre]. apply prefix_app_r. reflexivity.
    - intros ->. destruct Hpre as [k Hk].
      apply (f_equal length) in Hk. rewrite !length_app in Hk. cbn in Hk. lia.
    - rewrite <- app_assoc in Hbelow. exact Hbelow. }
  destruct (f !! (pre ++ [s])) as [[c|]|] eqn:Hlook; [discriminate|eauto|].
  destruct (mkdir_walk f (pre ++ [s]) rest) as [qs'|e] eqn:Hqs'; [|discriminate].
  injection H as <-. apply elem_of_cons in Hq as [->|Hq]; [|eauto].
  split; [exact Hlook|]. split; [apply prefix_app_r; reflexivity|]. split.
  - intros Heq. apply (f_equal length) in Heq. rewrite length_app in Heq.
    cbn in Heq. lia.
  - apply prefix_app, prefix_cons, prefix_nil.
Qed.

Lemma add_dirs_lookup f qs p :
  add_dirs f qs !! p = if decide (p ∈ qs) then Some Dir else f !! p.
Proof.
  induction qs as [|q qs IH]; cbn [add_dirs foldr].
  { rewrite decide_False; [reflexivity|]. apply not_elem_of_nil. }
  destruct (decide (p = q)) as [->|Hne].
  - rewrite lookup_insert_eq, decide_True; [reflexivity|]. apply elem_of_cons. auto.
  - rewrite lookup_insert_ne by congruence. fold (add_dirs f qs). rewrite IH.
    destruct (decide (p ∈ qs)) as [Hin|Hout].
    + rewrite decide_True; [reflexivity|]. apply elem_of_cons. auto.
    + rewrite decide_False; [reflexivity|]. rewrite elem_of_cons. tauto.
Qed.

(** [mkdir] with [parents=True] only adds directories where nothing was. *)
Lemma mkdir_walk_extends f pre rest qs p n :
  mkdir_walk f pre rest = Ok qs → f !! p = Some n → add_dirs f qs !! p = Some n.
Proof.
  intros Hqs Hp. rewrite add_dirs_lookup.
  destruct (decide (p ∈ qs)) as [Hin|]; [|exact Hp].
  apply (mkdir_walk_new _ _ _ _ Hqs) in Hin as [Hnone _]. congruence.
Qed.

Lemma save_index_to_ok root pages_index dbs_index w w' :
  _save_index_to_async client root pages_index dbs_index w = (Ok (), w') →
  self w' = self w
  ∧ stored_index (files w') root
    = JObj [("generated_at", JStr (_now_utc_iso client));
            ("pages", JObj pages_index);
            ("databases", JObj dbs_index)]
  ∧ ∃ c, files w' = <[joinpath root ".mirror_index.json" := File c]> (files w)
         ∧ trace w' = trace w ++ [Write (joinpath root ".mirror_index.json") c].
Proof.
  unfold _save_index_to_async. intros H. ok_leaf H.
  apply write_text_ok in H as (-> & -> & _).
  cbn [self files trace]. split; [reflexivity|]. split; [|eauto].
  unfold stored_index. rewrite lookup_insert_eq. reflexivity.
Qed.

Lemma load_index_eq w :
  _load_index w = (Ok (stored_index (files w) (output_dir (self w))), w).
Proof. reflexivity. Qed.

(** Discovery acts on the caches of the mirror object only. *)
Lemma keeps_populate_caches pages dbs :
  keeps disk_kept (_populate_caches pages dbs).
Proof. unfold _populate_caches. repeat disk_step. Qed.

Lemma keeps_prefetch_pages : keeps disk_kept (_prefetch_pages client).
Proof. unfold _prefetch_pages, fetch_page. repeat disk_step. Qed.

Lemma keeps_prefetch_databases : keeps disk_kept (_prefetch_databases client).
Proof. unfold _prefetch_databases, fetch_database. repeat disk_step. Qed.

(** The database tasks keep the output directory. *)
Lemma keeps_entry_lines_dir dest pages : keeps dir_kept (entry_lines dest pages).
Proof.
  induction pages as [|p pages IH]; cbn [entry_lines]; [repeat dir_step|].
  repeat first [ exact IH
               | apply keeps_objects_dir, keeps_page_output_path
               | apply keeps_on_self_dir; intros m;
                 destruct (_page_cache m !! _); reflexivity
               | dir_step ].
Qed.

Lemma keeps_write_database_index_dir dest db database_id :
  keeps dir_kept (_write_database_index_async client dest db database_id).
Proof.
  unfold _write_database_index_async.
  repeat first [ apply keeps_entry_lines_dir | dir_step ].
Qed.

Lemma keeps_handle_database_dir root incremental prev_dbs did :
  keeps dir_kept (handle_database client root incremental prev_dbs did).
Proof.
  unfold handle_database.
  repeat first [ apply keeps_write_database_index_dir
               | apply keeps_objects_dir, keeps_check_previous
               | dir_step ].
Qed.

Lemma keeps_write_pages_dir root incremental prev_pages :
  keeps dir_kept (_write_pages_async client root incremental prev_pages).
Proof.
  unfold _write_pages_async.
  repeat first [ apply keeps_objects_dir, keeps_handle_page | dir_step ].
Qed.

Lemma keeps_write_databases_dir root incremental prev_dbs :
  keeps dir_kept (_write_databases_async client root incremental prev_dbs).
Proof.
  unfold _write_databases_async.
  repeat first [ apply keeps_handle_database_dir | dir_step ].
Qed.

Lemma keeps_write_root_index_dir root pages dbs :
  keeps dir_kept (_write_root_index_async client root pages dbs).
Proof. unfold _write_root_index_async. repeat dir_step. Qed.

Lemma keeps_write_access_report_dir root :
  keeps dir_kept (_write_access_report_async client root).
Proof. unfold _write_access_report_async. repeat dir_step. Qed.

(** Reading what a step keeps off a hypothesis that gives its result. *)
Lemma keeps_result {A} (R : world → world → Prop) (c : M A) w r w' :
  keeps R c → c w = (r, w') → R w w'.
Proof. intros Hc Hr. specialize (Hc w). rewrite Hr in Hc. exact Hc. Qed.

(** What an incremental run that returns has done, step by step. *)
Lemma build_incremental_ok w res w' :
  _build_incremental_async client w = (Ok res, w') →
  let root := output_dir (self w) in
  ∃ qs pages dbs w1 prev_pages prev_dbs
    pages_written pages_index w2 w3 databases_written dbs_index w4 w5 w6 w7,
    mkdir_walk (files w) [] root = Ok qs
    ∧ search client "page" = Ok pages
    ∧ search client "database" = Ok dbs
    ∧ (_ ← _populate_caches pages dbs;
       _ ← _prefetch_databases client;
       _prefetch_pages client)
        {| self := self w; files := add_dirs (files w) qs;
           trace := trace w ++ List.map Mkdir qs |}
      = (Ok (), w1)
    ∧ files w1 = add_dirs (files w) qs
    ∧ trace w1 = trace w ++ List.map Mkdir qs
    ∧ output_dir (self w1) = root
    ∧ index_entries (stored_index (files w) root) "pages" = prev_pages
    ∧ index_entries (stored_index (files w) root) "databases" = prev_dbs
    ∧ _write_pages_async client root true prev_pages w1
      = (Ok (pages_written, pages_index), w2)
    ∧ _cleanup_removed prev_pages pages_index w2 = (Ok (), w3)
    ∧ _write_databases_async client root true prev_dbs w3
      = (Ok (databases_written, dbs_index), w4)
    ∧ _cleanup_removed prev_dbs dbs_index w4 = (Ok (), w5)
    ∧ _write_root_index_async client root pages dbs w5 = (Ok (), w6)
    ∧ _write_access_report_async client root w6 = (Ok (), w7)
    ∧ _save_index_to_async client root pages_index dbs_index w7 = (Ok (), w')
    ∧ res = {| local_dir := root; pages_written := pages_written;
               databases_written := databases_written |}.
Proof.
  intros H root. unfold _build_incremental_async in H.
  ok_bind H as m w0 Hm.
  ok_bind H as u w0 Hmk. apply mkdir_p_ok in Hmk as (qs & Hqs & -> & ->).
  ok_bind H as pages w0 Hpages. ok_bind H as dbs w0 Hdbs.
  ok_bind H as u1 w1a Hpop. ok_bind H as u2 w1b Hpd. ok_bind H as u3 w1 Hpp.
  ok_bind H as index w0 Hload. rewrite load_index_eq in Hload.
  injection Hload as <- <-.
  ok_bind H as fields w0 Hfields.
  ok_bind H as r1 w2 Hwp. destruct r1 as [pages_written pages_index].
  ok_bind H as u4 w3 Hcp.
  ok_bind H as r2 w4 Hwd. destruct r2 as [databases_written dbs_index].
  ok_bind H as u5 w5 Hcd.
  ok_bind H as u6 w6 Hri. ok_bind H as u7 w7 Har.
  ok_bind H as u8 w8 Hsave. ok_leaf H.
  unfold _save_index_async in Hsave. ok_bind Hsave as m7 w0 Hm7.
  destruct u1, u2, u3, u4, u5, u6, u7, u8.
  cbn [self files trace] in *.
  set (w0 := {| self := self w; files := add_dirs (files w) qs;
                trace := trace w ++ List.map Mkdir qs |}) in *.
  assert (disk_kept w0 w1) as (Hdir1 & Hfiles1 & Htrace1).
  { eapply disk_kept_trans;
      [eapply keeps_result; [apply keeps_populate_caches|exact Hpop]|].
    eapply disk_kept_trans;
      [eapply keeps_result; [apply keeps_prefetch_databases|exact Hpd]|].
    eapply keeps_result; [apply keeps_prefetch_pages|exact Hpp]. }
  unfold dir_kept in Hdir1. cbn [self files trace w0] in Hdir1, Hfiles1, Htrace1.
  destruct (cleanup_removed_ok _ _ _ _ Hcp) as (items_p & _ & Hself3 & _).
  destruct (cleanup_removed_ok _ _ _ _ Hcd) as (items_d & _ & Hself5 & _).
  assert (output_dir (self w7) = output_dir (self w)) as Hdir7.
  { pose proof (keeps_result _ _ _ _ _ (keeps_write_pages_dir _ _ _) Hwp) as E2.
    pose proof (keeps_result _ _ _ _ _ (keeps_write_databases_dir _ _ _) Hwd) as E4.
    pose proof (keeps_result _ _ _ _ _ (keeps_write_root_index_dir _ _ _) Hri) as E6.
    pose proof (keeps_result _ _ _ _ _ (keeps_write_access_report_dir _) Har) as E7.
    unfold dir_kept in *. congruence. }
  rewrite Hdir7 in Hsave. fold root in Hsave.
  assert (stored_index (files w1) (output_dir (self w1))
          = stored_index (files w) root) as Hstored.
  { rewrite Hdir1, Hfiles1. unfold stored_index. fold root.
    destruct (files w !! joinpath root ".mirror_index.json") as [n|] eqn:Hlook.
    - rewrite (mkdir_walk_extends _ _ _ _ _ _ Hqs Hlook). reflexivity.
    - rewrite add_dirs_lookup.
      destruct (decide (joinpath root ".mirror_index.json" ∈ qs)) as [Hin|];
        [|rewrite Hlook; reflexivity].
      exfalso. apply (mkdir_walk_new _ _ _ _ Hqs) in Hin as (_ & _ & _ & Hpre).
      cbn [app] in Hpre. fold root in Hpre.
      change (joinpath root ".mirror_index.json") with (root ++ [".mirror_index.json"])
        in Hpre.
      apply prefix_length in Hpre. rewrite length_app in Hpre. cbn in Hpre. lia. }
  rewrite Hstored in Hfields.
  exists qs, pages, dbs, w1,
    (dict_get_default fields "pages" (JObj [])),
    (dict_get_default fields "databases" (JObj [])),
    pages_written, pages_index, w2, w3, databases_written, dbs_index, w4, w5, w6, w7.
  fold root in Hdir1. rewrite Hdir1 in *.
  destruct (stored_index (files w) root) as [| | | | |fields'] eqn:Hidx;
    try discriminate.
  injection Hfields as ->.
  repeat (split; [first [assumption | reflexivity]|]).
  split.
  { rewrite bind_eq. fold w0. rewrite Hpop. cbn beta iota.
    rewrite bind_eq, Hpd. exact Hpp. }
  repeat (split; [first [assumption | reflexivity]|]).
  reflexivity.
Qed.

End incremental_run.

(** ** C8: deletions are propagated *)

(** C8.  In an incremental run that returns, the entries of the Index
    found on the disk are reconciled with the new Index, first for the
    pages, after the page phase, then for the databases, after the
    database phase, and the new Index is what the run persists.  For
    each kind, [reconciled] says: the file recorded for an id that is in
    the previous Index and not in the new one is gone, and was unlinked
    if it was a file; nothing else is unlinked; the directories removed
    are not the mirror root (and are strictly below it when the deleted
    file is), were left without entries, and are above a deleted file;
    the directory of whatever was deleted is the root or is not an empty
    directory any more, so pruning went as far up as it could. *)
Theorem deletion_propagation (client : NotionMirror.remote)
  (w : NotionMirror.world) (res : NotionMirror.MirrorResult)
  (w' : NotionMirror.world) :
  NotionMirror._build_incremental_async client w = (Ok res, w') →
  let root := NotionMirror.output_dir (NotionMirror.self w) in
  ∃ qs pages dbs w1 prev_pages prev_dbs
    pages_written new_pages w2 w3 databases_written new_dbs w4 w5,
    (** the mirror directory is made, and the workspace is discovered *)
    mkdir_walk (NotionMirror.files w) [] root = Ok qs
    ∧ NotionMirror.search client "page" = Ok pages
    ∧ NotionMirror.search client "database" = Ok dbs
    ∧ (_ ← NotionMirror._populate_caches pages dbs;
       _ ← NotionMirror._prefetch_databases client;
       NotionMirror._prefetch_pages client)
        {| NotionMirror.self := NotionMirror.self w;
           NotionMirror.files := add_dirs (NotionMirror.files w) qs;
           NotionMirror.trace := NotionMirror.trace w ++ List.map Mkdir qs |}
      = (Ok (), w1)
    (** the previous Index is the one on the disk *)
    ∧ index_entries (stored_index (NotionMirror.files w) root) "pages"
      = JObj prev_pages
    ∧ index_entries (stored_index (NotionMirror.files w) root) "databases"
      = JObj prev_dbs
    (** pages: write phase, then reconciliation *)
    ∧ NotionMirror._write_pages_async client root true (JObj prev_pages) w1
      = (Ok (pages_written, new_pages), w2)
    ∧ NotionMirror._cleanup_removed (JObj prev_pages) new_pages w2 = (Ok (), w3)
    ∧ reconciled root new_pages prev_pages w2 w3
    (** databases: write phase, then reconciliation *)
    ∧ NotionMirror._write_databases_async client root true (JObj prev_dbs) w3
      = (Ok (databases_written, new_dbs), w4)
    ∧ NotionMirror._cleanup_removed (JObj prev_dbs) new_dbs w4 = (Ok (), w5)
    ∧ reconciled root new_dbs prev_dbs w4 w5
    (** the root index, the access report, and the new Index *)
    ∧ (_ ← NotionMirror._write_root_index_async client root pages dbs;
       _ ← NotionMirror._write_access_report_async client root;
       NotionMirror._save_index_to_async client root new_pages new_dbs) w5
      = (Ok (), w')
    ∧ stored_index (NotionMirror.files w') root
      = JObj [("generated_at", JStr (NotionMirror._now_utc_iso client));
              ("pages", JObj new_pages);
              ("databases", JObj new_dbs)].
Proof.
  intros H root.
  destruct (build_incremental_ok client w res w' H)
    as (qs & pages & dbs & w1 & prev_pages & prev_dbs & pages_written & new_pages
        & w2 & w3 & databases_written & new_dbs & w4 & w5 & w6 & w7
        & Hqs & Hpages & Hdbs & Hdisc & _ & _ & Hdir1 & Hprev_p & Hprev_d
        & Hwp & Hcp & Hwd & Hcd & Hri & Har & Hsave & _).
  fold root in Hqs, Hdir1, Hprev_p, Hprev_d, Hwp, Hwd, Hri, Har, Hsave.
  destruct (cleanup_removed_ok _ _ _ _ Hcp) as (items_p & -> & Hrec_p).
  destruct (cleanup_removed_ok _ _ _ _ Hcd) as (items_d & -> & Hrec_d).
  assert (NotionMirror.output_dir (NotionMirror.self w2) = root) as Hdir2.
  { pose proof (keeps_result _ _ _ _ _ (keeps_write_pages_dir client _ _ _) Hwp) as E.
    unfold dir_kept in E. congruence. }
  assert (NotionMirror.output_dir (NotionMirror.self w4) = root) as Hdir4.
  { pose proof (keeps_result _ _ _ _ _ (keeps_write_databases_dir client _ _ _) Hwd) as E.
    destruct Hrec_p as [E3 _]. unfold dir_kept in E. congruence. }
  rewrite Hdir2 in Hrec_p. rewrite Hdir4 in Hrec_d.
  exists qs, pages, dbs, w1, items_p, items_d,
    pages_written, new_pages, w2, w3, databases_written, new_dbs, w4, w5.
  repeat (split; [assumption|]).
  split.
  - rewrite bind_eq, Hri. cbn beta iota. rewrite bind_eq, Har. exact Hsave.
  - apply save_index_to_ok in Hsave as (_ & Hstored & _). exact Hstored.
Qed.

Lemma deletion_propagation_witness :
  page_deleted_run.1
  = Ok {| NotionMirror.local_dir := mirror_dir;
          NotionMirror.pages_written := 0;
          NotionMirror.databases_written := 0 |}
  ∧ index_entries
      (stored_index (NotionMirror.files scenario_run1.2) mirror_dir) "pages"
    = JObj [("p1", JObj [("last_edited_time", JStr "t1");
                         ("path", JStr "DB_Tasks_d1/Buy milk_p1.md")])]
  ∧ fs_exists (NotionMirror.files page_deleted_run.2)
      (mirror_dir ++ ["DB_Tasks_d1"; "Buy milk_p1.md"]) = false
  ∧ ∃ new_dbs,
      stored_index (NotionMirror.files page_deleted_run.2) mirror_dir
      = JObj [("generated_at", JStr "2026-01-02T00:00:00Z");
              ("pages", JObj []);
              ("databases", JObj new_dbs)].
Proof.
  assert (NotionMirror._build_incremental_async scenario_page_deleted
            (NotionMirror.start mirror_dir (NotionMirror.files scenario_run1.2))
          = (Ok {| NotionMirror.local_dir := mirror_dir;
                   NotionMirror.pages_written := 0;
                   NotionMirror.databases_written := 0 |},
             page_deleted_run.2)) as H by (vm_compute; reflexivity).
  split; [vm_compute; reflexivity|].
  split; [vm_compute; reflexivity|].
  split; [vm_compute; reflexivity|].
  destruct (deletion_propagation _ _ _ _ H)
    as (qs & pages & dbs & w1 & prev_pages & prev_dbs & pages_written & new_pages
        & w2 & w3 & databases_written & new_dbs & w4 & w5
        & _ & _ & _ & _ & _ & _ & Hwp & _ & _ & _ & _ & _ & _ & Hstored).
  change (NotionMirror.output_dir _) with mirror_dir in Hstored.
  exists new_dbs. rewrite Hstored.
  assert (new_pages = []) as ->; [|reflexivity].
  vm_compute in Hstored. congruence.
Defined.

(** ** The decision of a task in incremental mode *)

Section decision.

Import NotionMirror.

Variable client : remote.

Lemma fs_exists_add_dirs f pre rest qs p :
  mkdir_walk f pre rest = Ok qs → p ∉ qs →
  fs_exists (add_dirs f qs) p = fs_exists f p.
Proof.
  intros Hqs Hp. unfold fs_exists. rewrite add_dirs_lookup, decide_False by exact Hp.
  reflexivity.
Qed.

Lemma mkdir_parent_not_dest f dest qs :
  mkdir_walk f [] (parent dest) = Ok qs → dest ≠ [] → dest ∉ qs.
Proof.
  intros Hqs Hne Hin.
  apply (mkdir_walk_new _ _ _ _ Hqs) in Hin as (_ & _ & _ & Hpre).
  cbn [app] in Hpre. apply prefix_length in Hpre.
  destruct (exists_last Hne) as (d & s & ->).
  rewrite parent_snoc, length_app in Hpre. cbn in Hpre. lia.
Qed.

Lemma fs_exists_dest_made f dest qs :
  mkdir_walk f [] (parent dest) = Ok qs →
  fs_exists (add_dirs f qs) dest = fs_exists f dest.
Proof.
  intros Hqs. destruct dest as [|s dest]; [reflexivity|].
  eapply fs_exists_add_dirs; [exact Hqs|].
  eapply mkdir_parent_not_dest; [exact Hqs|discriminate].
Qed.

(** The check against the previous Index, when it returns. *)
Lemma check_previous_ok root prev_all id fingerprint rel_path dest w b w' :
  check_previous root (JObj prev_all) id fingerprint rel_path dest w = (Ok b, w') →
  b = up_to_date prev_all id fingerprint rel_path (files w) dest
  ∧ if b then w' = w
    else match moved_from root prev_all id rel_path with
         | Some old_abs =>
             if fs_exists (files w) old_abs then
               ∃ ds f2,
                 fs_is_file (files w) old_abs = true
                 ∧ pruning root (delete old_abs (files w)) (rev (parent old_abs)) ds f2
                 ∧ w' = {| self := self w; files := f2;
                           trace := trace w ++ Unlink old_abs :: List.map Rmdir ds |}
             else w' = w
         | None => w' = w
         end.
Proof.
  unfold check_previous, up_to_date, moved_from. intros H.
  ok_bind H as all w0 Hall. injection Hall as <-.
  ok_bind H as prev w0 Hprev.
  destruct (dict_get_default prev_all id (JObj [])) as [| | | | |prev'];
    try discriminate.
  injection Hprev as ->.
  ok_bind H as f w0 Hf.
  destruct (py_eq (dict_get prev "last_edited_time") fingerprint
            && py_eq (dict_get prev "path") (JStr rel_path)
            && fs_exists (files w) dest) eqn:Hhit.
  { ok_leaf H. auto. }
  ok_bind H as u w1 Hold. ok_leaf H. split; [reflexivity|].
  destruct (dict_get prev "path") as [| | |s| |] eqn:Hpath;
    cbn [truthy py_eq andb negb] in Hold;
    try (ok_leaf Hold; reflexivity);
    try (destruct (truthy _); [|ok_leaf Hold; reflexivity]; cbn [andb negb] in Hold).
  - (* a boolean *)
    destruct b; cbn in Hold; [|ok_leaf Hold; reflexivity].
    ok_bind Hold as old_abs v0 Hunder. discriminate.
  - destruct (negb (n =? 0)%Z); cbn in Hold; [|ok_leaf Hold; reflexivity].
    ok_bind Hold as old_abs v0 Hunder. discriminate.
  - destruct (String.eqb s "") eqn:Hs; cbn [negb andb orb] in *.
    { ok_leaf Hold. reflexivity. }
    destruct (String.eqb s rel_path) eqn:Hrel; cbn [negb] in *.
    { ok_leaf Hold. reflexivity. }
    ok_bind Hold as old_abs v0 Hunder. injection Hunder as <-.
    ok_bind Hold as f v0 Hf.
    destruct (fs_exists (files w) (joinpath root s)); [|ok_leaf Hold; reflexivity].
    ok_bind Hold as u' v1 Hunlink.
    apply unlink_ok in Hunlink as (-> & -> & Hfile).
    destruct (cleanup_empty_dirs_spec (parent (joinpath root s)) root
                {| self := self w; files := delete (joinpath root s) (files w);
                   trace := trace w ++ [Unlink (joinpath root s)] |})
      as (ds & f2 & Hpr & Hrun).
    rewrite Hrun in Hold. destruct u. injection Hold as <-.
    cbn [self files trace] in *. rewrite <- app_assoc. eauto 10.
  - destruct items; cbn in Hold; [ok_leaf Hold; reflexivity|].
    ok_bind Hold as old_abs v0 Hunder. discriminate.
  - destruct fields; cbn in Hold; [ok_leaf Hold; reflexivity|].
    ok_bind Hold as old_abs v0 Hunder. discriminate.
Qed.

Lemma keeps_page_output_path_disk page_id root :
  keeps disk_kept (page_output_path page_id root).
Proof.
  intros w.
  pose proof (keeps_page_output_path page_id root w) as (Hdir & _).
  unfold page_output_path, on_self in *.
  destruct (match _page_output_path (self w) page_id root with
            | Some rm => rm
            | None => (Raise RecursionError, self w)
            end) as [r m]. repeat split. exact Hdir.
Qed.

Lemma keeps_entry_lines_disk dest pages : keeps disk_kept (entry_lines dest pages).
Proof.
  induction pages as [|p pages IH]; cbn [entry_lines]; [repeat disk_step|].
  repeat first [ exact IH
               | apply keeps_page_output_path_disk
               | apply keeps_on_self_disk; intros m;
                 destruct (_page_cache m !! _); reflexivity
               | disk_step ].
Qed.

(** A database file that is written holds one text, and the task
    changes nothing else on the disk. *)
Lemma write_database_index_ok dest db database_id w w' :
  _write_database_index_async client dest db database_id w = (Ok (), w') →
  ∃ text,
    dest ≠ [] ∧ fs_is_dir (files w) (parent dest) = true
    ∧ files w !! dest ≠ Some Dir
    ∧ dir_kept w w'
    ∧ files w' = <[dest := File (Text text)]> (files w)
    ∧ trace w' = trace w ++ [Write dest (Text text)].
Proof.
  unfold _write_database_index_async. intros H.
  ok_bind H as title w1 Htitle.
  ok_bind H as entries w2 Hentries.
  ok_leaf H. apply write_text_ok in H as (-> & -> & Hne & Hdir & Hnd).
  match type of Hentries with
  | ?c w = _ => assert (keeps disk_kept c) as Hkeeps
  end.
  { repeat first [ apply keeps_entry_lines_disk | disk_step ]. }
  apply (keeps_result _ _ _ _ _ Hkeeps) in Hentries as (Hd & Hf & Ht).
  cbn [self files trace]. rewrite Hf, Ht in *. eauto 10.
Qed.

(** What a database task that returns has done, step by step. *)
Lemma handle_database_ok root incremental prev_dbs did w o w' :
  handle_database client root incremental prev_dbs did w = (Ok o, w') →
  ∃ db,
    _ensure_database (self w) (JStr did) = Ok db
    ∧ if truthy (dict_get db "archived") then o = None ∧ w' = w
      else
        ∃ folder qs rel (up_to_date : bool) w2,
          _database_folder_path (self w) (JStr did) root = Ok folder
          ∧ mkdir_walk (files w) [] folder = Ok qs
          ∧ relative_to (folder ++ ["__database.md"]) root = Ok rel
          ∧ (if incremental && negb (is_none prev_dbs)
             then check_previous root prev_dbs did
                    (py_or (dict_get db "last_edited_time") (JStr ""))
                    (as_posix rel) (folder ++ ["__database.md"])
             else mret false)
              {| self := self w; files := add_dirs (files w) qs;
                 trace := trace w ++ List.map Mkdir qs |}
            = (Ok up_to_date, w2)
          ∧ o = Some (did,
                      index_entry (py_or (dict_get db "last_edited_time") (JStr ""))
                                  (as_posix rel),
                      if up_to_date then 0%nat else 1%nat)
          ∧ if up_to_date then w' = w2
            else _write_database_index_async client (folder ++ ["__database.md"])
                   db did w2 = (Ok (), w').
Proof.
  unfold handle_database. intros H.
  ok_bind H as db w0 Hdb.
  ok_bind Hdb as m w1 Hm. ok_leaf Hdb. rename Hdb into Hensure.
  exists db. split; [exact Hensure|].
  destruct (truthy (dict_get db "archived")).
  { ok_leaf H. auto. }
  ok_bind H as folder w1 Hfolder.
  ok_bind Hfolder as m' w1' Hm'. ok_leaf Hfolder.
  ok_bind H as u w1 Hmk. apply mkdir_p_ok in Hmk as (qs & Hqs & -> & ->).
  cbn [self files trace] in H.
  change (joinpath folder "__database.md") with (folder ++ ["__database.md"]) in H.
  ok_bind H as rel w1 Hrel.
  ok_bind H as up w2 Hup.
  exists folder, qs, rel, up, w2.
  repeat (split; [assumption|]).
  destruct up.
  - ok_leaf H. auto.
  - ok_bind H as u' w3 Hwrite. ok_leaf H. destruct u'. auto.
Qed.

(** From the steps of a task to the table. *)
Lemma decision_of root prev_all id fingerprint rel_path dest qs w w1 up w2 w' o :
  mkdir_walk (files w) [] (parent dest) = Ok qs →
  files w1 = add_dirs (files w) qs →
  trace w1 = trace w ++ List.map Mkdir qs →
  check_previous root (JObj prev_all) id fingerprint rel_path dest w1 = (Ok up, w2) →
  (if up : bool then files w' = files w2 ∧ trace w' = trace w2
   else ∃ c, files w' = <[dest := File c]> (files w2)
             ∧ trace w' = trace w2 ++ [Write dest c]) →
  o = Some (id, index_entry fingerprint rel_path, if up then 0%nat else 1%nat) →
  decision_table root prev_all id fingerprint rel_path dest w w' o.
Proof.
  intros Hqs Hf1 Ht1 Hcheck Hwrite ->.
  apply check_previous_ok in Hcheck as [Hup Hcase].
  unfold up_to_date in Hup. rewrite Hf1, (fs_exists_dest_made _ _ _ Hqs) in Hup.
  fold (up_to_date prev_all id fingerprint rel_path (files w) dest) in Hup.
  exists qs. split; [exact Hqs|]. cbn zeta. rewrite <- Hup.
  destruct up.
  { subst w2. destruct Hwrite as [-> ->]. auto. }
  destruct Hwrite as (c & Hfiles & Htrace). exists c. split; [reflexivity|].
  destruct (moved_from root prev_all id rel_path) as [old_abs|].
  2: { subst w2. rewrite Hfiles, Htrace, Hf1, Ht1, <- app_assoc. auto. }
  destruct (fs_exists (files w1) old_abs) eqn:Hex1.
  - destruct Hcase as (ds & f2 & Hfile & Hpr & ->). cbn [files trace] in *.
    assert (files w !! old_abs = files w1 !! old_abs) as Hsame.
    { rewrite Hf1, add_dirs_lookup.
      destruct (decide (old_abs ∈ qs)) as [Hin|]; [|reflexivity].
      unfold fs_is_file in Hfile. rewrite Hf1, add_dirs_lookup, decide_True in Hfile
        by exact Hin. discriminate. }
    assert (fs_exists (files w) old_abs = true) as ->.
    { unfold fs_exists in *. rewrite Hsame. exact Hex1. }
    exists ds, f2. unfold fs_is_file in *. rewrite Hsame.
    rewrite Hf1 in Hpr. rewrite Hfiles, Htrace, Ht1, <- !app_assoc. auto.
  - subst w2.
    assert (fs_exists (files w) old_abs = false) as ->.
    { unfold fs_exists in *. destruct old_abs; [discriminate|].
      destruct (files w !! (s :: old_abs)) as [n|] eqn:Hlook; [|reflexivity].
      rewrite Hf1, (mkdir_walk_extends _ _ _ _ _ _ Hqs Hlook) in Hex1. discriminate. }
    rewrite Hfiles, Htrace, Hf1, Ht1, <- app_assoc. auto.
Qed.

End decision.

(** ** C2: the decision table of incremental mode *)



(** ** Resolved paths are below the root *)

Section below_root.

Import NotionMirror.

Lemma chars_str_of l : chars (str_of l) = l.
Proof. apply list_ascii_of_string_of_list_ascii. Qed.

Lemma split_on_plain s : ∀ cur,
  Forall no_slash cur → Forall plain (split_on "/" cur s).
Proof.
  induction s as [|c s IH]; intros cur Hcur; cbn [split_on].
  { constructor; [|constructor]. unfold plain. rewrite chars_str_of.
    apply Forall_rev, Hcur. }
  destruct (Ascii.eqb c "/") eqn:Hc.
  - constructor; [|apply IH; constructor].
    unfold plain. rewrite chars_str_of. apply Forall_rev, Hcur.
  - apply IH. constructor; [|exact Hcur].
    unfold no_slash. intros ->. discriminate.
Qed.

Lemma components_plain s : Forall plain (components s).
Proof.
  unfold components. apply List.Forall_forall. intros x Hx.
  apply filter_In in Hx as [Hx _]. revert x Hx.
  apply List.Forall_forall, split_on_plain. constructor.
Qed.

Lemma split_on_head sep s : ∀ cur,
  ∃ more rest, split_on sep cur s = str_of (rev cur ++ more) :: rest.
Proof.
  induction s as [|c s IH]; intros cur; cbn [split_on].
  { exists [], []. rewrite app_nil_r. reflexivity. }
  destruct (Ascii.eqb c sep).
  - exists [], (split_on sep [] s). rewrite app_nil_r. reflexivity.
  - destruct (IH (c :: cur)) as (more & rest & ->).
    exists (c :: more), rest. cbn [rev]. rewrite <- app_assoc. reflexivity.
Qed.

(** A name that starts with neither a separator nor a dot has a first
    component. *)
Lemma components_head c s :
  c ≠ "/"%char → c ≠ "."%char → components (String c s) ≠ [].
Proof.
  intros Hsep Hdot. unfold components, chars. cbn [list_ascii_of_string split_on].
  destruct (Ascii.eqb c "/") eqn:Hc; [apply Ascii.eqb_eq in Hc; contradiction|].
  destruct (split_on_head "/" (list_ascii_of_string s) [c]) as (more & rest & ->).
  cbn [rev app List.filter str_of string_of_list_ascii].
  destruct more as [|c' more]; cbn.
  - destruct (Ascii.eqb c ".") eqn:Hd; [apply Ascii.eqb_eq in Hd; contradiction|].
    cbn. discriminate.
  - destruct (Ascii.eqb c "."); cbn; discriminate.
Qed.

Lemma strip_suffix_plain s : plain s → plain (strip_suffix s).
Proof.
  unfold strip_suffix, plain. intros Hs.
  destruct (rfind_dot (chars s) 0 None) as [i|]; [|exact Hs].
  destruct (_ && _); [|exact Hs].
  rewrite chars_str_of. apply Forall_take, Hs.
Qed.

Lemma below_at root p : below root p → at_or_below root p.
Proof. intros (rel & -> & _ & Hrel). exists rel. auto. Qed.

Lemma at_or_below_refl root : at_or_below root root.
Proof. exists []. rewrite app_nil_r. auto. Qed.

Lemma below_app base root rel :
  at_or_below base root → rel ≠ [] → Forall plain rel → below base (root ++ rel).
Proof.
  intros (mid & -> & Hmid) Hne Hrel. exists (mid ++ rel).
  split; [rewrite app_assoc; reflexivity|].
  split; [intros Heq; apply app_eq_nil in Heq as [_ ?]; contradiction|].
  apply Forall_app; auto.
Qed.

Lemma below_extend base p rel :
  below base p → Forall plain rel → below base (p ++ rel).
Proof.
  intros (r & -> & Hne & Hr) Hrel. exists (r ++ rel).
  split; [rewrite app_assoc; reflexivity|].
  split; [intros Heq; apply app_eq_nil in Heq as [? _]; contradiction|].
  apply Forall_app; auto.
Qed.

Lemma below_prefix base p : below base p → strictly_below base p.
Proof.
  intros (rel & -> & Hne & _). split; [apply prefix_app_r; reflexivity|].
  intros Heq. apply Hne. apply (app_inv_head base). rewrite app_nil_r. exact Heq.
Qed.

(** Removing the suffix of the last component stays below the root. *)
Lemma with_suffix_empty_below base p :
  below base p → ∃ p', with_suffix_empty p = Ok p' ∧ below base p'.
Proof.
  intros (rel & -> & Hne & Hrel).
  destruct (exists_last Hne) as (rel' & x & ->).
  apply Forall_app in Hrel as [Hrel' Hx]. apply List.Forall_inv in Hx.
  unfold with_suffix_empty, name.
  rewrite app_assoc, removelast_last, last_last.
  destruct ((base ++ rel') ++ [x]) eqn:Heq.
  { apply app_eq_nil in Heq as [_ [=]]. }
  eexists. split; [reflexivity|].
  exists (rel' ++ [strip_suffix x]). split; [rewrite app_assoc; reflexivity|].
  split; [intros Hnil; apply app_eq_nil in Hnil as [_ [=]]|].
  apply Forall_app. split; [exact Hrel'|].
  constructor; [apply strip_suffix_plain, Hx|constructor].
Qed.

(** The file of a page in a bucket of the root. *)
Lemma bucket_below base root bucket page file :
  at_or_below base root →
  is_absolute bucket = false → components bucket = [bucket] → plain bucket →
  _page_file_name page = Ok file →
  below base (joinpath (joinpath root bucket) file).
Proof.
  intros Hroot Habs Hcomp Hplain Hfile.
  rewrite joinpath_bucket, Hcomp;
    [|exact Habs|eapply page_file_name_relative, Hfile].
  apply below_app; [exact Hroot|discriminate|].
  constructor; [exact Hplain|apply components_plain].
Qed.

(** The folder of a database is below the root. *)
Lemma database_folder_below base root m database_id folder :
  at_or_below base root →
  _database_folder_path m database_id root = Ok folder →
  below base folder.
Proof.
  intros Hroot. unfold _database_folder_path.
  destruct (_ensure_database m database_id) as [db|]; [|discriminate]. cbn.
  destruct (database_title db) as [raw|]; [|discriminate]. cbn.
  destruct (_id8 database_id) as [id8|]; [|discriminate]. cbn.
  intros [= <-].
  change ("DB_" +:+ safe_name raw "database" +:+ "_" +:+ id8)
    with (String "D" ("B_" +:+ safe_name raw "database" +:+ "_" +:+ id8)).
  rewrite joinpath_relative by reflexivity.
  apply below_app; [exact Hroot| |apply components_plain].
  apply components_head; discriminate.
Qed.

Lemma remember_tidy base k r m :
  tidy base m → (∀ p, r = Ok p → below base p) →
  tidy base (remember k r m).2 ∧ ∀ p, (remember k r m).1 = Ok p → below base p.
Proof.
  intros Hm Hr. destruct r as [p|e]; cbn; [|split; [exact Hm|discriminate]].
  split; [|intros p' [= <-]; auto].
  intros k' p'. cbn. rewrite lookup_insert_Some.
  intros [[_ <-]|[_ Hk]]; [auto|eauto].
Qed.

Ltac plain_literal :=
  unfold plain; cbn; repeat constructor; discriminate.

(** Path resolution keeps the remembered paths below the root, and
    returns a path below the root. *)
Lemma resolve_tidy base fuel : ∀ root page_id stack m r m',
  at_or_below base root →
  tidy base m →
  resolve fuel root page_id stack m = Some (r, m') →
  tidy base m' ∧ ∀ p, r = Ok p → below base p.
Proof.
  induction fuel as [|fuel IH]; intros root page_id stack m r m' Hroot Hm H;
    [discriminate|].
  cbn [resolve] in H.
  destruct (hash_key page_id) as [k|e] eqn:Hk;
    [|injection H as <- <-; split; [exact Hm|discriminate]].
  destruct (cached m root k) as [p|] eqn:Hcached.
  { injection H as <- <-. split; [exact Hm|]. intros p' [= <-].
    unfold cached in Hcached.
    destruct (_page_path_cache m !! k) as [p0|] eqn:Hlook; [|discriminate].
    destruct (String.prefix _ _); [|discriminate]. injection Hcached as <-.
    eapply Hm, Hlook. }
  assert (∀ bucket page,
            is_absolute bucket = false → components bucket = [bucket] →
            plain bucket → ∀ rr,
            rr = (file ← _page_file_name page;
                  Ok (joinpath (joinpath root bucket) file)) →
            ∀ p, rr = Ok p → below base p) as Hbucket.
  { intros bucket page Habs Hcomp Hplain rr -> p.
    destruct (_page_file_name page) as [n|] eqn:Hn; [|discriminate]. cbn.
    intros [= <-]. eapply bucket_below; eassumption. }
  destruct (decide (k ∈ stack)) as [Hin|Hout].
  { injection H as H. rewrite (surjective_pairing (remember _ _ _)) in H.
    injection H as <- <-. apply remember_tidy; [exact Hm|].
    destruct (_ensure_page m page_id) as [page|]; [|discriminate]. cbn.
    eapply (Hbucket "_cycles" page); try reflexivity. plain_literal. }
  destruct (_ensure_page m page_id) as [page|e] eqn:Hpage; cbn in H;
    [|injection H as <- <-; split; [exact Hm|discriminate]].
  destruct (or_empty_dict (dict_get page "parent")) as [parent|e] eqn:Hparent;
    cbn in H; [|injection H as <- <-; split; [exact Hm|discriminate]].
  destruct (is_str (dict_get parent "type") "workspace").
  { injection H as H. rewrite (surjective_pairing (remember _ _ _)) in H.
    injection H as <- <-. apply remember_tidy; [exact Hm|].
    eapply (Hbucket "_workspace" page); try reflexivity. plain_literal. }
  destruct (is_str (dict_get parent "type") "database_id").
  { injection H as H. rewrite (surjective_pairing (remember _ _ _)) in H.
    injection H as <- <-. apply remember_tidy; [exact Hm|].
    intros p.
    destruct (_database_folder_path m _ root) as [folder|] eqn:Hfolder;
      [|discriminate]. cbn.
    destruct (_page_file_name page) as [file|] eqn:Hfile; [|discriminate]. cbn.
    intros [= <-].
    rewrite joinpath_relative by (eapply page_file_name_relative, Hfile).
    apply below_extend; [|apply components_plain].
    eapply database_folder_below; eassumption. }
  destruct (is_str (dict_get parent "type") "page_id").
  2: { injection H as H. rewrite (surjective_pairing (remember _ _ _)) in H.
       injection H as <- <-. apply remember_tidy; [exact Hm|].
       eapply (Hbucket "_other" page); try reflexivity. plain_literal. }
  destruct (resolve fuel root (dict_get parent "page_id") ({[k]} ∪ stack) m)
    as [[r0 m0]|] eqn:Hrec; [|discriminate].
  destruct (IH _ _ _ _ _ _ Hroot Hm Hrec) as [Hm0 Hr0].
  injection H as H. rewrite (surjective_pairing (remember _ _ _)) in H.
  injection H as <- <-. apply remember_tidy; [exact Hm0|].
  intros p. unfold try_except.
  destruct r0 as [parent_path|e]; cbn.
  2: { eapply (Hbucket "_orphans" page); try reflexivity. plain_literal. }
  destruct (with_suffix_empty_below base parent_path (Hr0 _ eq_refl))
    as (parent_dir & -> & Hdir). cbn.
  destruct (_page_file_name page) as [file|] eqn:Hfile; cbn; [|discriminate].
  intros [= <-].
  rewrite joinpath_relative by (eapply page_file_name_relative, Hfile).
  apply below_extend; [exact Hdir|apply components_plain].
Qed.

Lemma page_output_path_tidy base m page_id root r m' :
  at_or_below base root →
  tidy base m →
  _page_output_path m page_id root = Some (r, m') →
  tidy base m' ∧ ∀ p, r = Ok p → below base p.
Proof. apply resolve_tidy. Qed.

End below_root.

(** ** Steps with an invariant and a result *)

Section ensures_rules.

Import NotionMirror.

Variable I : world → Prop.
Variable R : world → world → Prop.
Hypothesis R_refl : ∀ w, R w w.
Hypothesis R_trans : ∀ w1 w2 w3, R w1 w2 → R w2 w3 → R w1 w3.

Lemma ensures_weaken {A} (Q Q' : A → Prop) (c : M A) :
  ensures I R Q c → (∀ a, Q a → Q' a) → ensures I R Q' c.
Proof.
  intros Hc Hq w Hw. destruct (Hc w Hw) as (Hi & Hr & Ha). auto.
Qed.

Lemma ensures_ret {A} (a : A) : ensures I R (fun x => x = a) (mret a : M A).
Proof. intros w Hw. cbn. repeat split; [exact Hw|apply R_refl|congruence]. Qed.

Lemma ensures_lift {A} (r : result A) : ensures I R (fun a => r = Ok a) (lift r).
Proof. intros w Hw. cbn. repeat split; [exact Hw|apply R_refl|auto]. Qed.

Lemma ensures_get_self : ensures I R (fun _ => True) get_self.
Proof. intros w Hw. cbn. repeat split; [exact Hw|apply R_refl]. Qed.

Lemma ensures_get_files : ensures I R (fun _ => True) get_files.
Proof. intros w Hw. cbn. repeat split; [exact Hw|apply R_refl]. Qed.

Lemma ensures_bind {A B} (Q1 : A → Prop) (Q2 : B → Prop) (c : M A) (k : A → M B) :
  ensures I R Q1 c → (∀ a, Q1 a → ensures I R Q2 (k a)) → ensures I R Q2 (c ≫= k).
Proof.
  intros Hc Hk w Hw. rewrite bind_eq. destruct (Hc w Hw) as (Hi & Hr & Ha).
  destruct (c w) as [[a|e] w1]; cbn [fst snd] in *.
  - destruct (Hk a (Ha a eq_refl) w1 Hi) as (Hi2 & Hr2 & Hb).
    repeat split; [exact Hi2|eapply R_trans; eassumption|exact Hb].
  - repeat split; [exact Hi|exact Hr|discriminate].
Qed.

Lemma ensures_try {A} (Q1 Q : A → Prop) (c : M A) (h : exn → M A) :
  ensures I R Q1 c → (∀ a, Q1 a → Q a) → (∀ e, ensures I R Q (h e)) →
  ensures I R Q (try_M c h).
Proof.
  intros Hc Hq Hh w Hw. unfold try_M. destruct (Hc w Hw) as (Hi & Hr & Ha).
  destruct (c w) as [[a|e] w1]; cbn [fst snd] in *.
  - repeat split; [exact Hi|exact Hr|]. intros a' [= <-]. auto.
  - destruct (Hh e w1 Hi) as (Hi2 & Hr2 & Hb).
    repeat split; [exact Hi2|eapply R_trans; eassumption|exact Hb].
Qed.

Lemma ensures_for_each {A} (l : list A) (body : A → M unit) :
  (∀ x, ensures I R (fun _ => True) (body x)) →
  ensures I R (fun _ => True) (for_each l body).
Proof.
  intros Hb. induction l as [|x l IH]; cbn [for_each].
  { eapply ensures_weaken; [apply ensures_ret|auto]. }
  eapply ensures_bind; [apply Hb|intros _ _; exact IH].
Qed.

Lemma ensures_gather (handle : string → M (option outcome)) ids :
  (∀ id, ensures I R (fun _ => True) (handle id)) →
  ensures I R (fun _ => True) (gather handle ids).
Proof.
  intros Hh. induction ids as [|id ids IH]; cbn [gather].
  { eapply ensures_weaken; [apply ensures_ret|auto]. }
  eapply ensures_bind; [apply Hh|intros o _].
  eapply ensures_bind; [exact IH|intros rest _].
  eapply ensures_weaken; [apply ensures_ret|auto].
Qed.

End ensures_rules.

(** ** The write phase of a full rebuild stays in the temporary
    directory *)

Section confined.

Import NotionMirror.

Variable client : remote.
Variables tmp final : path.
Hypothesis Hsiblings : siblings tmp final.

Lemma siblings_length : length tmp = length final.
Proof.
  destruct Hsiblings as (Ha & Hb & Hp & _).
  destruct (exists_last Ha) as (a & x & ->).
  destruct (exists_last Hb) as (b & y & ->).
  rewrite !parent_snoc in Hp. subst. rewrite !length_app. reflexivity.
Qed.

(** Nothing on the way to a path at or below one sibling is at or below
    the other. *)
Lemma sibling_apart p x :
  tmp `prefix_of` p → x `prefix_of` p → ¬ final `prefix_of` x.
Proof.
  intros Hp Hx Hf. pose proof siblings_length as Hlen.
  destruct Hsiblings as (_ & _ & _ & Hne).
  destruct (prefix_weak_total _ _ _ Hx Hp) as [Hxt|Htx].
  - apply Hne. symmetry. apply prefix_length_eq.
    + etransitivity; eassumption.
    + lia.
  - destruct (prefix_weak_total _ _ _ Htx Hf) as [H1|H1];
      apply prefix_length_eq in H1; try lia; congruence.
Qed.

Lemma sibling_incomparable : ¬ final `prefix_of` tmp ∧ ¬ tmp `prefix_of` final.
Proof.
  pose proof siblings_length as Hlen.
  destruct Hsiblings as (_ & _ & _ & Hne).
  split; intros H; apply prefix_length_eq in H; try lia; congruence.
Qed.

Lemma leaves_alone_refl w : leaves_alone final w w.
Proof.
  split; [intros p _; reflexivity|]. exists []. rewrite app_nil_r. auto.
Qed.

Lemma leaves_alone_disk w w' :
  files w' = files w → trace w' = trace w → leaves_alone final w w'.
Proof.
  intros Hf Ht. split; [intros p _; rewrite Hf; reflexivity|].
  exists []. rewrite app_nil_r. auto.
Qed.

Lemma leaves_alone_trans w1 w2 w3 :
  leaves_alone final w1 w2 → leaves_alone final w2 w3 → leaves_alone final w1 w3.
Proof.
  intros (Hf1 & e1 & Ht1 & He1) (Hf2 & e2 & Ht2 & He2). split.
  - intros p Hp. rewrite Hf2, Hf1; auto.
  - exists (e1 ++ e2). split; [rewrite Ht2, Ht1, app_assoc; reflexivity|].
    apply Forall_app; auto.
Qed.

(** A call of the file system whose changes are outside [final]. *)
Lemma ensures_fs call :
  (∀ f f' evs, call f = Ok (f', evs) →
     same_below final f f' ∧ Forall (outside final) evs) →
  ensures (tidy_world tmp) (leaves_alone final) (fun _ => True) (fs call).
Proof.
  intros Hcall w Hw. unfold fs.
  destruct (call (files w)) as [[f' evs]|e] eqn:Hc; cbn.
  - destruct (Hcall _ _ _ Hc) as [Hsame Hevs].
    split; [exact Hw|]. split; [|auto]. split; [exact Hsame|eauto].
  - split; [exact Hw|]. split; [apply leaves_alone_refl|auto].
Qed.

Lemma mkdir_p_outside p f f' evs :
  tmp `prefix_of` p → mkdir_p p f = Ok (f', evs) →
  same_below final f f' ∧ Forall (outside final) evs.
Proof.
  intros Hp H. apply mkdir_p_ok in H as (qs & Hqs & -> & ->).
  assert (∀ q, q ∈ qs → ¬ final `prefix_of` q) as Hout.
  { intros q Hq. apply (mkdir_walk_new _ _ _ _ Hqs) in Hq as (_ & _ & _ & Hpre).
    eapply sibling_apart; eassumption. }
  split.
  - intros x Hx. rewrite add_dirs_lookup.
    destruct (decide (x ∈ qs)) as [Hin|]; [|reflexivity].
    exfalso. eapply Hout; eassumption.
  - apply List.Forall_forall. intros e He.
    apply in_map_iff in He as (q & <- & Hq). apply Hout, list_elem_of_In, Hq.
Qed.

Lemma write_text_outside p c f f' evs :
  tmp `prefix_of` p → write_text p c f = Ok (f', evs) →
  same_below final f f' ∧ Forall (outside final) evs.
Proof.
  intros Hp H. apply write_text_ok in H as (-> & -> & _).
  assert (¬ final `prefix_of` p) as Hout
    by (eapply sibling_apart; [exact Hp|reflexivity]).
  split.
  - intros x Hx. apply lookup_insert_ne. intros ->. contradiction.
  - repeat constructor. exact Hout.
Qed.

Lemma lookup_without f p x :
  without f p !! x = if decide (p `prefix_of` x) then None else f !! x.
Proof.
  unfold without. destruct (decide (p `prefix_of` x)) as [Hp|Hp].
  - apply map_lookup_filter_None. right. intros n _ Hn. exact (Hn Hp).
  - destruct (f !! x) as [n|] eqn:Hx.
    + apply map_lookup_filter_Some. split; [exact Hx|exact Hp].
    + apply map_lookup_filter_None. left. exact Hx.
Qed.

Lemma rmtree_outside f f' evs :
  rmtree_ignore_errors tmp f = Ok (f', evs) →
  same_below final f f' ∧ Forall (outside final) evs.
Proof.
  destruct sibling_incomparable as [Hft Htf].
  unfold rmtree_ignore_errors.
  destruct (f !! tmp) as [[c|]|]; intros [= <- <-];
    try (split; [intros x _; reflexivity|constructor]).
  split.
  - intros x Hx. rewrite lookup_without.
    destruct (decide (tmp `prefix_of` x)) as [Ht|]; [|reflexivity].
    exfalso. eapply sibling_apart; [exact Ht|reflexivity|exact Hx].
  - repeat constructor; assumption.
Qed.

(** A change of the caches that leaves the remembered paths as they
    are. *)
Lemma ensures_on_self {A} (c : t → result A * t) :
  (∀ m, _page_path_cache (c m).2 = _page_path_cache m) →
  ensures (tidy_world tmp) (leaves_alone final) (fun _ => True) (on_self c).
Proof.
  intros Hc w Hw. unfold on_self. specialize (Hc (self w)).
  destruct (c (self w)) as [r m]. cbn in *.
  split; [|split; [apply leaves_alone_disk; reflexivity|auto]].
  unfold tidy_world, tidy in *. cbn. rewrite Hc. exact Hw.
Qed.

Lemma ensures_page_output_path page_id root :
  at_or_below tmp root →
  ensures (tidy_world tmp) (leaves_alone final) (below tmp)
    (page_output_path page_id root).
Proof.
  intros Hroot w Hw. unfold page_output_path, on_self.
  destruct (page_output_path_total (self w) page_id root) as (r & m' & Hres & _).
  rewrite Hres. cbn.
  destruct (page_output_path_tidy tmp _ _ _ _ _ Hroot Hw Hres) as [Hm' Hr].
  split; [exact Hm'|]. split; [apply leaves_alone_disk; reflexivity|exact Hr].
Qed.

End confined.

(** One step of a proof by the rules above, for steps whose result
    does not matter. *)
Ltac confined_step :=
  lazymatch goal with
  | |- ensures _ _ _ (mbind _ _) =>
      eapply (ensures_bind _ _ (leaves_alone_trans _) (fun _ => True));
      [|intros ? _]
  | |- ensures _ _ _ (mret _) =>
      eapply ensures_weaken;
      [apply (ensures_ret _ _ (leaves_alone_refl _))|intros; exact Logic.I]
  | |- ensures _ _ _ (NotionMirror.lift _) =>
      eapply ensures_weaken;
      [apply (ensures_lift _ _ (leaves_alone_refl _))|intros; exact Logic.I]
  | |- ensures _ _ _ NotionMirror.get_self =>
      apply (ensures_get_self _ _ (leaves_alone_refl _))
  | |- ensures _ _ _ NotionMirror.get_files =>
      apply (ensures_get_files _ _ (leaves_alone_refl _))
  | |- ensures _ _ _ (NotionMirror.try_M _ _) =>
      eapply (ensures_try _ _ (leaves_alone_trans _) (fun _ => True));
      [|intros; exact Logic.I|intros ?]
  | |- ensures _ _ _ (NotionMirror.for_each _ _) =>
      apply (ensures_for_each _ _ (leaves_alone_refl _) (leaves_alone_trans _));
      intros ?
  | |- ensures _ _ _ (NotionMirror.gather _ _) =>
      apply (ensures_gather _ _ (leaves_alone_refl _) (leaves_alone_trans _));
      intros ?
  | |- ensures _ _ _ (NotionMirror.on_self _) =>
      apply ensures_on_self; intros ?; reflexivity
  | |- ensures _ _ _ (if ?b then _ else _) => destruct b
  | |- ensures _ _ _ (match ?x with _ => _ end) => destruct x
  end.

Section write_phase.

Import NotionMirror.

Variable client : remote.
Variables tmp final : path.
Hypothesis Hsiblings : siblings tmp final.

Local Abbreviation confined Q c := (ensures (tidy_world tmp) (leaves_alone final) Q c).

Lemma below_parent p : below tmp p → tmp `prefix_of` parent p.
Proof. intros Hp. apply strictly_below_parent, below_prefix, Hp. Qed.

Lemma below_is_prefix p : below tmp p → tmp `prefix_of` p.
Proof. intros Hp. apply below_prefix in Hp as [Hp _]. exact Hp. Qed.

Lemma confined_mkdir p :
  tmp `prefix_of` p → confined (fun _ => True) (fs (mkdir_p p)).
Proof.
  intros Hp. apply (ensures_fs tmp final). intros f f' evs.
  apply (mkdir_p_outside tmp final Hsiblings). exact Hp.
Qed.

Lemma confined_write p c :
  tmp `prefix_of` p → confined (fun _ => True) (fs (write_text p c)).
Proof.
  intros Hp. apply (ensures_fs tmp final). intros f f' evs.
  apply (write_text_outside tmp final Hsiblings). exact Hp.
Qed.

Lemma confined_rmtree : confined (fun _ => True) (fs (rmtree_ignore_errors tmp)).
Proof.
  apply (ensures_fs tmp final). intros f f' evs.
  apply (rmtree_outside tmp final Hsiblings).
Qed.

Lemma confined_write_page_markdown dest page :
  below tmp dest →
  confined (fun _ => True) (_write_page_markdown_async client dest page).
Proof.
  intros Hdest. unfold _write_page_markdown_async.
  repeat first [ apply confined_write, below_is_prefix, Hdest | confined_step ].
Qed.

Ltac confined_auto extra :=
  repeat first [ extra | confined_step ].

Lemma confined_handle_page pid :
  confined (fun _ => True) (handle_page client tmp false JNull pid).
Proof.
  unfold handle_page. cbn [andb].
  confined_step; [repeat confined_step|].
  confined_step; [repeat confined_step|].
  eapply (ensures_bind _ _ (leaves_alone_trans _) (below tmp));
    [apply (ensures_page_output_path tmp final), at_or_below_refl|intros dest Hdest].
  confined_auto ltac:(first [ apply confined_mkdir, below_parent, Hdest
                            | apply confined_write_page_markdown, Hdest ]).
Qed.

Lemma confined_write_pages :
  confined (fun _ => True) (_write_pages_async client tmp false JNull).
Proof.
  unfold _write_pages_async.
  confined_auto ltac:(apply confined_handle_page).
Qed.

Lemma below_parent_at p : below tmp p → at_or_below tmp (parent p).
Proof.
  intros (rel & -> & Hne & Hrel).
  destruct (exists_last Hne) as (rel' & x & ->).
  rewrite app_assoc, parent_snoc. exists rel'. split; [reflexivity|].
  apply Forall_app in Hrel as [Hrel' _]. exact Hrel'.
Qed.

Lemma confined_entry_lines dest pages :
  at_or_below tmp (parent (parent dest)) →
  confined (fun _ => True) (entry_lines dest pages).
Proof.
  intros Hroot. induction pages as [|p pages IH]; cbn [entry_lines].
  { repeat confined_step. }
  eapply (ensures_bind _ _ (leaves_alone_trans _) (fun _ => True));
    [repeat confined_step|intros fields _].
  destruct (negb (truthy (dict_get fields "id"))); [exact IH|].
  confined_step.
  { destruct (dict_get fields "id"); try (repeat confined_step).
    apply ensures_on_self. intros m. destruct (_page_cache m !! s); reflexivity. }
  confined_step; [repeat confined_step|].
  confined_step.
  { eapply ensures_weaken;
      [apply (ensures_page_output_path tmp final), Hroot|auto]. }
  confined_step; [repeat confined_step|].
  confined_step; [exact IH|].
  repeat confined_step.
Qed.

Lemma confined_write_database_index folder db database_id :
  below tmp folder →
  confined (fun _ => True)
    (_write_database_index_async client (folder ++ ["__database.md"]) db database_id).
Proof.
  intros Hfolder. unfold _write_database_index_async.
  assert (below tmp (folder ++ ["__database.md"])) as Hdest.
  { apply below_extend; [exact Hfolder|]. repeat constructor; discriminate. }
  assert (at_or_below tmp (parent (parent (folder ++ ["__database.md"])))) as Hroot.
  { rewrite parent_snoc. apply below_parent_at, Hfolder. }
  confined_auto ltac:(first [ apply confined_entry_lines, Hroot
                            | apply confined_write, below_is_prefix, Hdest ]).
Qed.

Lemma confined_database_folder did :
  confined (below tmp)
    (m ← get_self; lift (_database_folder_path m (JStr did) tmp)).
Proof.
  intros w Hw. rewrite bind_eq. unfold get_self, lift. cbn [fst snd].
  split; [exact Hw|]. split; [apply leaves_alone_refl|].
  intros folder Hfolder. eapply database_folder_below; [|exact Hfolder].
  apply at_or_below_refl.
Qed.

Lemma confined_handle_database did :
  confined (fun _ => True) (handle_database client tmp false JNull did).
Proof.
  unfold handle_database. cbn [andb].
  confined_step; [repeat confined_step|].
  confined_step; [repeat confined_step|].
  eapply (ensures_bind _ _ (leaves_alone_trans _) (below tmp));
    [apply confined_database_folder|intros folder Hfolder].
  change (joinpath folder "__database.md") with (folder ++ ["__database.md"]).
  confined_auto ltac:(first [ apply confined_mkdir, below_is_prefix, Hfolder
                            | apply confined_write_database_index, Hfolder ]).
Qed.

Lemma confined_write_databases :
  confined (fun _ => True) (_write_databases_async client tmp false JNull).
Proof.
  unfold _write_databases_async.
  confined_auto ltac:(apply confined_handle_database).
Qed.

Lemma confined_populate_caches pages dbs :
  confined (fun _ => True) (_populate_caches pages dbs).
Proof. unfold _populate_caches. repeat confined_step. Qed.

Lemma confined_prefetch_pages : confined (fun _ => True) (_prefetch_pages client).
Proof. unfold _prefetch_pages, fetch_page. repeat confined_step. Qed.

Lemma confined_prefetch_databases :
  confined (fun _ => True) (_prefetch_databases client).
Proof. unfold _prefetch_databases, fetch_database. repeat confined_step. Qed.

Lemma tmp_file_prefix s : tmp `prefix_of` tmp ++ [s].
Proof. apply prefix_app_r. reflexivity. Qed.

Lemma confined_write_root_index pages dbs :
  confined (fun _ => True) (_write_root_index_async client tmp pages dbs).
Proof.
  unfold _write_root_index_async.
  change (joinpath tmp "index.md") with (tmp ++ ["index.md"]).
  apply confined_write, tmp_file_prefix.
Qed.

Lemma confined_write_access_report :
  confined (fun _ => True) (_write_access_report_async client tmp).
Proof.
  unfold _write_access_report_async.
  change (joinpath tmp "access_issues.txt") with (tmp ++ ["access_issues.txt"]).
  confined_auto ltac:(apply confined_write, tmp_file_prefix).
Qed.

Lemma confined_save_index pages_index dbs_index :
  confined (fun _ => True) (_save_index_to_async client tmp pages_index dbs_index).
Proof.
  unfold _save_index_to_async.
  change (joinpath tmp ".mirror_index.json") with (tmp ++ [".mirror_index.json"]).
  apply confined_write, tmp_file_prefix.
Qed.

(** The write phase of a full rebuild changes nothing at or below the
    final directory, however it ends. *)
Lemma confined_write_phase :
  confined (fun _ => True) (write_phase_full client tmp).
Proof.
  unfold write_phase_full.
  confined_auto ltac:(first [ apply confined_rmtree
                            | apply confined_mkdir; reflexivity
                            | apply confined_populate_caches
                            | apply confined_prefetch_databases
                            | apply confined_prefetch_pages
                            | apply confined_write_pages
                            | apply confined_write_databases
                            | apply confined_write_root_index
                            | apply confined_write_access_report
                            | apply confined_save_index ]).
Qed.

End write_phase.

(** ** Publishing the temporary directory *)

Section publish.

Import NotionMirror.

Lemma lookup_subtree f p k : subtree f p !! k = f !! (p ++ k).
Proof.
  unfold subtree.
  set (pick := fun kv : path * node =>
                 if bool_decide (p `prefix_of` kv.1)
                 then Some (drop (length p) kv.1, kv.2) else None).
  assert (∀ x, (k, x) ∈ omap pick (map_to_list f) ↔ f !! (p ++ k) = Some x) as Hin.
  { intros x. rewrite list_elem_of_omap. split.
    - intros ([q n] & Hq & Hpick). apply elem_of_map_to_list in Hq.
      unfold pick in Hpick. cbn [fst snd] in Hpick.
      destruct (bool_decide (p `prefix_of` q)) eqn:Hpre; [|discriminate].
      apply bool_decide_eq_true in Hpre as [rest ->].
      rewrite drop_app_length in Hpick. injection Hpick as -> ->. exact Hq.
    - intros Hx. exists (p ++ k, x). split; [apply elem_of_map_to_list, Hx|].
      unfold pick. cbn [fst snd].
      rewrite bool_decide_eq_true_2 by (apply prefix_app_r; reflexivity).
      rewrite drop_app_length. reflexivity. }
  destruct (f !! (p ++ k)) as [x|] eqn:Hx.
  - apply elem_of_list_to_map_1'; [|apply Hin; reflexivity].
    intros y Hy. apply Hin in Hy. congruence.
  - destruct (list_to_map (omap pick (map_to_list f)) !! k) as [y|] eqn:Hy;
      [|reflexivity].
    apply elem_of_list_to_map_2, Hin in Hy. discriminate.
Qed.

Lemma lookup_graft_in p t k : graft p t !! (p ++ k) = t !! k.
Proof. unfold graft. apply (lookup_kmap (app p)). Qed.

Lemma lookup_graft_out p t x : ¬ p `prefix_of` x → graft p t !! x = None.
Proof.
  intros Hp. unfold graft. apply (lookup_kmap_None (app p)).
  intros k Hk. exfalso. apply Hp. exists k. exact Hk.
Qed.

(** A rename that succeeds. *)
Lemma replace_ok src dst f f' evs :
  replace src dst f = Ok (f', evs) → src ≠ dst →
  is_Some (f !! src)
  ∧ f' = graft dst (subtree f src) ∪ without (without f src) dst
  ∧ evs = [Rename src dst].
Proof.
  unfold replace. intros H Hne.
  destruct src as [|s src]; [discriminate|].
  destruct dst as [|d dst]; [discriminate|].
  destruct (f !! (s :: src)) as [n|] eqn:Hsrc; [|discriminate].
  destruct (negb (fs_is_dir f (parent (d :: dst)))); [discriminate|].
  rewrite bool_decide_eq_false_2 in H by exact Hne.
  destruct (bool_decide (s :: src `prefix_of` d :: dst)); [discriminate|].
  split; [eauto|].
  destruct n, (f !! (d :: dst)) as [[c'|]|]; try discriminate;
    try (injection H as <- <-; auto).
  destruct (size (children f (d :: dst)) =? 0)%nat; [|discriminate].
  injection H as <- <-; auto.
Qed.

Lemma length_append_string (s t : string) :
  String.length (s +:+ t) = (String.length s + String.length t)%nat.
Proof. induction s as [|c s IH]; cbn; [reflexivity|]. rewrite <- IH. reflexivity. Qed.

(** The temporary directory of a full rebuild is a sibling of the final
    directory. *)
Lemma tmp_dir_sibling out tmp :
  tmp_dir_of (__init__ out) = Ok tmp → siblings tmp out.
Proof.
  unfold tmp_dir_of, with_name. cbn [output_dir __init__].
  assert (out = [] ∨ out ≠ []) as [->|Hne]
    by (destruct out; [left|right]; congruence); [discriminate|].
  destruct out as [|s out'] eqn:Hout; [congruence|]. rewrite <- Hout in *.
  clear Hout. intros [= <-].
  repeat split.
  - intros Heq. apply app_eq_nil in Heq as [_ [=]].
  - exact Hne.
  - unfold parent. rewrite removelast_last. reflexivity.
  - destruct (exists_last Hne) as (d & x & ->).
    unfold name. rewrite removelast_last, last_last.
    intros Heq. apply app_inj_tail in Heq as [_ Heq].
    apply (f_equal String.length) in Heq. rewrite length_append_string in Heq.
    cbn in Heq. lia.
Qed.

Lemma siblings_sym a b : siblings a b → siblings b a.
Proof. intros (Ha & Hb & Hp & Hne). repeat split; auto. Qed.

(** [_atomic_replace]: the tree at the final directory is removed if
    it is a directory; then comes the rename, which may fail. *)
Lemma atomic_replace_eq tmp_dir final_dir w :
  final_dir ≠ [] →
  ∃ f2 gone,
    (if fs_is_dir (files w) final_dir
     then gone = [Rmtree final_dir] ∧ f2 = without (files w) final_dir
     else gone = [] ∧ f2 = files w)
    ∧ _atomic_replace tmp_dir final_dir w
      = match replace tmp_dir final_dir f2 with
        | Ok (f3, evs) =>
            (Ok (), {| self := self w; files := f3; trace := trace w ++ gone ++ evs |})
        | Raise e =>
            (Raise e, {| self := self w; files := f2; trace := trace w ++ gone |})
        end.
Proof.
  intros Hne. unfold _atomic_replace. rewrite bind_eq. unfold get_files at 1.
  cbn iota beta. rewrite bind_eq.
  unfold fs_exists, fs_is_dir. destruct final_dir as [|s d]; [congruence|].
  unfold fs at 1, rmtree_ignore_errors.
  destruct (files w !! (s :: d)) as [[c|]|] eqn:Hlook.
  - exists (files w), []. split; [auto|]. rewrite Hlook. cbn iota beta.
    unfold fs. cbn [files trace self]. rewrite app_nil_r.
    destruct (replace tmp_dir (s :: d) (files w)) as [[f3 evs]|e]; [reflexivity|].
    rewrite world_eta. destruct w; reflexivity.
  - exists (without (files w) (s :: d)), [Rmtree (s :: d)]. split; [auto|].
    rewrite Hlook. cbn iota beta. unfold fs. cbn [files trace self].
    destruct (replace tmp_dir (s :: d) _) as [[f3 evs]|e]; [|reflexivity].
    rewrite <- app_assoc. reflexivity.
  - exists (files w), []. split; [auto|]. cbn iota beta.
    unfold mret at 1, M_ret at 1. unfold fs. rewrite app_nil_r.
    destruct (replace tmp_dir (s :: d) (files w)) as [[f3 evs]|e]; [reflexivity|].
    destruct w; reflexivity.
Qed.

End publish.

(** ** C1: a full rebuild publishes atomically *)



(** ** Recorded paths and the files they name *)

Section recorded_paths.

Import NotionMirror.

Lemma chars_append (a b : string) : chars (a +:+ b) = chars a ++ chars b.
Proof.
  unfold chars. induction a as [|c a IH]; [reflexivity|].
  change (String c a +:+ b) with (String c (a +:+ b)).
  cbn [list_ascii_of_string app]. rewrite IH. reflexivity.
Qed.

Lemma str_of_chars s : str_of (chars s) = s.
Proof. apply string_of_list_ascii_of_string. Qed.

Lemma split_on_run x : ∀ cur tail,
  Forall no_slash x →
  split_on "/" cur (x ++ tail) = split_on "/" (rev x ++ cur) tail.
Proof.
  induction x as [|c x IH]; intros cur tail Hx; [reflexivity|].
  inversion Hx as [|? ? Hc Hx']; subst. cbn [app split_on rev].
  destruct (Ascii.eqb c "/") eqn:E; [apply Ascii.eqb_eq in E; contradiction|].
  rewrite IH by exact Hx'. rewrite <- app_assoc. reflexivity.
Qed.

(** Splitting the text of a relative path gives its components back. *)
Lemma split_concat rel :
  Forall plain rel → rel ≠ [] →
  split_on "/" [] (chars (String.concat "/" rel)) = rel.
Proof.
  induction rel as [|x rel IH]; intros Hrel Hne; [congruence|].
  inversion Hrel as [|? ? Hx Hrel']; subst.
  destruct rel as [|y rel].
  - cbn [String.concat]. rewrite <- (app_nil_r (chars x)), split_on_run by exact Hx.
    cbn [split_on]. rewrite app_nil_r, rev_involutive, str_of_chars. reflexivity.
  - change (String.concat "/" (x :: y :: rel))
      with (x +:+ "/" +:+ String.concat "/" (y :: rel)).
    rewrite !chars_append, split_on_run by exact Hx.
    change (chars "/") with ["/"%char]. cbn [app split_on].
    change (Ascii.eqb "/" "/") with true. cbn iota.
    rewrite app_nil_r, rev_involutive, str_of_chars. f_equal.
    apply IH; [exact Hrel'|discriminate].
Qed.

(** The file recorded for a path below the root is that path. *)
Lemma recorded_file_below root dest rel :
  below root dest → relative_to dest root = Ok rel →
  root ++ split_on "/" [] (chars (as_posix rel)) = dest.
Proof.
  intros (rel0 & -> & Hne & Hplain). unfold relative_to.
  rewrite bool_decide_eq_true_2 by (apply prefix_app_r; reflexivity).
  rewrite drop_app_length. intros [= <-].
  destruct rel0 as [|x r]; [congruence|]. unfold as_posix.
  rewrite split_concat; [reflexivity|exact Hplain|exact Hne].
Qed.

(** ** The Index as a dict *)

Lemma dict_get_set d k v k' :
  dict_get (dict_set d k v) k' = if String.eqb k k' then v else dict_get d k'.
Proof.
  induction d as [|[k0 v0] d IH]; cbn [dict_set dict_get]; [reflexivity|].
  destruct (String.eqb k0 k) eqn:Hk; cbn [dict_get].
  - apply String.eqb_eq in Hk as ->. destruct (String.eqb k k'); reflexivity.
  - rewrite IH. destruct (String.eqb k0 k') eqn:Hk0; [|reflexivity].
    apply String.eqb_eq in Hk0 as ->. rewrite String.eqb_sym, Hk. reflexivity.
Qed.

Lemma dict_mem_In d k : dict_mem d k = true → (k, dict_get d k) ∈ d.
Proof.
  induction d as [|[k0 v0] d IH]; cbn [dict_mem dict_get]; [discriminate|].
  destruct (String.eqb k0 k) eqn:Hk.
  - apply String.eqb_eq in Hk as ->. intros _. apply elem_of_cons. auto.
  - cbn. intros H. apply elem_of_cons. auto.
Qed.

Lemma In_dict_mem d k v : (k, v) ∈ d → dict_mem d k = true.
Proof.
  induction d as [|[k0 v0] d IH]; intros Hin; [apply elem_of_nil in Hin as []|].
  cbn [dict_mem]. apply elem_of_cons in Hin as [[= <- <-]|Hin].
  - rewrite String.eqb_refl. reflexivity.
  - rewrite (IH Hin). apply orb_true_r.
Qed.

Lemma foldl_dict_set_other (results : list outcome) k : ∀ d,
  k ∉ List.map (fun o => o.1.1) results →
  dict_get (foldl (fun d o => dict_set d (fst (fst o)) (JObj (snd (fst o)))) d results) k
  = dict_get d k.
Proof.
  induction results as [|r results IH]; intros d Hk; [reflexivity|].
  cbn [foldl List.map] in *. apply not_elem_of_cons in Hk as [Hne Hk].
  rewrite IH by exact Hk. rewrite dict_get_set.
  destruct (String.eqb r.1.1 k) eqn:E; [|reflexivity].
  apply String.eqb_eq in E. congruence.
Qed.

(** With one result for each id, the Index holds the entry of each
    result under its id. *)
Lemma dict_get_index_of (results : list outcome) o :
  NoDup (List.map (fun o => o.1.1) results) → o ∈ results →
  dict_get (index_of results) o.1.1 = JObj o.1.2.
Proof.
  unfold index_of. generalize ([] : jobj).
  induction results as [|r results IH]; intros d Hnd Hin;
    [apply elem_of_nil in Hin as []|].
  cbn [foldl List.map] in *. apply NoDup_cons in Hnd as [Hr Hnd].
  apply elem_of_cons in Hin as [->|Hin]; [|apply IH; assumption].
  rewrite foldl_dict_set_other by exact Hr.
  rewrite dict_get_set, String.eqb_refl. reflexivity.
Qed.

(** The Index is made of the ids and the entries of the results; the
    counts play no part. *)
Lemma index_of_entries (r r' : list outcome) :
  List.map fst r = List.map fst r' → index_of r = index_of r'.
Proof.
  unfold index_of. generalize ([] : jobj). revert r'.
  induction r as [|o r IH]; intros [|o' r'] d E; try discriminate; [reflexivity|].
  cbn [List.map foldl] in *. injection E as E1 E. rewrite E1. apply IH, E.
Qed.

Lemma NoDup_sorted_keys (c : gmap string jobj) : NoDup (sorted_keys c).
Proof.
  unfold sorted_keys. rewrite merge_sort_Permutation. apply NoDup_fst_map_to_list.
Qed.

(** The tasks that return give results for ids of the list, in its
    order. *)
Lemma gather_sublist (handle : string → M (option outcome)) :
  (∀ id w o w', handle id w = (Ok (Some o), w') → o.1.1 = id) →
  ∀ ids w res w',
    gather handle ids w = (Ok res, w') →
    List.map (fun o => o.1.1) res `sublist_of` ids.
Proof.
  intros Hid. induction ids as [|id ids IH]; intros w res w' H.
  { cbn [gather] in H. ok_leaf H. constructor. }
  apply gather_cons in H as (o & w1 & rest & Ho & Hrest & ->).
  apply IH in Hrest. destruct o as [o|].
  - apply Hid in Ho as <-. cbn [List.map]. apply sublist_skip, Hrest.
  - apply sublist_cons, Hrest.
Qed.

(** ** Resolution does not look at the access issues *)

Lemma remember_blocks b k r m :
  remember k r (set_inaccessible_blocks b m)
  = ((remember k r m).1, set_inaccessible_blocks b (remember k r m).2).
Proof. destruct r; reflexivity. Qed.

Lemma resolve_blocks b fuel : ∀ root page_id stack m,
  resolve fuel root page_id stack (set_inaccessible_blocks b m)
  = option_map (fun rm => (rm.1, set_inaccessible_blocks b rm.2))
      (resolve fuel root page_id stack m).
Proof.
  induction fuel as [|fuel IH]; intros root page_id stack m; [reflexivity|].
  cbn [resolve]. destruct (hash_key page_id) as [k|e]; [|reflexivity].
  change (cached (set_inaccessible_blocks b m) root k) with (cached m root k).
  destruct (cached m root k) as [p|]; [reflexivity|].
  destruct (decide (k ∈ stack)).
  { cbn [option_map]. rewrite remember_blocks. reflexivity. }
  change (_ensure_page (set_inaccessible_blocks b m) page_id)
    with (_ensure_page m page_id).
  destruct (_ ← _ensure_page m page_id; _) as [[page par]|e]; [|reflexivity].
  destruct (is_str (dict_get par "type") "workspace").
  { cbn [option_map]. rewrite remember_blocks. reflexivity. }
  destruct (is_str (dict_get par "type") "database_id").
  { cbn [option_map]. rewrite remember_blocks. reflexivity. }
  destruct (is_str (dict_get par "type") "page_id").
  { rewrite IH. destruct (resolve fuel root _ _ m) as [[r m']|]; [|reflexivity].
    cbn [option_map fst snd]. rewrite remember_blocks. reflexivity. }
  cbn [option_map]. rewrite remember_blocks. reflexivity.
Qed.

Lemma page_output_path_blocks b m page_id root :
  _page_output_path (set_inaccessible_blocks b m) page_id root
  = option_map (fun rm => (rm.1, set_inaccessible_blocks b rm.2))
      (_page_output_path m page_id root).
Proof. apply resolve_blocks. Qed.

Lemma same_paths_refl m : same_paths m m.
Proof. destruct m; reflexivity. Qed.

Lemma same_paths_trans m1 m2 m3 :
  same_paths m1 m2 → same_paths m2 m3 → same_paths m1 m3.
Proof. unfold same_paths. intros -> ->. reflexivity. Qed.

Lemma same_paths_blocks b m n : same_paths m n → same_paths (set_inaccessible_blocks b m) n.
Proof. unfold same_paths. intros ->. reflexivity. Qed.

Lemma same_paths_page_cache m n : same_paths m n → _page_cache n = _page_cache m.
Proof. unfold same_paths. intros ->. reflexivity. Qed.

Lemma same_paths_db_cache m n : same_paths m n → _db_cache n = _db_cache m.
Proof. unfold same_paths. intros ->. reflexivity. Qed.

Lemma same_paths_tidy root m n : same_paths m n → tidy root n → tidy root m.
Proof. unfold same_paths, tidy. intros -> H. exact H. Qed.

End recorded_paths.

(** ** Relations that the steps of a run keep *)

Section run_relations.

Import NotionMirror.

Variable client : remote.

Lemma paths_kept_refl w : paths_kept w w.
Proof. apply same_paths_refl. Qed.

Lemma paths_kept_trans w1 w2 w3 : paths_kept w1 w2 → paths_kept w2 w3 → paths_kept w1 w3.
Proof. apply same_paths_trans. Qed.

Lemma keeps_fs_paths call : keeps paths_kept (fs call).
Proof.
  intros w. unfold fs. destruct (call (files w)) as [[f evs]|e]; apply same_paths_refl.
Qed.

Lemma keeps_add_issues_paths entries :
  keeps paths_kept
    (on_self (fun m =>
       (Ok (), set_inaccessible_blocks (_inaccessible_blocks m ++ entries) m))).
Proof. intros w. reflexivity. Qed.

Lemma keeps_cleanup_empty_dirs_paths start_dir root :
  keeps paths_kept (_cleanup_empty_dirs start_dir root).
Proof.
  intros w. destruct (cleanup_empty_dirs_spec start_dir root w) as (ds & f' & _ & ->).
  apply same_paths_refl.
Qed.

Lemma dbs_kept_refl w : dbs_kept w w.
Proof. reflexivity. Qed.

Lemma dbs_kept_trans w1 w2 w3 : dbs_kept w1 w2 → dbs_kept w2 w3 → dbs_kept w1 w3.
Proof. unfold dbs_kept. congruence. Qed.

Lemma keeps_paths_dbs {A} (c : M A) : keeps paths_kept c → keeps dbs_kept c.
Proof. apply keeps_weaken. intros w w'. apply same_paths_db_cache. Qed.

Lemma keeps_objects_dbs {A} (c : M A) : keeps objects_kept c → keeps dbs_kept c.
Proof. apply keeps_weaken. intros w w' (_ & _ & H). exact H. Qed.

Lemma keeps_on_self_dbs {A} (c : t → result A * t) :
  (∀ m, _db_cache (c m).2 = _db_cache m) → keeps dbs_kept (on_self c).
Proof.
  intros Hc w. unfold on_self. specialize (Hc (self w)).
  destruct (c (self w)) as [r m]. exact Hc.
Qed.

Lemma memo_kept_refl w : memo_kept w w.
Proof. split; reflexivity. Qed.

Lemma memo_kept_trans w1 w2 w3 : memo_kept w1 w2 → memo_kept w2 w3 → memo_kept w1 w3.
Proof. unfold memo_kept. intros [-> ->] [-> ->]. split; reflexivity. Qed.

Lemma keeps_on_self_memo {A} (c : t → result A * t) :
  (∀ m, _page_path_cache (c m).2 = _page_path_cache m
        ∧ _inaccessible_blocks (c m).2 = _inaccessible_blocks m) →
  keeps memo_kept (on_self c).
Proof.
  intros Hc w. unfold on_self. specialize (Hc (self w)).
  destruct (c (self w)) as [r m]. exact Hc.
Qed.

End run_relations.

Ltac paths_step :=
  first [ apply keeps_fs_paths
        | apply keeps_add_issues_paths
        | apply keeps_cleanup_empty_dirs_paths
        | keeps_step paths_kept_refl paths_kept_trans ].

Ltac dbs_step :=
  first [ apply keeps_paths_dbs, keeps_fs_paths
        | apply keeps_on_self_dbs; intros ?; reflexivity
        | apply keeps_objects_dbs, keeps_page_output_path
        | keeps_step dbs_kept_refl dbs_kept_trans ].

Ltac memo_step :=
  first [ apply keeps_on_self_memo; intros ?; split; reflexivity
        | keeps_step memo_kept_refl memo_kept_trans ].

Section run_steps.

Import NotionMirror.

Variable client : remote.

Lemma keeps_check_previous_paths root prev_all id last_edited rel_path dest :
  keeps paths_kept (check_previous root prev_all id last_edited rel_path dest).
Proof. unfold check_previous. repeat paths_step. Qed.

Lemma keeps_write_page_markdown_paths dest page :
  keeps paths_kept (_write_page_markdown_async client dest page).
Proof. unfold _write_page_markdown_async. repeat paths_step. Qed.

Lemma keeps_cleanup_removed_paths prev_index new_index :
  keeps paths_kept (_cleanup_removed prev_index new_index).
Proof. unfold _cleanup_removed. repeat paths_step. Qed.

Lemma keeps_entry_lines_dbs dest pages : keeps dbs_kept (entry_lines dest pages).
Proof.
  induction pages as [|p pages IH]; cbn [entry_lines]; [repeat dbs_step|].
  dbs_step; [repeat dbs_step|].
  destruct (negb _); [exact IH|].
  dbs_step.
  { destruct (dict_get a "id"); try solve [repeat dbs_step].
    apply keeps_on_self_dbs. intros m. destruct (_page_cache m !! s); reflexivity. }
  repeat first [ exact IH | dbs_step ].
Qed.

Lemma keeps_handle_database_dbs root incremental prev_dbs did :
  keeps dbs_kept (handle_database client root incremental prev_dbs did).
Proof.
  unfold handle_database, _write_database_index_async.
  repeat first [ apply keeps_paths_dbs, keeps_check_previous_paths
               | apply keeps_entry_lines_dbs
               | dbs_step ].
Qed.

Lemma keeps_discovery_memo pages dbs :
  keeps memo_kept
    (_ ← _populate_caches pages dbs; _ ← _prefetch_databases client;
     _prefetch_pages client).
Proof.
  unfold _populate_caches, _prefetch_databases, _prefetch_pages, fetch_page,
    fetch_database. repeat memo_step.
Qed.

End run_steps.

(** ** Discovery depends on the mirror object alone *)

Section discovery.

Import NotionMirror.

Variable client : remote.

Lemma self_determined_ret {A} (a : A) : self_determined (mret a : M A).
Proof. intros w v E. split; [reflexivity|exact E]. Qed.

Lemma self_determined_lift {A} (r : result A) : self_determined (lift r).
Proof. intros w v E. split; [reflexivity|exact E]. Qed.

Lemma self_determined_on_self {A} (c : t → result A * t) : self_determined (on_self c).
Proof.
  intros w v E. unfold on_self. rewrite E. destruct (c (self v)). split; reflexivity.
Qed.

Lemma self_determined_bind {A B} (c : M A) (k : A → M B) :
  self_determined c → (∀ a, self_determined (k a)) → self_determined (c ≫= k).
Proof.
  intros Hc Hk w v E. rewrite !bind_eq. destruct (Hc w v E) as [E1 E2].
  destruct (c w) as [r w'], (c v) as [r' v']. cbn [fst snd] in *. subst r'.
  destruct r as [a|e]; [apply Hk, E2|split; [reflexivity|exact E2]].
Qed.

Lemma self_determined_get_self : self_determined get_self.
Proof. intros w v E. split; [cbn; rewrite E; reflexivity|exact E]. Qed.

Lemma self_determined_try {A} (c : M A) (h : exn → M A) :
  self_determined c → (∀ e, self_determined (h e)) → self_determined (try_M c h).
Proof.
  intros Hc Hh w v E. unfold try_M. destruct (Hc w v E) as [E1 E2].
  destruct (c w) as [r w'], (c v) as [r' v']. cbn [fst snd] in *. subst r'.
  destruct r as [a|e]; [split; [reflexivity|exact E2]|apply Hh, E2].
Qed.

Lemma self_determined_for_each {A} (l : list A) (body : A → M unit) :
  (∀ x, self_determined (body x)) → self_determined (for_each l body).
Proof.
  intros Hb. induction l as [|x l IH]; [apply self_determined_ret|].
  cbn [for_each]. apply self_determined_bind; [apply Hb|intros _; exact IH].
Qed.

Lemma self_determined_discovery pages dbs :
  self_determined
    (_ ← _populate_caches pages dbs; _ ← _prefetch_databases client;
     _prefetch_pages client).
Proof.
  unfold _populate_caches, _prefetch_databases, _prefetch_pages, fetch_page,
    fetch_database.
  repeat lazymatch goal with
    | |- self_determined (mbind _ _) => apply self_determined_bind; [|intros ?]
    | |- self_determined (mret _) => apply self_determined_ret
    | |- self_determined get_self => apply self_determined_get_self
    | |- self_determined (try_M _ _) => apply self_determined_try; [|intros ?]
    | |- self_determined (lift _) => apply self_determined_lift
    | |- self_determined (on_self _) => apply self_determined_on_self
    | |- self_determined (for_each _ _) => apply self_determined_for_each; intros ?
    | |- self_determined (if ?b then _ else _) => destruct b
    | |- self_determined (match ?x with _ => _ end) => destruct x
    end.
Qed.

End discovery.

(** ** Steps that only make directories *)

Section quiet_steps.

Import NotionMirror.

Lemma quiet_refl w : quiet w w.
Proof.
  split; [exists []; cbn; rewrite app_nil_r; reflexivity|]. split; [auto|reflexivity].
Qed.

Lemma quiet_trans w1 w2 w3 : quiet w1 w2 → quiet w2 w3 → quiet w1 w3.
Proof.
  intros ([qs Ht] & Hf & Hb) ([qs' Ht'] & Hf' & Hb'). split; [|split].
  - exists (qs ++ qs'). rewrite Ht', Ht, map_app, app_assoc. reflexivity.
  - auto.
  - congruence.
Qed.

Lemma fs_exists_mono (f f' : gmap path node) p :
  (∀ q n, f !! q = Some n → f' !! q = Some n) →
  fs_exists f p = true → fs_exists f' p = true.
Proof.
  intros Hff. unfold fs_exists. destruct p as [|s p]; [auto|].
  destruct (f !! (s :: p)) as [n|] eqn:E; [|discriminate].
  rewrite (Hff _ _ E). auto.
Qed.

Lemma entry_in_place_mono (f f' : gmap path node) root entry :
  (∀ q n, f !! q = Some n → f' !! q = Some n) →
  entry_in_place f root entry = true → entry_in_place f' root entry = true.
Proof.
  intros Hff. unfold entry_in_place. destruct entry as [| | | | |e]; auto.
  destruct (dict_get e "last_edited_time"); auto.
  destruct (dict_get e "path"); auto. apply fs_exists_mono, Hff.
Qed.

Lemma written_paths_app evs evs' :
  written_paths (evs ++ evs') = written_paths evs ++ written_paths evs'.
Proof. apply omap_app. Qed.

Lemma deleted_paths_app evs evs' :
  deleted_paths (evs ++ evs') = deleted_paths evs ++ deleted_paths evs'.
Proof. apply omap_app. Qed.

Lemma written_paths_mkdir qs : written_paths (List.map Mkdir qs) = [].
Proof. induction qs; [reflexivity|exact IHqs]. Qed.

Lemma deleted_paths_mkdir qs : deleted_paths (List.map Mkdir qs) = [].
Proof. induction qs; [reflexivity|exact IHqs]. Qed.

End quiet_steps.

(** ** The tasks of a second run *)

Section second_run.

Import NotionMirror.

Variable client : remote.

Lemma same_paths_sym m n : same_paths m n → same_paths n m.
Proof. unfold same_paths. intros ->. destruct m; reflexivity. Qed.

(** An object whose entry in the previous Index is the one that this
    run computes, with its file on the disk, is up to date. *)
Lemma up_to_date_again pidx id fingerprint rel_path f root dest :
  dict_mem pidx id = true →
  dict_get pidx id = JObj (index_entry fingerprint rel_path) →
  entry_in_place f root (JObj (index_entry fingerprint rel_path)) = true →
  root ++ split_on "/" [] (chars rel_path) = dest →
  up_to_date pidx id fingerprint rel_path f dest = true.
Proof.
  intros Hmem Hget Hplace <-. unfold up_to_date, dict_get_default.
  rewrite Hmem, Hget. unfold entry_in_place, index_entry in *.
  change (dict_get [("last_edited_time", fingerprint); ("path", JStr rel_path)]
            "last_edited_time") with fingerprint in *.
  change (dict_get [("last_edited_time", fingerprint); ("path", JStr rel_path)] "path")
    with (JStr rel_path) in *.
  destruct fingerprint; try discriminate.
  cbn [py_eq]. rewrite !String.eqb_refl, Hplace. reflexivity.
Qed.

(** The task of a page that the run before handled, when the Index of
    that run is the previous Index and the recorded file is in place:
    the page is up to date, and the task only makes directories. *)
Lemma page_task_again root prev1 pidx pid wa o1 wa' wb o2 wb' :
  handle_page client root true prev1 pid wa = (Ok o1, wa') →
  handle_page client root true (JObj pidx) pid wb = (Ok o2, wb') →
  same_paths (self wa) (self wb) →
  tidy root (self wb) →
  (∀ o, o1 = Some o →
     dict_mem pidx o.1.1 = true ∧ dict_get pidx o.1.1 = JObj o.1.2
     ∧ entry_in_place (files wb) root (JObj o.1.2) = true) →
  quiet wb wb' ∧ same_paths (self wa') (self wb') ∧ tidy root (self wb')
  ∧ option_map fst o2 = option_map fst o1
  ∧ (∀ o, o2 = Some o → o.2 = 0%nat).
Proof.
  intros H1 H2 Hsame Htidy Hidx.
  apply handle_page_ok in H1 as (page & Hpage & H1).
  apply handle_page_ok in H2 as (page2 & Hpage2 & H2).
  assert (page2 = page) as ->.
  { unfold _ensure_page in *. rewrite (same_paths_page_cache _ _ Hsame) in Hpage2.
    congruence. }
  destruct (truthy (dict_get page "archived")).
  { destruct H1 as [-> ->], H2 as [-> ->].
    split; [apply quiet_refl|]. repeat split; [assumption..|discriminate]. }
  destruct H1 as (dest & m1 & qs1 & rel & up1 & w1 & Hres1 & _ & _ & Hrel & Hcheck1
                  & -> & Hwrite1).
  destruct H2 as (dest2 & m2 & qs & rel2 & up & w2 & Hres2 & _ & Hqs & Hrel2 & Hcheck
                  & -> & Hwrite).
  destruct (page_output_path_tidy root _ _ _ _ _ (at_or_below_refl root) Htidy Hres2)
    as [Htidy2 Hbelow].
  specialize (Hbelow _ eq_refl).
  unfold same_paths in Hsame. rewrite Hsame, page_output_path_blocks, Hres1 in Hres2.
  cbn [option_map fst snd] in Hres2. injection Hres2 as <- <-.
  assert (rel2 = rel) as -> by congruence.
  destruct (Hidx _ eq_refl) as (Hmem & Hget & Hplace). cbn [fst snd] in Hmem, Hget, Hplace.
  cbn [andb is_none negb] in Hcheck.
  apply check_previous_ok in Hcheck as [Hup Hcase]. cbn [files] in Hup.
  rewrite (up_to_date_again _ _ _ _ _ root) in Hup;
    [|exact Hmem|exact Hget| |apply (recorded_file_below _ _ _ Hbelow Hrel)].
  2: { eapply entry_in_place_mono; [|exact Hplace].
       intros q n. apply (mkdir_walk_extends _ _ _ _ _ _ Hqs). }
  subst up. subst w2. subst wb'. cbn [self files trace].
  assert (same_paths m1 (self wa')) as Hkept.
  { assert (same_paths m1 (self w1)) as Hw1.
    { match type of Hcheck1 with
      | ?c ?w = _ => assert (keeps paths_kept c) as Hc
      end.
      { destruct (true && negb (is_none prev1));
          [apply keeps_check_previous_paths|apply keeps_ret, paths_kept_refl]. }
      apply (keeps_result _ _ _ _ _ Hc Hcheck1). }
    destruct up1; [subst wa'; exact Hw1|].
    eapply same_paths_trans; [exact Hw1|].
    apply (keeps_result _ _ _ _ _ (keeps_write_page_markdown_paths client _ _) Hwrite1). }
  split; [|split; [|split; [|split]]].
  - split; [exists qs; reflexivity|]. split; [|reflexivity].
    intros q n. apply (mkdir_walk_extends _ _ _ _ _ _ Hqs).
  - eapply same_paths_trans; [apply same_paths_sym, Hkept|]. reflexivity.
  - exact Htidy2.
  - reflexivity.
  - intros o [= <-]. reflexivity.
Qed.

(** The page phase of a second run. *)
Lemma gather_pages_again root prev1 pidx : ∀ ids wa res1 wa' wb res2 wb',
  gather (handle_page client root true prev1) ids wa = (Ok res1, wa') →
  gather (handle_page client root true (JObj pidx)) ids wb = (Ok res2, wb') →
  same_paths (self wa) (self wb) →
  tidy root (self wb) →
  (∀ o, o ∈ res1 →
     dict_mem pidx o.1.1 = true ∧ dict_get pidx o.1.1 = JObj o.1.2
     ∧ entry_in_place (files wb) root (JObj o.1.2) = true) →
  quiet wb wb' ∧ same_paths (self wa') (self wb')
  ∧ List.map fst res2 = List.map fst res1 ∧ written_of res2 = 0%nat.
Proof.
  induction ids as [|id ids IH]; intros wa res1 wa' wb res2 wb' H1 H2 Hsame Htidy Hidx.
  { cbn [gather] in H1, H2. ok_leaf H1. ok_leaf H2.
    split; [apply quiet_refl|]. auto. }
  apply gather_cons in H1 as (o1 & wa1 & rest1 & Ho1 & Hrest1 & ->).
  apply gather_cons in H2 as (o2 & wb1 & rest2 & Ho2 & Hrest2 & ->).
  destruct (page_task_again _ _ _ _ _ _ _ _ _ _ Ho1 Ho2 Hsame Htidy)
    as (Hq & Hsame1 & Htidy1 & Hfst & Hzero).
  { intros o ->. apply Hidx, elem_of_cons. auto. }
  destruct (IH _ _ _ _ _ _ Hrest1 Hrest2 Hsame1 Htidy1) as (Hq' & Hsame' & Hmap & Hw).
  { intros o Hin.
    destruct (Hidx o) as (Hmem & Hget & Hplace).
    { destruct o1; [apply elem_of_cons; auto|exact Hin]. }
    repeat split; [assumption..|].
    eapply entry_in_place_mono; [|exact Hplace]. apply Hq. }
  split; [eapply quiet_trans; eassumption|]. split; [exact Hsame'|].
  destruct o1 as [o1|], o2 as [o2|]; try discriminate; cbn [option_map] in Hfst.
  - injection Hfst as Hfst. cbn [List.map written_of foldr].
    rewrite Hfst, Hmap, (Hzero _ eq_refl). split; [reflexivity|exact Hw].
  - auto.
Qed.

Lemma plain_database_file : Forall plain ["__database.md"].
Proof.
  apply Forall_singleton. unfold plain.
  cbn. repeat (constructor; [discriminate|]). constructor.
Qed.

(** The task of a database that the run before handled. *)
Lemma database_task_again root prev1 didx did wa o1 wa' wb o2 wb' :
  handle_database client root true prev1 did wa = (Ok o1, wa') →
  handle_database client root true (JObj didx) did wb = (Ok o2, wb') →
  _db_cache (self wb) = _db_cache (self wa) →
  (∀ o, o1 = Some o →
     dict_mem didx o.1.1 = true ∧ dict_get didx o.1.1 = JObj o.1.2
     ∧ entry_in_place (files wb) root (JObj o.1.2) = true) →
  quiet wb wb' ∧ _db_cache (self wb') = _db_cache (self wa')
  ∧ option_map fst o2 = option_map fst o1
  ∧ (∀ o, o2 = Some o → o.2 = 0%nat).
Proof.
  intros H1 H2 Hsame Hidx.
  pose proof (keeps_result _ _ _ _ _ (keeps_handle_database_dbs client _ _ _ _) H1)
    as Hkept.
  unfold dbs_kept in Hkept.
  apply handle_database_ok in H1 as (db & Hdb & H1).
  apply handle_database_ok in H2 as (db2 & Hdb2 & H2).
  assert (db2 = db) as ->.
  { unfold _ensure_database in *. rewrite Hsame in Hdb2. congruence. }
  destruct (truthy (dict_get db "archived")).
  { destruct H1 as [-> ->], H2 as [-> ->].
    split; [apply quiet_refl|]. repeat split; [assumption..|discriminate]. }
  destruct H1 as (folder & qs1 & rel & up1 & w1 & Hres1 & _ & Hrel & _ & -> & _).
  destruct H2 as (folder2 & qs & rel2 & up & w2 & Hres2 & Hqs & Hrel2 & Hcheck
                  & -> & Hwrite).
  assert (folder2 = folder) as ->.
  { unfold _database_folder_path, _ensure_database in *. rewrite Hsame in Hres2.
    congruence. }
  assert (rel2 = rel) as -> by congruence.
  assert (below root (folder ++ ["__database.md"])) as Hbelow.
  { apply below_extend; [|apply plain_database_file].
    eapply database_folder_below; [apply at_or_below_refl|exact Hres1]. }
  destruct (Hidx _ eq_refl) as (Hmem & Hget & Hplace). cbn [fst snd] in Hmem, Hget, Hplace.
  cbn [andb is_none negb] in Hcheck.
  apply check_previous_ok in Hcheck as [Hup Hcase]. cbn [files] in Hup.
  rewrite (up_to_date_again _ _ _ _ _ root) in Hup;
    [|exact Hmem|exact Hget| |apply (recorded_file_below _ _ _ Hbelow Hrel)].
  2: { eapply entry_in_place_mono; [|exact Hplace].
       intros q n. apply (mkdir_walk_extends _ _ _ _ _ _ Hqs). }
  subst up. subst w2. subst wb'. cbn [self files trace].
  split; [|split; [|split]].
  - split; [exists qs; reflexivity|]. split; [|reflexivity].
    intros q n. apply (mkdir_walk_extends _ _ _ _ _ _ Hqs).
  - congruence.
  - reflexivity.
  - intros o [= <-]. reflexivity.
Qed.

(** The database phase of a second run. *)
Lemma gather_databases_again root prev1 didx : ∀ ids wa res1 wa' wb res2 wb',
  gather (handle_database client root true prev1) ids wa = (Ok res1, wa') →
  gather (handle_database client root true (JObj didx)) ids wb = (Ok res2, wb') →
  _db_cache (self wb) = _db_cache (self wa) →
  (∀ o, o ∈ res1 →
     dict_mem didx o.1.1 = true ∧ dict_get didx o.1.1 = JObj o.1.2
     ∧ entry_in_place (files wb) root (JObj o.1.2) = true) →
  quiet wb wb'
  ∧ List.map fst res2 = List.map fst res1 ∧ written_of res2 = 0%nat.
Proof.
  induction ids as [|id ids IH]; intros wa res1 wa' wb res2 wb' H1 H2 Hsame Hidx.
  { cbn [gather] in H1, H2. ok_leaf H1. ok_leaf H2.
    split; [apply quiet_refl|]. auto. }
  apply gather_cons in H1 as (o1 & wa1 & rest1 & Ho1 & Hrest1 & ->).
  apply gather_cons in H2 as (o2 & wb1 & rest2 & Ho2 & Hrest2 & ->).
  destruct (database_task_again _ _ _ _ _ _ _ _ _ _ Ho1 Ho2 Hsame)
    as (Hq & Hsame1 & Hfst & Hzero).
  { intros o ->. apply Hidx, elem_of_cons. auto. }
  destruct (IH _ _ _ _ _ _ Hrest1 Hrest2 Hsame1) as (Hq' & Hmap & Hw).
  { intros o Hin.
    destruct (Hidx o) as (Hmem & Hget & Hplace).
    { destruct o1; [apply elem_of_cons; auto|exact Hin]. }
    repeat split; [assumption..|].
    eapply entry_in_place_mono; [|exact Hplace]. apply Hq. }
  split; [eapply quiet_trans; eassumption|].
  destruct o1 as [o1|], o2 as [o2|]; try discriminate; cbn [option_map] in Hfst.
  - injection Hfst as Hfst. cbn [List.map written_of foldr].
    rewrite Hfst, Hmap, (Hzero _ eq_refl). split; [reflexivity|exact Hw].
  - auto.
Qed.

End second_run.

(** ** The phases of a second run *)

Section second_run_phases.

Import NotionMirror.

Variable client : remote.

Lemma handle_page_id root incremental prev_pages id w o w' :
  handle_page client root incremental prev_pages id w = (Ok (Some o), w') → o.1.1 = id.
Proof.
  intros H. apply handle_page_ok in H as (page & _ & H).
  destruct (truthy (dict_get page "archived")); [destruct H; discriminate|].
  destruct H as (? & ? & ? & ? & ? & ? & _ & _ & _ & _ & _ & [= ->] & _). reflexivity.
Qed.

Lemma handle_database_id root incremental prev_dbs id w o w' :
  handle_database client root incremental prev_dbs id w = (Ok (Some o), w') →
  o.1.1 = id.
Proof.
  intros H. apply handle_database_ok in H as (db & _ & H).
  destruct (truthy (dict_get db "archived")); [destruct H; discriminate|].
  destruct H as (? & ? & ? & ? & ? & _ & _ & _ & _ & [= ->] & _). reflexivity.
Qed.

(** Each result of a phase has its entry in the new Index, when the
    ids of the phase are distinct. *)
Lemma results_indexed f root ids (results : list outcome) :
  NoDup ids → List.map (fun o => o.1.1) results `sublist_of` ids →
  entries_in_place f root (JObj (index_of results)) = true →
  ∀ o, o ∈ results →
    dict_mem (index_of results) o.1.1 = true
    ∧ dict_get (index_of results) o.1.1 = JObj o.1.2
    ∧ entry_in_place f root (JObj o.1.2) = true.
Proof.
  intros Hnd Hsub Hplace o Hin.
  assert (dict_mem (index_of results) o.1.1 = true) as Hmem.
  { apply dict_mem_index_of, list_elem_of_fmap. eauto. }
  assert (dict_get (index_of results) o.1.1 = JObj o.1.2) as Hget.
  { apply dict_get_index_of; [|exact Hin]. eapply sublist_NoDup; eassumption. }
  repeat split; [assumption..|].
  apply dict_mem_In in Hmem. rewrite Hget in Hmem.
  cbn [entries_in_place] in Hplace. rewrite forallb_forall in Hplace.
  apply (Hplace (o.1.1, JObj o.1.2)), list_elem_of_In, Hmem.
Qed.

(** The page phase of a run after a run that left the Index [pidx]. *)
Lemma write_pages_again root prev1 wa n1 pidx wa' wb n2 pidx2 wb' :
  _write_pages_async client root true prev1 wa = (Ok (n1, pidx), wa') →
  _write_pages_async client root true (JObj pidx) wb = (Ok (n2, pidx2), wb') →
  same_paths (self wa) (self wb) →
  tidy root (self wb) →
  entries_in_place (files wb) root (JObj pidx) = true →
  quiet wb wb' ∧ same_paths (self wa') (self wb') ∧ pidx2 = pidx ∧ n2 = 0%nat.
Proof.
  unfold _write_pages_async. intros H1 H2 Hsame Htidy Hplace.
  ok_bind H1 as m1 wa0 Hm1. ok_bind H1 as res1 wa1 Hres1. ok_leaf H1.
  ok_bind H2 as m2 wb0 Hm2. ok_bind H2 as res2 wb1 Hres2. ok_leaf H2.
  injection H1 as -> ->. injection H2 as -> ->.
  rewrite (same_paths_page_cache _ _ Hsame) in Hres2.
  pose proof (gather_sublist _ (handle_page_id root true prev1) _ _ _ _ Hres1) as Hsub.
  destruct (gather_pages_again client _ _ _ _ _ _ _ _ _ _ Hres1 Hres2 Hsame Htidy)
    as (Hq & Hsame' & Hmap & Hw).
  { eapply results_indexed; [apply NoDup_sorted_keys|exact Hsub|exact Hplace]. }
  repeat split; [apply Hq..|exact Hsame'|apply index_of_entries, Hmap|exact Hw].
Qed.

(** The database phase of a run after a run that left the Index
    [didx]. *)
Lemma write_databases_again root prev1 wa n1 didx wa' wb n2 didx2 wb' :
  _write_databases_async client root true prev1 wa = (Ok (n1, didx), wa') →
  _write_databases_async client root true (JObj didx) wb = (Ok (n2, didx2), wb') →
  _db_cache (self wb) = _db_cache (self wa) →
  entries_in_place (files wb) root (JObj didx) = true →
  quiet wb wb' ∧ didx2 = didx ∧ n2 = 0%nat.
Proof.
  unfold _write_databases_async. intros H1 H2 Hsame Hplace.
  ok_bind H1 as m1 wa0 Hm1. ok_bind H1 as res1 wa1 Hres1. ok_leaf H1.
  ok_bind H2 as m2 wb0 Hm2. ok_bind H2 as res2 wb1 Hres2. ok_leaf H2.
  injection H1 as -> ->. injection H2 as -> ->.
  rewrite Hsame in Hres2.
  pose proof (gather_sublist _ (handle_database_id root true prev1) _ _ _ _ Hres1)
    as Hsub.
  destruct (gather_databases_again client _ _ _ _ _ _ _ _ _ _ Hres1 Hres2 Hsame)
    as (Hq & Hmap & Hw).
  { eapply results_indexed; [apply NoDup_sorted_keys|exact Hsub|exact Hplace]. }
  repeat split; [apply Hq..|apply index_of_entries, Hmap|exact Hw].
Qed.

(** Reconciliation has nothing to do when every previous id is in the
    new Index. *)
Lemma cleanup_removed_same idx new w :
  (∀ k v, (k, v) ∈ idx → dict_mem new k = true) →
  _cleanup_removed (JObj idx) new w = (Ok (), w).
Proof.
  intros Hall. unfold _cleanup_removed.
  rewrite bind_eq. unfold get_self at 1. cbn beta iota.
  rewrite bind_eq. unfold lift at 1. cbn [as_dict]. cbn beta iota.
  induction idx as [|[k v] idx IH]; [reflexivity|].
  cbn [for_each]. rewrite bind_eq.
  rewrite (Hall k v) by (apply elem_of_cons; auto). cbn [negb].
  change ((mret () : M unit) w) with (Ok (), w). cbn beta iota.
  apply IH. intros k' v' Hin. apply (Hall k' v'), elem_of_cons. auto.
Qed.

Lemma cleanup_removed_again idx w w' :
  _cleanup_removed (JObj idx) idx w = (Ok (), w') → w' = w.
Proof.
  rewrite cleanup_removed_same; [congruence|].
  intros k v Hin. eapply In_dict_mem, Hin.
Qed.

Lemma write_root_index_ok root pages dbs w w' :
  _write_root_index_async client root pages dbs w = (Ok (), w') →
  self w' = self w
  ∧ ∃ c, files w' = <[joinpath root "index.md" := File c]> (files w)
         ∧ trace w' = trace w ++ [Write (joinpath root "index.md") c].
Proof.
  unfold _write_root_index_async. intros H. ok_leaf H.
  apply write_text_ok in H as (-> & -> & _).
  cbn [self files trace]. eauto.
Qed.

(** Without access issues no report is written. *)
Lemma write_access_report_none root w :
  _inaccessible_blocks (self w) = [] →
  _write_access_report_async client root w = (Ok (), w).
Proof.
  intros Hnone. unfold _write_access_report_async.
  rewrite bind_eq. unfold get_self at 1. cbn beta iota. rewrite Hnone. reflexivity.
Qed.

End second_run_phases.

(** ** Two incremental runs in a row *)

Section idempotence.

Import NotionMirror.

Lemma entries_in_place_mono (f f' : gmap path node) root entries :
  (∀ q n, f !! q = Some n → f' !! q = Some n) →
  entries_in_place f root entries = true → entries_in_place f' root entries = true.
Proof.
  intros Hff. unfold entries_in_place. destruct entries as [| | | | |items]; auto.
  rewrite !forallb_forall. intros Hall kv Hin.
  eapply entry_in_place_mono; [exact Hff|apply Hall, Hin].
Qed.

(** A stale entry of the Index at the path of a live page: the first
    run writes the page and then removes the file of the stale entry,
    which is the file it wrote; the second run writes the page again. *)
Lemma second_run_writes_again :
  is_ok stale_run1.1 = true
  ∧ stale_run2.1 = Ok {| local_dir := mirror_dir;
                         pages_written := 1;
                         databases_written := 0 |}
  ∧ written_paths (trace stale_run2.2)
    = [mirror_dir ++ ["DB_Tasks_d1"; "Buy milk_p1.md"];
       mirror_dir ++ ["index.md"];
       mirror_dir ++ [".mirror_index.json"]].
Proof. repeat split; vm_compute; reflexivity. Qed.

(** C3 (amended).  Two incremental runs in a row against the same
    workspace, the second on the disk that the first left.  When every
    entry of the Index that the first run saved has a text as
    fingerprint and its file on that disk, the second run writes no
    page and no database file and deletes nothing: its only writes are
    the root [index.md] and the Index file, every other file and
    directory stays as it was, and the entries of the Index it saves
    are those of the first run. *)
Theorem second_run_only_refreshes_indexes client out f0 res1 w1 res2 w2 :
  build client out true f0 = (Ok res1, w1) →
  build client out true (files w1) = (Ok res2, w2) →
  index_in_place (files w1) out = true →
  pages_written res2 = 0%nat
  ∧ databases_written res2 = 0%nat
  ∧ deleted_paths (trace w2) = []
  ∧ written_paths (trace w2)
    = [joinpath out "index.md"; joinpath out ".mirror_index.json"]
  ∧ (∀ p n, files w1 !! p = Some n →
            p ≠ joinpath out "index.md" → p ≠ joinpath out ".mirror_index.json" →
            files w2 !! p = Some n)
  ∧ index_entries (stored_index (files w2) out) "pages"
    = index_entries (stored_index (files w1) out) "pages"
  ∧ index_entries (stored_index (files w2) out) "databases"
    = index_entries (stored_index (files w1) out) "databases".
Proof.
  unfold build, build_async. intros H1 H2 Hplace.
  apply build_incremental_ok in H1. apply build_incremental_ok in H2.
  cbn [start self files trace output_dir __init__] in H1, H2. cbn zeta in H1, H2.
  destruct H1 as (qs1 & pages & dbs & wd1 & pp1 & pd1 & n1 & pidx & wp1 & wc1
                  & m1 & didx & wdb1 & wcd1 & wr1 & wa1
                  & _ & Hpages & Hdbs & Hdisc1 & _ & _ & _ & _ & _
                  & Hwp1 & Hcp1 & Hwd1 & _ & _ & _ & Hsave1 & _).
  destruct H2 as (qs2 & pages2 & dbs2 & wd2 & pp2 & pd2 & n2 & pidx2 & wp2 & wc2
                  & m2 & didx2 & wdb2 & wcd2 & wr2 & wa2
                  & Hqs2 & Hpages2 & Hdbs2 & Hdisc2 & Hf2 & Ht2 & _ & Hpp2 & Hpd2
                  & Hwp2 & Hcp2 & Hwd2 & Hcd2 & Hri2 & Har2 & Hsave2 & ->).
  rewrite Hpages in Hpages2. injection Hpages2 as <-.
  rewrite Hdbs in Hdbs2. injection Hdbs2 as <-.
  (* the Index that the first run left *)
  apply save_index_to_ok in Hsave1 as (_ & Hstored1 & _).
  unfold index_in_place in Hplace. rewrite Hstored1 in Hplace, Hpp2, Hpd2 |- *.
  change (index_entries (JObj [("generated_at", JStr (_now_utc_iso client));
                               ("pages", JObj pidx); ("databases", JObj didx)]) "pages")
    with (JObj pidx) in *.
  change (index_entries (JObj [("generated_at", JStr (_now_utc_iso client));
                               ("pages", JObj pidx); ("databases", JObj didx)])
            "databases")
    with (JObj didx) in *.
  apply andb_true_iff in Hplace as [Hplace_p Hplace_d]. subst pp2 pd2.
  (* discovery *)
  match type of Hdisc1 with
  | _ ?wA = _ =>
      match type of Hdisc2 with
      | _ ?wB = _ =>
          destruct (self_determined_discovery client pages dbs wA wB eq_refl)
            as [_ Hself]
      end
  end.
  rewrite Hdisc1, Hdisc2 in Hself. cbn [snd] in Hself.
  destruct (keeps_result _ _ _ _ _ (keeps_discovery_memo client pages dbs) Hdisc2)
    as [Hmemo Hnone].
  cbn [self _page_path_cache _inaccessible_blocks __init__] in Hmemo, Hnone.
  assert (∀ q n, files w1 !! q = Some n → files wd2 !! q = Some n) as Hgrow_d.
  { intros q n. rewrite Hf2. apply (mkdir_walk_extends _ _ _ _ _ _ Hqs2). }
  (* the page phase *)
  destruct (write_pages_again client out _ _ _ _ _ _ _ _ _ Hwp1 Hwp2)
    as (Hquiet_p & Hsame_p & -> & Hn2).
  { rewrite Hself. apply same_paths_refl. }
  { intros k p. rewrite Hmemo, lookup_empty. discriminate. }
  { eapply entries_in_place_mono; [exact Hgrow_d|exact Hplace_p]. }
  apply cleanup_removed_again in Hcp2 as ->.
  (* the database phase *)
  pose proof (keeps_result _ _ _ _ _ (keeps_cleanup_removed_paths _ _) Hcp1) as Hc1.
  destruct Hquiet_p as ([qsp Htp] & Hgrow_p & Hnone_p).
  destruct (write_databases_again client out _ _ _ _ _ _ _ _ _ Hwd1 Hwd2)
    as (Hquiet_d & -> & Hm2).
  { apply same_paths_db_cache.
    eapply same_paths_trans; [apply same_paths_sym, Hc1|exact Hsame_p]. }
  { eapply entries_in_place_mono; [|exact Hplace_d]. auto. }
  apply cleanup_removed_again in Hcd2 as ->.
  destruct Hquiet_d as ([qsd Htd] & Hgrow_db & Hnone_d).
  (* the root index, the access report and the Index *)
  apply write_root_index_ok in Hri2 as (Hself_r & c_r & Hf_r & Ht_r).
  rewrite write_access_report_none in Har2 by congruence.
  injection Har2 as <-.
  apply save_index_to_ok in Hsave2 as (_ & Hstored2 & c_i & Hf_i & Ht_i).
  rewrite Hstored2.
  cbn [pages_written databases_written].
  split; [exact Hn2|]. split; [exact Hm2|].
  rewrite Ht_i, Ht_r, Htd, Htp, Ht2.
  split; [|split; [|split; [|split; reflexivity]]].
  - rewrite !deleted_paths_app, !deleted_paths_mkdir. reflexivity.
  - rewrite !written_paths_app, !written_paths_mkdir. reflexivity.
  - intros p n Hp Hne_r Hne_i. rewrite Hf_i, lookup_insert_ne by congruence.
    rewrite Hf_r, lookup_insert_ne by congruence. auto.
Qed.

Lemma second_run_only_refreshes_indexes_witness :
  scenario_run2_again.1
  = Ok {| local_dir := mirror_dir; pages_written := 0; databases_written := 0 |}
  ∧ index_in_place (files scenario_run2.2) mirror_dir = true
  ∧ deleted_paths (trace scenario_run2_again.2) = []
  ∧ written_paths (trace scenario_run2_again.2)
    = [mirror_dir ++ ["index.md"]; mirror_dir ++ [".mirror_index.json"]].
Proof.
  assert (build (scenario "t1") mirror_dir true (files scenario_run1.2)
          = (Ok {| local_dir := mirror_dir; pages_written := 0;
                   databases_written := 0 |}, scenario_run2.2)) as H1
    by (vm_compute; reflexivity).
  assert (build (scenario "t1") mirror_dir true (files scenario_run2.2)
          = (Ok {| local_dir := mirror_dir; pages_written := 0;
                   databases_written := 0 |}, scenario_run2_again.2)) as H2
    by (vm_compute; reflexivity).
  assert (index_in_place (files scenario_run2.2) mirror_dir = true) as H3
    by (vm_compute; reflexivity).
  destruct (second_run_only_refreshes_indexes _ _ _ _ _ _ _ H1 H2 H3)
    as (_ & _ & Hd & Hw & _).
  split; [vm_compute; reflexivity|]. split; [exact H3|]. split; [exact Hd|exact Hw].
Defined.

End idempotence.

(** * Further properties of the programs *)

(** ** Names *)

Section names.

Lemma length_str_of l : String.length (str_of l) = length l.
Proof. induction l as [|c l IH]; [reflexivity|]. cbn. f_equal. exact IH. Qed.

Lemma valid_underscore : ascii_in "_" _INVALID_WIN_CHARS = false.
Proof. reflexivity. Qed.

(** X1.  A sanitised name is the fallback, or it is not empty, has at
    most 160 characters, and has none of the characters that Windows
    forbids in a file name. *)
Theorem safe_name_is_clean (name fallback : string) :
  safe_name name fallback = fallback
  ∨ (safe_name name fallback ≠ ""
     ∧ (String.length (safe_name name fallback) <= 160)%nat
     ∧ Forall (fun c => ascii_in c _INVALID_WIN_CHARS = false)
         (chars (safe_name name fallback))).
Proof.
  unfold safe_name.
  set (mapped := List.map _ (strip (chars name))).
  assert (Forall (fun c => ascii_in c _INVALID_WIN_CHARS = false) mapped) as Hmapped.
  { subst mapped. apply List.Forall_forall. intros c Hc.
    apply in_map_iff in Hc as (c0 & <- & _).
    destruct (ascii_in c0 _INVALID_WIN_CHARS) eqn:E; [reflexivity|exact E]. }
  set (cleaned := rstrip_by _ (strip (collapse_ws false mapped))).
  assert (Forall (fun c => ascii_in c _INVALID_WIN_CHARS = false) cleaned) as Hcleaned.
  { subst cleaned. apply rstrip_by_Forall, strip_Forall, collapse_ws_Forall;
      [reflexivity|exact Hmapped]. }
  destruct cleaned as [|c cleaned]; [left; reflexivity|right].
  split; [discriminate|]. split.
  - rewrite length_str_of, length_take. lia.
  - rewrite chars_str_of. apply Forall_take, Hcleaned.
Qed.

(** X2.  The id suffix of a name is never empty, has at most eight
    characters and has no dash; an id that is not a string (and not
    falsy) is an error, as the method call on it is in Python. *)
Theorem id8_shape (notion_id : json) (r : string) :
  _id8 notion_id = Ok r →
  r ≠ "" ∧ (String.length r <= 8)%nat ∧ Forall (fun c => c ≠ "-"%char) (chars r).
Proof.
  unfold _id8. destruct (py_or notion_id (JStr "")) as [| | |s| |]; try discriminate.
  intros [= <-]. unfold str_or.
  destruct (String.eqb (str_of (take 8 (remove_dashes (chars s)))) "") eqn:E.
  { split; [discriminate|]. split; [cbn; lia|].
    cbn. repeat (constructor; [discriminate|]). constructor. }
  apply String.eqb_neq in E. split; [exact E|]. split.
  - rewrite length_str_of, length_take. lia.
  - rewrite chars_str_of. apply Forall_take. unfold remove_dashes.
    apply List.Forall_forall. intros c Hc. apply filter_In in Hc as [_ Hc].
    apply negb_true_iff, Ascii.eqb_neq in Hc. exact Hc.
Qed.

Lemma id8_shape_witness :
  _id8 (JStr "0a1b-2c3d-4e5f") = Ok "0a1b2c3d"
  ∧ Forall (fun c => c ≠ "-"%char) (chars "0a1b2c3d").
Proof.
  assert (_id8 (JStr "0a1b-2c3d-4e5f") = Ok "0a1b2c3d") as H by reflexivity.
  split; [exact H|]. apply (id8_shape _ _ H).
Defined.

Lemma str_or_nonempty s default : default ≠ "" → str_or s default ≠ "".
Proof.
  intros Hd. unfold str_or. destruct (String.eqb s "") eqn:E; [exact Hd|].
  apply String.eqb_neq, E.
Qed.

(** X3.  The title of a page and the title of a database are never the
    empty text: an object of another kind, a page without a title
    property and an empty title all give the placeholder title. *)
Theorem titles_are_never_empty (object : jobj) (t : string) :
  page_title object = Ok t ∨ database_title object = Ok t → t ≠ "".
Proof.
  intros [H|H].
  - unfold page_title in H.
    destruct (negb (is_str (dict_get object "object") "page")); [injection H as <-; discriminate|].
    destruct (or_empty_dict (dict_get object "properties")) as [props|e]; [|discriminate].
    induction props as [|[k v] props IH]; cbn [page_title_loop] in H.
    { injection H as <-. discriminate. }
    destruct (or_empty_dict v) as [v'|e]; [|discriminate].
    destruct (is_str (dict_get v' "type") "title"); [|exact (IH H)].
    destruct (rich_text_to_md (dict_get v' "title")) as [t'|e]; [|discriminate].
    injection H as <-. apply str_or_nonempty. discriminate.
  - unfold database_title in H.
    destruct (negb (is_str (dict_get object "object") "database"));
      [injection H as <-; discriminate|].
    destruct (rich_text_to_md (dict_get object "title")) as [t'|e]; [|discriminate].
    injection H as <-. apply str_or_nonempty. discriminate.
Qed.

Lemma titles_are_never_empty_witness :
  page_title [("object", JStr "page");
              ("properties", JObj [("Name", JObj [("type", JStr "title");
                                                  ("title", JArr [])])])]
  = Ok "untitled_page"
  ∧ "untitled_page" ≠ "".
Proof.
  assert (page_title [("object", JStr "page");
                      ("properties", JObj [("Name", JObj [("type", JStr "title");
                                                          ("title", JArr [])])])]
          = Ok "untitled_page") as H by reflexivity.
  split; [exact H|]. apply (titles_are_never_empty _ _ (or_introl H)).
Defined.

Lemma string_app_empty_r (x : string) : x +:+ "" = x.
Proof.
  induction x as [|c x IH]; [reflexivity|].
  change (String c x +:+ "") with (String c (x +:+ "")). rewrite IH. reflexivity.
Qed.

Lemma concat_empty_app (a b : list string) :
  String.concat "" (a ++ b) = String.concat "" a +:+ String.concat "" b.
Proof.
  induction a as [|x a IH]; [reflexivity|].
  destruct a as [|y a].
  { cbn [app]. destruct b as [|z b]; cbn [String.concat].
    - rewrite string_app_empty_r. reflexivity.
    - reflexivity. }
  change (String.concat "" ((x :: y :: a) ++ b))
    with (x +:+ "" +:+ String.concat "" ((y :: a) ++ b)).
  rewrite IH.
  change (String.concat "" (x :: y :: a)) with (x +:+ "" +:+ String.concat "" (y :: a)).
  cbn [String.append]. rewrite string_app_assoc. reflexivity.
Qed.

Lemma rich_text_parts_app (a b : list json) pa pb :
  rich_text_parts a = Ok pa → rich_text_parts b = Ok pb →
  rich_text_parts (a ++ b) = Ok (pa ++ pb).
Proof.
  revert pa. induction a as [|rt a IH]; intros pa Ha Hb.
  { injection Ha as <-. exact Hb. }
  cbn [rich_text_parts app] in *.
  destruct (rich_text_item rt) as [text|e]; [|discriminate].
  destruct (rich_text_parts a) as [parts|e]; [|discriminate].
  injection Ha as <-. rewrite (IH parts eq_refl Hb). reflexivity.
Qed.

(** X4.  Rendering rich text goes run by run: the text of two lists of
    runs one after the other is the text of the first followed by the
    text of the second. *)
Theorem rich_text_of_append (a b : list json) (x y : string) :
  rich_text_to_md (JArr a) = Ok x →
  rich_text_to_md (JArr b) = Ok y →
  rich_text_to_md (JArr (a ++ b)) = Ok (x +:+ y).
Proof.
  assert (∀ l t, rich_text_to_md (JArr l) = Ok t →
                 ∃ parts, rich_text_parts l = Ok parts ∧ t = String.concat "" parts)
    as Hparts.
  { intros l t H. destruct l as [|rt l]; [injection H as <-; exists []; auto|].
    unfold rich_text_to_md in H. cbn [truthy negb] in H.
    destruct (rich_text_parts (rt :: l)) as [parts|e]; [|discriminate].
    injection H as <-. eauto. }
  intros Ha Hb. apply Hparts in Ha as (pa & Ha & ->). apply Hparts in Hb as (pb & Hb & ->).
  pose proof (rich_text_parts_app _ _ _ _ Ha Hb) as Hab.
  rewrite <- concat_empty_app.
  destruct (a ++ b) as [|rt l] eqn:E.
  { injection Hab as Hab. rewrite <- Hab. reflexivity. }
  unfold rich_text_to_md. cbn [truthy negb]. rewrite Hab. reflexivity.
Qed.

Lemma rich_text_of_append_witness :
  rich_text_to_md
    (JArr ([JObj [("plain_text", JStr "Buy "); ("annotations", JObj [("bold", JBool true)])]]
           ++ [JObj [("plain_text", JStr "milk")]]))
  = Ok ("**Buy **" +:+ "milk").
Proof.
  apply (rich_text_of_append
           [JObj [("plain_text", JStr "Buy "); ("annotations", JObj [("bold", JBool true)])]]
           [JObj [("plain_text", JStr "milk")]]); reflexivity.
Defined.

End names.

(** ** The disk and the Index *)

Section disk_and_index.

Import NotionMirror.

Variable client : remote.

(** X5.  Pruning empty directories never raises.  It removes only
    directories on the way up from the start, each one a directory that
    was there and never the root, and it changes nothing else: every
    file stays, and the mirror object is as it was. *)
Theorem cleanup_empty_dirs_is_safe (start_dir root : path) (w : world) :
  ∃ ds w',
    _cleanup_empty_dirs start_dir root w = (Ok (), w')
    ∧ self w' = self w
    ∧ trace w' = trace w ++ List.map Rmdir ds
    ∧ (∀ d, d ∈ ds →
         d ≠ root ∧ d `prefix_of` start_dir
         ∧ files w !! d = Some Dir ∧ files w' !! d = None)
    ∧ (∀ p, p ∉ ds → files w' !! p = files w !! p).
Proof.
  destruct (cleanup_empty_dirs_spec start_dir root w) as (ds & f' & Hpr & Hrun).
  exists ds. eexists. split; [exact Hrun|]. cbn [self files trace].
  split; [reflexivity|]. split; [reflexivity|]. split.
  - intros d Hd.
    destruct (pruning_removed _ _ _ _ _ Hpr d Hd) as (Hpre & Hne & _ & Hdir).
    rewrite rev_involutive in Hpre. repeat split; [assumption..|].
    rewrite (pruning_lookup _ _ _ _ _ Hpr), decide_True by exact Hd. reflexivity.
  - intros p Hp. rewrite (pruning_lookup _ _ _ _ _ Hpr), decide_False by exact Hp.
    reflexivity.
Qed.

Lemma elem_of_keys_of (c : gmap string jobj) id : id ∈ keys_of c ↔ is_Some (c !! id).
Proof.
  unfold keys_of. rewrite list_elem_of_fmap. split.
  - intros ([k v] & -> & Hin). apply elem_of_map_to_list in Hin. eauto.
  - intros [v Hv]. exists (id, v). split; [reflexivity|].
    apply elem_of_map_to_list, Hv.
Qed.

(** The tasks of [_prefetch_pages], one after the other: a task whose
    fetch returns stores the page under its id, the others change
    nothing. *)
Lemma fetch_pages_loop (ids : list string) : ∀ w,
  ∃ m',
    for_each ids (fetch_page client) w
    = (Ok (), {| self := m'; files := files w; trace := trace w |})
    ∧ _db_cache m' = _db_cache (self w)
    ∧ ∀ id, _page_cache m' !! id
            = match get_page client id with
              | Ok o => if decide (id ∈ ids) then Some o else _page_cache (self w) !! id
              | Raise _ => _page_cache (self w) !! id
              end.
Proof.
  induction ids as [|pid ids IH]; intros w.
  { exists (self w). cbn [for_each]. rewrite world_eta.
    split; [reflexivity|]. split; [reflexivity|]. intros id.
    destruct (get_page client id); [|reflexivity].
    rewrite decide_False by apply not_elem_of_nil. reflexivity. }
  cbn [for_each]. rewrite bind_eq. unfold fetch_page at 1, try_M.
  rewrite bind_eq. unfold lift at 1.
  destruct (get_page client pid) as [page|e] eqn:Hfetch.
  - cbn beta iota. unfold on_self at 1. cbn beta iota zeta.
    match goal with
    | |- context [for_each ids _ ?w1] => destruct (IH w1) as (m' & -> & Hdb & Hpages)
    end.
    cbn [self files trace _db_cache _page_cache set_page_cache] in *.
    exists m'. split; [reflexivity|]. split; [exact Hdb|]. intros id.
    rewrite Hpages. destruct (get_page client id) as [o|e] eqn:Hid.
    + destruct (decide (id ∈ ids)) as [Hin|Hout].
      * rewrite decide_True by (apply elem_of_cons; auto). reflexivity.
      * destruct (decide (id = pid)) as [->|Hne].
        -- rewrite lookup_insert_eq, decide_True by (apply elem_of_cons; auto).
           congruence.
        -- rewrite lookup_insert_ne by congruence.
           rewrite decide_False; [reflexivity|]. rewrite elem_of_cons. tauto.
    + apply lookup_insert_ne. intros ->. congruence.
  - cbn beta iota. change ((mret () : M unit) w) with (Ok (), w). cbn beta iota.
    destruct (IH w) as (m' & -> & Hdb & Hpages).
    exists m'. split; [reflexivity|]. split; [exact Hdb|]. intros id.
    rewrite Hpages. destruct (get_page client id) as [o|e'] eqn:Hid; [|reflexivity].
    destruct (decide (id ∈ ids)) as [Hin|Hout].
    + rewrite decide_True by (apply elem_of_cons; auto). reflexivity.
    + rewrite decide_False; [reflexivity|]. rewrite elem_of_cons.
      intros [->|?]; [congruence|contradiction].
Qed.

Lemma fetch_databases_loop (ids : list string) : ∀ w,
  ∃ m',
    for_each ids (fetch_database client) w
    = (Ok (), {| self := m'; files := files w; trace := trace w |})
    ∧ _page_cache m' = _page_cache (self w)
    ∧ ∀ id, _db_cache m' !! id
            = match get_database client id with
              | Ok o => if decide (id ∈ ids) then Some o else _db_cache (self w) !! id
              | Raise _ => _db_cache (self w) !! id
              end.
Proof.
  induction ids as [|did ids IH]; intros w.
  { exists (self w). cbn [for_each]. rewrite world_eta.
    split; [reflexivity|]. split; [reflexivity|]. intros id.
    destruct (get_database client id); [|reflexivity].
    rewrite decide_False by apply not_elem_of_nil. reflexivity. }
  cbn [for_each]. rewrite bind_eq. unfold fetch_database at 1, try_M.
  rewrite bind_eq. unfold lift at 1.
  destruct (get_database client did) as [db|e] eqn:Hfetch.
  - cbn beta iota. unfold on_self at 1. cbn beta iota zeta.
    match goal with
    | |- context [for_each ids _ ?w1] => destruct (IH w1) as (m' & -> & Hpages & Hdbs)
    end.
    cbn [self files trace _db_cache _page_cache set_db_cache] in *.
    exists m'. split; [reflexivity|]. split; [exact Hpages|]. intros id.
    rewrite Hdbs. destruct (get_database client id) as [o|e] eqn:Hid.
    + destruct (decide (id ∈ ids)) as [Hin|Hout].
      * rewrite decide_True by (apply elem_of_cons; auto). reflexivity.
      * destruct (decide (id = did)) as [->|Hne].
        -- rewrite lookup_insert_eq, decide_True by (apply elem_of_cons; auto).
           congruence.
        -- rewrite lookup_insert_ne by congruence.
           rewrite decide_False; [reflexivity|]. rewrite elem_of_cons. tauto.
    + apply lookup_insert_ne. intros ->. congruence.
  - cbn beta iota. change ((mret () : M unit) w) with (Ok (), w). cbn beta iota.
    destruct (IH w) as (m' & -> & Hpages & Hdbs).
    exists m'. split; [reflexivity|]. split; [exact Hpages|]. intros id.
    rewrite Hdbs. destruct (get_database client id) as [o|e'] eqn:Hid; [|reflexivity].
    destruct (decide (id ∈ ids)) as [Hin|Hout].
    + rewrite decide_True by (apply elem_of_cons; auto). reflexivity.
    + rewrite decide_False; [reflexivity|]. rewrite elem_of_cons.
      intros [->|?]; [congruence|contradiction].
Qed.

(** X6.  Fetching every cached object again neither adds nor drops an
    id and does not touch the disk; an object whose fetch fails stays as
    discovery stored it. *)
Theorem prefetch_keeps_ids (w : world) :
  ∃ w',
    (_ ← _prefetch_databases client; _prefetch_pages client) w = (Ok (), w')
    ∧ files w' = files w ∧ trace w' = trace w
    ∧ (∀ id, _page_cache (self w') !! id
             = (fun old => match get_page client id with
                           | Ok o => o
                           | Raise _ => old
                           end) <$> _page_cache (self w) !! id)
    ∧ (∀ id, _db_cache (self w') !! id
             = (fun old => match get_database client id with
                           | Ok o => o
                           | Raise _ => old
                           end) <$> _db_cache (self w) !! id).
Proof.
  rewrite bind_eq. unfold _prefetch_databases at 1. rewrite bind_eq.
  unfold get_self at 1. cbn beta iota.
  destruct (fetch_databases_loop (keys_of (_db_cache (self w))) w)
    as (m1 & -> & Hpages1 & Hdbs1).
  cbn beta iota. unfold _prefetch_pages. rewrite bind_eq. unfold get_self at 1.
  cbn beta iota. cbn [self].
  match goal with
  | |- context [for_each ?ids _ ?w1] =>
      destruct (fetch_pages_loop ids w1) as (m2 & -> & Hdbs2 & Hpages2)
  end.
  cbn [self files trace] in *. eexists. split; [reflexivity|]. cbn [self files trace].
  split; [reflexivity|]. split; [reflexivity|]. split; intros id.
  - rewrite Hpages2, Hpages1.
    destruct (_page_cache (self w) !! id) as [old|] eqn:Hold; cbn [fmap option_fmap option_map].
    + destruct (get_page client id); [|reflexivity].
      rewrite decide_True; [reflexivity|]. apply elem_of_keys_of. eauto.
    + destruct (get_page client id); [|reflexivity].
      rewrite decide_False; [reflexivity|]. rewrite elem_of_keys_of, Hold.
      intros [? [=]].
  - rewrite Hdbs2, Hdbs1.
    destruct (_db_cache (self w) !! id) as [old|] eqn:Hold; cbn [fmap option_fmap option_map].
    + destruct (get_database client id); [|reflexivity].
      rewrite decide_True; [reflexivity|]. apply elem_of_keys_of. eauto.
    + destruct (get_database client id); [|reflexivity].
      rewrite decide_False; [reflexivity|]. rewrite elem_of_keys_of, Hold.
      intros [? [=]].
Qed.

(** X8.  Reconciling an Index with itself does nothing: no file is
    removed and no directory is pruned. *)
Theorem reconciling_an_index_with_itself (idx : jobj) (w : world) :
  _cleanup_removed (JObj idx) idx w = (Ok (), w).
Proof.
  apply cleanup_removed_same. intros k v Hin. eapply In_dict_mem, Hin.
Qed.

(** X9.  The access report is written exactly when the run recorded an
    issue; a run without issues leaves the disk as it is, so a report
    of an earlier run stays in place. *)
Theorem access_report_only_with_issues (root : path) (w w' : world) :
  _write_access_report_async client root w = (Ok (), w') →
  self w' = self w
  ∧ match _inaccessible_blocks (self w) with
    | [] => files w' = files w ∧ trace w' = trace w
    | _ :: _ =>
        ∃ text,
          files w' = <[joinpath root "access_issues.txt" := File (Text text)]> (files w)
          ∧ trace w' = trace w ++ [Write (joinpath root "access_issues.txt") (Text text)]
    end.
Proof.
  unfold _write_access_report_async. intros H. ok_bind H as m w0 Hm.
  destruct (_inaccessible_blocks (self w)) as [|entry entries].
  { ok_leaf H. auto. }
  ok_bind H as body w0 Hbody. ok_leaf H.
  apply write_text_ok in H as (-> & -> & _). cbn [self files trace].
  split; [reflexivity|]. eauto.
Qed.

End disk_and_index.

Lemma access_report_only_with_issues_witness :
  NotionMirror.files
    (NotionMirror._write_access_report_async (scenario "t1") mirror_dir scenario_world).2
  = NotionMirror.files scenario_world.
Proof.
  apply (access_report_only_with_issues (scenario "t1") mirror_dir scenario_world
           (NotionMirror._write_access_report_async (scenario "t1") mirror_dir
              scenario_world).2).
  vm_compute. reflexivity.
Defined.

(** ** Resolution, the write phase and directories *)

Section more_steps.

Import NotionMirror.

(** What [resolve] leaves in the memo when it returns a path. *)
Lemma resolve_remembers fuel root page_id stack m p m' :
  resolve (S fuel) root page_id stack m = Some (Ok p, m') →
  ∃ k, hash_key page_id = Ok k
       ∧ (cached m root k = Some p ∧ m' = m ∨ _page_path_cache m' !! k = Some p).
Proof.
  assert (∀ k r m0, remember k r m0 = (Ok p, m') → _page_path_cache m' !! k = Some p)
    as Hrem.
  { intros k r m0 H. destruct r as [p0|e]; [|discriminate].
    injection H as <- <-. cbn. apply lookup_insert_eq. }
  cbn [resolve]. destruct (hash_key page_id) as [k|e]; [|discriminate].
  intros H. exists k. split; [reflexivity|].
  destruct (cached m root k) as [p0|]; [injection H as <- <-; auto|]. right.
  destruct (decide (k ∈ stack)); [injection H as H; exact (Hrem _ _ _ H)|].
  destruct (_ ← _ensure_page m page_id; _) as [[page par]|e]; [|discriminate].
  destruct (is_str (dict_get par "type") "workspace");
    [injection H as H; exact (Hrem _ _ _ H)|].
  destruct (is_str (dict_get par "type") "database_id");
    [injection H as H; exact (Hrem _ _ _ H)|].
  destruct (is_str (dict_get par "type") "page_id");
    [|injection H as H; exact (Hrem _ _ _ H)].
  destruct (resolve fuel root _ _ m) as [[r m1]|]; [|discriminate].
  injection H as H. exact (Hrem _ _ _ H).
Qed.

(** X10.  With a memo that holds paths below the root only, a resolved
    path is below the root, and resolving the same id again gives the
    same path and leaves the mirror object as it is. *)
Theorem resolution_is_memoised (m m' : t) (page_id : json) (root p : path) :
  tidy root m →
  _page_output_path m page_id root = Some (Ok p, m') →
  strictly_below root p
  ∧ _page_output_path m' page_id root = Some (Ok p, m').
Proof.
  intros Htidy H.
  destruct (page_output_path_tidy root _ _ _ _ _ (at_or_below_refl root) Htidy H)
    as [Htidy' Hbelow].
  specialize (Hbelow _ eq_refl). split; [apply below_prefix, Hbelow|].
  unfold _page_output_path, resolve_fuel in *.
  destruct (resolve_remembers _ _ _ _ _ _ _ H) as (k & Hk & Hcase).
  assert (cached m' root k = Some p) as Hcached.
  { destruct Hcase as [[Hc ->]|Hlook]; [exact Hc|].
    unfold cached. rewrite Hlook.
    destruct Hbelow as (rel & -> & _). rewrite path_str_prefix. reflexivity. }
  cbn [resolve]. rewrite Hk, Hcached. reflexivity.
Qed.

Lemma resolution_is_memoised_witness :
  _page_output_path
    (self (page_output_path (JStr "p1") mirror_dir scenario_world).2)
    (JStr "p1") mirror_dir
  = Some (Ok (mirror_dir ++ ["DB_untitled_db_d1"; "Buy milk_p1.md"]),
          self (page_output_path (JStr "p1") mirror_dir scenario_world).2).
Proof.
  apply (resolution_is_memoised (self scenario_world)).
  - intros k q. cbn. rewrite lookup_empty. discriminate.
  - vm_compute. reflexivity.
Defined.

End more_steps.

(** ** The database index and the count of written pages *)

Section counting.

Import NotionMirror.

Variable client : remote.

(** X11.  When the entries of a database cannot be queried, its index
    file is still written, with a line that says so in place of the
    entries; the failure is not recorded anywhere. *)
Theorem database_index_without_access (dest : path) (db : jobj) (database_id title : string)
  (e : exn) :
  query_database client database_id = Raise e →
  database_title db = Ok title →
  ∃ before,
    _write_database_index_async client dest db database_id
    = fs (write_text dest
            (Text (join_lines
                     (before ++ ["## Entries"; ""; "- (no access or empty)"; ""])))).
Proof.
  intros Hquery Htitle. unfold _write_database_index_async.
  rewrite Hquery, Htitle.
  exists ["---"; "id: " +:+ database_id;
          "url: " +:+ py_str (py_or (dict_get db "url") (JStr ""));
          "mirror_generated_at: " +:+ _now_utc_iso client; "---"; ""; "# " +:+ title; ""].
  reflexivity.
Qed.

Lemma length_dict_set d k v :
  length (dict_set d k v) = if dict_mem d k then length d else S (length d).
Proof.
  induction d as [|[k0 v0] d IH]; cbn [dict_set dict_mem]; [reflexivity|].
  destruct (String.eqb k0 k); cbn [orb length]; [reflexivity|].
  rewrite IH. destruct (dict_mem d k); reflexivity.
Qed.

(** With one result for each id, the Index has one entry for each
    result. *)
Lemma length_index_of (results : list outcome) :
  NoDup (List.map (fun o => o.1.1) results) →
  length (index_of results) = length results.
Proof.
  intros Hnd. unfold index_of.
  assert (∀ d, (∀ o, o ∈ results → dict_mem d o.1.1 = false) →
               length (foldl (fun d o => dict_set d (fst (fst o)) (JObj (snd (fst o))))
                         d results)
               = (length d + length results)%nat) as H.
  { induction results as [|r results IH]; intros d Hd; cbn [foldl length]; [lia|].
    apply NoDup_cons in Hnd as [Hr Hnd].
    rewrite (IH Hnd).
    - rewrite length_dict_set, Hd by (apply elem_of_cons; auto). lia.
    - intros o Ho. rewrite dict_mem_set, Hd by (apply elem_of_cons; auto).
      rewrite orb_false_r. apply String.eqb_neq. intros Heq. apply Hr.
      rewrite Heq. apply list_elem_of_fmap. eauto. }
  rewrite H; [reflexivity|]. intros o _. reflexivity.
Qed.

Lemma gather_page_counts root incremental prev_pages : ∀ ids w res w',
  gather (handle_page client root incremental prev_pages) ids w = (Ok res, w') →
  Forall (fun o : outcome => (o.2 <= 1)%nat ∧ (incremental = false → o.2 = 1%nat)) res.
Proof.
  induction ids as [|id ids IH]; intros w res w' H.
  { cbn [gather] in H. ok_leaf H. constructor. }
  apply gather_cons in H as (o & w1 & rest & Ho & Hrest & ->).
  apply IH in Hrest. destruct o as [o|]; [|exact Hrest].
  constructor; [|exact Hrest].
  apply handle_page_ok in Ho as (page & _ & Ho).
  destruct (truthy (dict_get page "archived")); [destruct Ho; discriminate|].
  destruct Ho as (dest & m1 & qs & rel & up & w2 & _ & _ & _ & _ & Hup & [= ->] & _).
  cbn [snd]. split; [destruct up; lia|].
  intros ->. cbn [andb] in Hup. injection Hup as <- _. reflexivity.
Qed.

(** X12.  The page phase writes at most one file for each entry of the
    new Index, and in a full rebuild exactly one. *)
Theorem pages_written_per_entry (root : path) (incremental : bool) (prev_pages : json)
  (w w' : world) (written : nat) (index : jobj) :
  _write_pages_async client root incremental prev_pages w = (Ok (written, index), w') →
  (written <= length index)%nat
  ∧ (incremental = false → written = length index).
Proof.
  unfold _write_pages_async. intros H.
  ok_bind H as m w0 Hm. ok_bind H as res w1 Hres. ok_leaf H.
  injection H as -> ->.
  pose proof (gather_sublist _ (handle_page_id client root incremental prev_pages)
                _ _ _ _ Hres) as Hsub.
  rewrite length_index_of
    by (eapply sublist_NoDup; [apply NoDup_sorted_keys|exact Hsub]).
  apply gather_page_counts in Hres. clear Hsub. unfold written_of.
  induction Hres as [|o res [Hle Hfull] _ [IHle IHfull]]; [split; reflexivity|].
  cbn [foldr length] in *. split; [lia|].
  intros Hinc. rewrite (Hfull Hinc), (IHfull Hinc). reflexivity.
Qed.

End counting.

Lemma database_index_without_access_witness :
  ∃ before,
    NotionMirror._write_database_index_async scenario_query_denied
      (mirror_dir ++ ["DB_Tasks_d1"; "__database.md"]) scenario_database "d1"
    = NotionMirror.fs
        (write_text (mirror_dir ++ ["DB_Tasks_d1"; "__database.md"])
           (Text (NotionMirror.join_lines
                    (before ++ ["## Entries"; ""; "- (no access or empty)"; ""])))).
Proof.
  apply (database_index_without_access scenario_query_denied _ scenario_database "d1"
           "Tasks" (NotionError "Notion API error 403")); reflexivity.
Defined.

Lemma pages_written_per_entry_witness :
  ∃ index,
    (NotionMirror._write_pages_async (scenario "t1") mirror_dir false JNull
       scenario_world).1 = Ok (1%nat, index)
    ∧ 1%nat = length index.
Proof.
  exists [("p1", JObj [("last_edited_time", JStr "t1");
                       ("path", JStr "DB_untitled_db_d1/Buy milk_p1.md")])].
  assert (NotionMirror._write_pages_async (scenario "t1") mirror_dir false JNull
            scenario_world
          = (Ok (1%nat, [("p1", JObj [("last_edited_time", JStr "t1");
                                      ("path", JStr "DB_untitled_db_d1/Buy milk_p1.md")])]),
             (NotionMirror._write_pages_async (scenario "t1") mirror_dir false JNull
                scenario_world).2)) as H by (vm_compute; reflexivity).
  split; [rewrite H; reflexivity|].
  destruct (pages_written_per_entry _ _ _ _ _ _ _ _ H) as [_ Hfull].
  apply Hfull. reflexivity.
Defined.

(** ** The client *)

Section client_steps.

Import AsyncNotionClient.

Variable float : string → option Q.
Variable server : nat → string → response.
Variables (method url : string).

Lemma complaints_sent a c resp evs :
  complaints (Sent a (notion_version c) resp :: evs)
  = if is_version_complaint c resp then resp :: complaints evs else complaints evs.
Proof.
  unfold complaints. cbn [omap list_omap].
  change (is_version_complaint
            {| notion_version := notion_version c; rate_limit_per_sec := 0 |} resp)
    with (is_version_complaint c resp).
  destruct (is_version_complaint c resp); reflexivity.
Qed.

Lemma complaints_slept d evs : complaints (Slept d :: evs) = complaints evs.
Proof. reflexivity. Qed.

Lemma attempts_fallback todo : ∀ c b,
  let run := attempts float server method url todo c b in
  rate_limit_per_sec run.1.2 = rate_limit_per_sec c
  ∧ (notion_version run.1.2 = notion_version c
     ∨ notion_version run.1.2 = "2022-06-28")
  ∧ (length (complaints run.2)
     <= if String.eqb (notion_version c) "2022-06-28" then 0 else 1)%nat.
Proof.
  induction todo as [|a todo IH]; intros c b; cbn zeta.
  { cbn. split; [reflexivity|]. split; [auto|]. lia. }
  cbn [attempts].
  destruct (is_version_complaint c (server a (notion_version c))) eqn:Hc.
  - specialize (IH {| notion_version := "2022-06-28";
                      rate_limit_per_sec := rate_limit_per_sec c |} b).
    cbn zeta in IH.
    destruct (attempts float server method url todo _ b) as [[r c''] evs].
    cbn [fst snd notion_version rate_limit_per_sec] in *.
    destruct IH as (Hrate & Hver & Hlen). change (String.eqb _ _) with true in Hlen.
    split; [exact Hrate|]. split; [destruct Hver; auto|].
    rewrite complaints_sent, Hc. cbn [length].
    assert (String.eqb (notion_version c) "2022-06-28" = false) as ->.
    { unfold is_version_complaint in Hc. rewrite !andb_true_iff in Hc.
      destruct Hc as [_ Hc]. apply negb_true_iff, Hc. }
    cbn beta iota in Hlen. lia.
  - destruct (is_retry_status (server a (notion_version c))).
    + specialize (IH c (Qmin (with_hint float b (server a (notion_version c)) * 2) 30)).
      cbn zeta in IH.
      destruct (attempts float server method url todo c _) as [[r c''] evs].
      cbn [fst snd] in *. destruct IH as (Hrate & Hver & Hlen).
      split; [exact Hrate|]. split; [exact Hver|].
      rewrite complaints_sent, Hc, complaints_slept. exact Hlen.
    + cbn [fst snd]. split; [reflexivity|]. split; [auto|].
      rewrite complaints_sent, Hc. change (complaints []) with (@nil response).
      cbn [length]. destruct (String.eqb _ _); lia.
Qed.

(** X13.  A call falls back to the version 2022-06-28 at most once: at
    most one response of a call is a complaint about the version sent,
    the client ends on the version it had or on 2022-06-28, and a client
    that is on 2022-06-28 meets no complaint at all.  The rate limit of
    the client is never changed. *)
Theorem version_fallback_at_most_once (c : t) :
  let run := _request float server method url c in
  rate_limit_per_sec run.1.2 = rate_limit_per_sec c
  ∧ (notion_version run.1.2 = notion_version c
     ∨ notion_version run.1.2 = "2022-06-28")
  ∧ (length (complaints run.2) <= 1)%nat
  ∧ (notion_version c = "2022-06-28" → complaints run.2 = []).
Proof.
  cbn zeta. unfold _request.
  destruct (attempts_fallback (seq 0 8) c 1) as (Hrate & Hver & Hlen).
  split; [exact Hrate|]. split; [exact Hver|]. split.
  - destruct (String.eqb (notion_version c) "2022-06-28"); lia.
  - intros Hv. rewrite Hv in Hlen. change (String.eqb _ _) with true in Hlen.
    cbn beta iota in Hlen. destruct (complaints _); [reflexivity|cbn in Hlen; lia].
Qed.

(** X14.  Nothing is sent after a final answer: every response of a
    call but the last one is a rate-limit or transient-error response,
    or a 400. *)
Theorem nothing_is_sent_after_a_final_answer (c : t) :
  Forall (fun resp => is_retry_status resp = true ∨ status_code resp = 400%Z)
    (removelast (responses (_request float server method url c).2)).
Proof.
  unfold _request. generalize (seq 0 8) as todo, 1%Q as b. intros todo. revert c.
  induction todo as [|a todo IH]; intros c b; [constructor|].
  cbn [attempts].
  assert (∀ resp l,
            is_retry_status resp = true ∨ status_code resp = 400%Z →
            Forall (fun resp => is_retry_status resp = true ∨ status_code resp = 400%Z)
              (removelast l) →
            Forall (fun resp => is_retry_status resp = true ∨ status_code resp = 400%Z)
              (removelast (resp :: l))) as Hcons.
  { intros resp l Hresp Hl. destruct l as [|x l]; [constructor|].
    change (removelast (resp :: x :: l)) with (resp :: removelast (x :: l)).
    constructor; assumption. }
  destruct (is_version_complaint c (server a (notion_version c))) eqn:Hc.
  - specialize (IH {| notion_version := "2022-06-28";
                      rate_limit_per_sec := rate_limit_per_sec c |} b).
    destruct (attempts float server method url todo _ b) as [[r c''] evs].
    cbn [snd] in *. apply Hcons; [|exact IH]. right.
    unfold is_version_complaint in Hc. rewrite !andb_true_iff in Hc.
    destruct Hc as [[Hc _] _]. apply Z.eqb_eq, Hc.
  - destruct (is_retry_status (server a (notion_version c))) eqn:Hr.
    + specialize (IH c (Qmin (with_hint float b (server a (notion_version c)) * 2) 30)).
      destruct (attempts float server method url todo c _) as [[r c''] evs].
      cbn [snd] in *. apply Hcons; [auto|exact IH].
    + constructor.
Qed.

End client_steps.

Section limiter_steps.

Import AsyncRateLimiter.

(** X15.  A limiter never raises: with the burst that [__init__] leaves,
    which is at least 1, a pass that finds no room always has an oldest
    acquisition to wait for, whatever calls came before. *)
Theorem acquire_never_raises (rate_per_sec burst : Z) (nows : list spec_float)
  (now : spec_float) :
  is_ok (acquire_pass now (passes nows (__init__ rate_per_sec burst)).2).1 = true.
Proof.
  assert (Z.of_nat (length (_timestamps (__init__ rate_per_sec burst)))
          ≤ _burst (__init__ rate_per_sec burst))%Z as Hlen by (cbn; lia).
  destruct (passes_bounded nows _ Hlen) as [_ Hburst].
  assert (1 ≤ _burst (passes nows (__init__ rate_per_sec burst)).2)%Z as Hone
    by (rewrite Hburst; cbn; lia).
  revert Hone. generalize (passes nows (__init__ rate_per_sec burst)).2 as l.
  intros l Hone. unfold acquire_pass.
  destruct (Z.of_nat (length (List.filter (in_window now) (_timestamps l))) <? _burst l)%Z
    eqn:Hlt; [reflexivity|].
  destruct (List.filter (in_window now) (_timestamps l)); [|reflexivity].
  apply Z.ltb_ge in Hlt. cbn in Hlt. lia.
Qed.

End limiter_steps.

(** ** Discovery and the cached objects *)

Section cached_objects.

Import NotionMirror.

Variable client : remote.

(** X16.  The page phase never changes what discovery found: the
    cached pages and databases and the output directory are the same
    after it, whether it returns or raises. *)
Theorem page_phase_keeps_objects (root : path) (incremental : bool) (prev_pages : json)
  (w : world) :
  let w' := (_write_pages_async client root incremental prev_pages w).2 in
  output_dir (self w') = output_dir (self w)
  ∧ _page_cache (self w') = _page_cache (self w)
  ∧ _db_cache (self w') = _db_cache (self w).
Proof.
  assert (keeps objects_kept (_write_pages_async client root incremental prev_pages))
    as Hkeeps.
  { unfold _write_pages_async.
    repeat first [ apply keeps_handle_page | objects_step ]. }
  exact (Hkeeps w).
Qed.

Lemma populate_pages_origin (pages : list json) : ∀ w w',
  for_each pages (fun p =>
    p ← lift (as_dict p);
    let pid := dict_get p "id" in
    if truthy pid then
      match pid with
      | JStr pid =>
          on_self (fun m => (Ok (), set_page_cache (<[pid := p]> (_page_cache m)) m))
      | _ => lift (Raise TypeError)
      end
    else mret ()) w = (Ok (), w') →
  ∀ id p, _page_cache (self w') !! id = Some p →
    _page_cache (self w) !! id = Some p
    ∨ (JObj p ∈ pages ∧ dict_get p "id" = JStr id).
Proof.
  induction pages as [|x pages IH]; intros w w' H id p Hp.
  { cbn [for_each] in H. ok_leaf H. auto. }
  cbn [for_each] in H. ok_bind H as u w1 Hbody.
  destruct (IH _ _ H id p Hp) as [Hw1|[Hin Hid]].
  2: { right. split; [apply elem_of_cons; auto|exact Hid]. }
  ok_bind Hbody as p0 w0 Hp0.
  destruct x as [| | | | |fields]; try discriminate. injection Hp0 as <-.
  destruct (truthy (dict_get fields "id")); [|ok_leaf Hbody; auto].
  destruct (dict_get fields "id") as [| | |s| |] eqn:Hid; try discriminate.
  destruct u. apply on_self_ok in Hbody as (m1 & Hm1 & ->). injection Hm1 as <-.
  cbn [self _page_cache set_page_cache] in Hw1.
  apply lookup_insert_Some in Hw1 as [[<- <-]|[_ Hw]]; [|auto].
  right. split; [apply elem_of_cons; auto|exact Hid].
Qed.

(** X17.  Discovery caches an object under its own id: a page that is
    in the cache after [_populate_caches] was there before, or it is one
    of the pages found and its id is the key. *)
Theorem populate_caches_keys (pages dbs : list json) (w w' : world) :
  _populate_caches pages dbs w = (Ok (), w') →
  ∀ id p, _page_cache (self w') !! id = Some p →
    _page_cache (self w) !! id = Some p
    ∨ (JObj p ∈ pages ∧ dict_get p "id" = JStr id).
Proof.
  unfold _populate_caches. intros H id p Hp.
  ok_bind H as u w1 Hpages. destruct u.
  apply (populate_pages_origin _ _ _ Hpages).
  assert (_page_cache (self w') = _page_cache (self w1)) as <-; [|exact Hp].
  match type of H with
  | ?c w1 = _ =>
      assert (keeps (fun a b => _page_cache (self b) = _page_cache (self a)) c) as Hkeeps
  end.
  { repeat first
      [ match goal with
        | |- keeps _ (on_self _) => intros ?; reflexivity
        end
      | keeps_step (fun a : world => eq_refl (_page_cache (self a)))
          (fun (a b c : world) (H1 : _page_cache (self b) = _page_cache (self a))
               (H2 : _page_cache (self c) = _page_cache (self b)) => eq_trans H2 H1) ]. }
  apply (keeps_result _ _ _ _ _ Hkeeps H).
Qed.

End cached_objects.

Lemma populate_caches_keys_witness :
  NotionMirror._page_cache
    (NotionMirror.self
       (NotionMirror._populate_caches [JObj (scenario_page "t1")] []
          (NotionMirror.start mirror_dir ∅)).2) !! "p1"
  = Some (scenario_page "t1")
  ∧ (NotionMirror._page_cache (NotionMirror.self (NotionMirror.start mirror_dir ∅))
       !! "p1" = Some (scenario_page "t1")
     ∨ (JObj (scenario_page "t1") ∈ [JObj (scenario_page "t1")]
        ∧ dict_get (scenario_page "t1") "id" = JStr "p1")).
Proof.
  assert (NotionMirror._page_cache
            (NotionMirror.self
               (NotionMirror._populate_caches [JObj (scenario_page "t1")] []
                  (NotionMirror.start mirror_dir ∅)).2) !! "p1"
          = Some (scenario_page "t1")) as H by (vm_compute; reflexivity).
  split; [exact H|].
  apply (populate_caches_keys [JObj (scenario_page "t1")] []
           (NotionMirror.start mirror_dir ∅) _ eq_refl "p1" _ H).
Defined.
